(** * Sockress: dual-transport request protocol and routing pipeline

    A shallow embedding of the server dispatch engine, the response model,
    the path matcher, the socket multipart codec and the client transport
    controller, followed by the properties established about them.

    Conventions of the embedding.
    - JavaScript values that flow through the engine ([unknown] payloads,
      thrown values, the argument of [next]) are the inductive [JsVal];
      the conditional [if (v)] is [truthy v]. Numbers are integers, strings
      are sequences of 8-bit code units: a character outside ASCII stands
      as the octets of its UTF-8 encoding.
    - Plain objects used as maps of string keys are [JsObj]: association
      lists kept in own-property order (array-index keys ascending, then the
      other keys in creation order), which is the order [Object.keys],
      [Object.entries] and [JSON.stringify] observe. A read or a write by
      key is that of an own property; the statements that depend on it
      exclude the names a plain object inherits ([plain_key]).
    - What a response writes to its transport is recorded as a list of
      [Emitted] items, one per completed [send]. JSON text is kept as the
      value it encodes.
    - Handlers are programs ([Prog]) over the response API, the continuation
      [next] and [throw]; a call of [next] runs the rest of the stack before
      the caller resumes, which is the order of evaluation for synchronous
      handlers and for handlers that await their continuation. The engine
      itself never suspends between catching an error and rendering it.
    - What the environment decides (the id a generator returns, what the
      socket factory or [fetch] does, which event or timer fires next) is an
      argument of the function it influences. *)

From Stdlib Require Import ZArith List String Ascii Bool Lia ZifyNat.
From stdpp Require Import gmap strings list pretty.
Import ListNotations.
Open Scope string_scope.
Open Scope list_scope.
Set Warnings "-register-all".

(* ===================================================================== *)
(** * JavaScript values and objects *)
(* ===================================================================== *)

Module Js.

(** The values the engine inspects. Numbers are integer valued. *)
Inductive JsVal : Type :=
| VUndefined
| VNull
| VBool (b : bool)
| VNum (z : Z)
| VStr (s : string)
| VBuffer (bytes : list Byte.byte)
| VError (message : string)
| VObject (props : list (string * JsVal))
| VArray (items : list JsVal).

(** [if (v)] *)
Definition truthy (v : JsVal) : bool :=
  match v with
  | VUndefined | VNull => false
  | VBool b => b
  | VNum z => negb (Z.eqb z 0)
  | VStr s => negb (String.eqb s "")
  | VBuffer _ | VError _ | VObject _ | VArray _ => true
  end.

(** [a ?? b] on an optional field. *)
Definition nullish {A : Type} (a : option A) (b : A) : A :=
  match a with Some x => x | None => b end.

(** [toLowerCase] on code units below 128: the letters [A] to [Z] become
    small, every other unit stays. A name with a unit from 128 on is outside
    what this definition describes ([is_ascii] below). *)
Definition lower_ascii (c : ascii) : ascii :=
  let n := nat_of_ascii c in
  if (65 <=? n)%nat && (n <=? 90)%nat then ascii_of_nat (n + 32) else c.

Fixpoint toLowerCase (s : string) : string :=
  match s with
  | EmptyString => EmptyString
  | String c r => String (lower_ascii c) (toLowerCase r)
  end.

Fixpoint startsWith (s p : string) : bool :=
  match p, s with
  | EmptyString, _ => true
  | String a p', String b s' => Ascii.eqb a b && startsWith s' p'
  | String _ _, EmptyString => false
  end.

(** ** Own-property order *)

Definition is_digit (c : ascii) : bool :=
  let n := nat_of_ascii c in (48 <=? n)%nat && (n <=? 57)%nat.

Fixpoint digits_value (acc : N) (s : string) : option N :=
  match s with
  | EmptyString => Some acc
  | String c r =>
      if is_digit c
      then digits_value (acc * 10 + N.of_nat (nat_of_ascii c - 48)) r
      else None
  end.

(** A key is an array index when it is the canonical decimal spelling of an
    integer below 2^32 - 1. *)
Definition array_index (k : string) : option N :=
  match k with
  | EmptyString => None
  | String "0" EmptyString => Some 0%N
  | String "0" _ => None
  | _ =>
      match digits_value 0 k with
      | Some n => if (n <? 4294967295)%N then Some n else None
      | None => None
      end
  end.

Section Obj.
Context {V : Type}.

Definition JsObj : Type := list (string * V).

(** [o[k]] *)
Fixpoint obj_get (k : string) (o : JsObj) : option V :=
  match o with
  | [] => None
  | (k', v) :: r => if String.eqb k k' then Some v else obj_get k r
  end.

Fixpoint obj_replace (k : string) (v : V) (o : JsObj) : JsObj :=
  match o with
  | [] => []
  | (k', v') :: r =>
      if String.eqb k k' then (k', v) :: r else (k', v') :: obj_replace k v r
  end.

(** Position of a new array-index key: before the first key that is not an
    index or is a larger index. *)
Fixpoint obj_insert_index (n : N) (k : string) (v : V) (o : JsObj) : JsObj :=
  match o with
  | [] => [(k, v)]
  | (k', v') :: r =>
      match array_index k' with
      | Some n' =>
          if (n' <? n)%N then (k', v') :: obj_insert_index n k v r
          else (k, v) :: o
      | None => (k, v) :: o
      end
  end.

(** [o[k] = v] *)
Definition obj_set (k : string) (v : V) (o : JsObj) : JsObj :=
  match obj_get k o with
  | Some _ => obj_replace k v o
  | None =>
      match array_index k with
      | Some n => obj_insert_index n k v o
      | None => o ++ [(k, v)]
      end
  end.

(** [Object.keys(o)] *)
Definition obj_keys (o : JsObj) : list string := map fst o.
End Obj.

Arguments JsObj V : clear implicits.

(** ** Keys a plain object inherits *)

(** The names of the members of [Object.prototype]. On an object literal
    [o[k]] finds the inherited member under such a name when [o] has no own
    property [k], and [o.__proto__ = v] goes through a setter that adds no
    own property. [obj_get] and [obj_set] are the read and the write of the
    own properties: they are [o[k]] and [o[k] = v] for the keys that are not
    in this list, which is what [plain_key] decides. *)
Definition proto_members : list string :=
  [ "constructor"; "__defineGetter__"; "__defineSetter__"; "hasOwnProperty";
    "__lookupGetter__"; "__lookupSetter__"; "isPrototypeOf";
    "propertyIsEnumerable"; "toString"; "valueOf"; "__proto__";
    "toLocaleString" ].

Definition plain_key (k : string) : bool :=
  negb (existsb (String.eqb k) proto_members).

(** ** Names up to letter case *)

(** A string of code units below 128. On such a string [toLowerCase] above
    is the method of the same name: it changes the letters [A] to [Z] and
    nothing else. *)
Definition is_ascii (s : string) : bool :=
  forallb (fun c => (nat_of_ascii c <? 128)%nat) (list_ascii_of_string s).

Definition is_upper (c : ascii) : bool :=
  let n := nat_of_ascii c in (65 <=? n)%nat && (n <=? 90)%nat.

(** Two code units that are the same, or a capital letter and its small
    letter. *)
Definition same_letter (a b : ascii) : bool :=
  Ascii.eqb a b
  || (is_upper a && (nat_of_ascii b =? nat_of_ascii a + 32)%nat)
  || (is_upper b && (nat_of_ascii a =? nat_of_ascii b + 32)%nat).

(** Two names that differ at most in the case of their letters. *)
Fixpoint same_name (s t : string) : bool :=
  match s, t with
  | EmptyString, EmptyString => true
  | String a s', String b t' => same_letter a b && same_name s' t'
  | _, _ => false
  end.

End Js.
Import Js.

(* ===================================================================== *)
(** * Response model *)
(* ===================================================================== *)

Module Response.

(** [cors.origin : string | string[]] *)
Inductive AllowedOrigin : Type :=
| OriginOne (o : string)
| OriginMany (os : list string).

Record CorsOptions : Type := {
  origin : AllowedOrigin;
  credentials : bool;
  methods : list string;
  allowedHeaders : list string;
  exposedHeaders : list string;
  maxAge : Z
}.

(** The mode a response closes over. The HTTP mode writes to the raw
    [ServerResponse]; the socket mode sends one JSON message tagged with the
    request id. *)
Inductive RequestMode : Type :=
| ModeHttp
| ModeSocket (requestId : string).

Inductive MessageType : Type := MsgResponse | MsgError.

Record OutgoingSocketMessage : Type := {
  msg_type : MessageType;
  msg_id : option string;
  msg_status : option Z;
  msg_headers : option (JsObj string);
  msg_body : JsVal;
  msg_message : option string;
  msg_cookies : option (list string)
}.

Inductive HeaderValue : Type :=
| HeaderStr (v : string)
| HeaderList (vs : list string).

(** Argument of [res.end]. *)
Inductive HttpBody : Type :=
| EndBuffer (bytes : list Byte.byte)
| EndString (s : string)
| EndEmpty
| EndJson (v : JsVal).

(** One completed write to the transport: for HTTP the status code, the
    [setHeader] calls in order and the body; for a socket the message. *)
Inductive Emitted : Type :=
| EmitHttp (status : Z) (setHeaders : list (string * HeaderValue)) (body : HttpBody)
| EmitSocket (m : OutgoingSocketMessage).

Record SockressResponse : Type := {
  mode : RequestMode;
  cors : CorsOptions;
  allowedOrigin : string;
  statusCode : Z;
  sent : bool;
  headers : JsObj string;
  cookies : list string
}.

(** [new SockressResponse(mode, cors, allowedOrigin)] *)
Definition create (m : RequestMode) (c : CorsOptions) (o : string) : SockressResponse :=
  {| mode := m; cors := c; allowedOrigin := o;
     statusCode := 200; sent := false; headers := []; cookies := [] |}.

Definition with_status (code : Z) (r : SockressResponse) : SockressResponse :=
  {| mode := mode r; cors := cors r; allowedOrigin := allowedOrigin r;
     statusCode := code; sent := sent r; headers := headers r; cookies := cookies r |}.

Definition with_headers (h : JsObj string) (r : SockressResponse) : SockressResponse :=
  {| mode := mode r; cors := cors r; allowedOrigin := allowedOrigin r;
     statusCode := statusCode r; sent := sent r; headers := h; cookies := cookies r |}.

Definition with_cookies (c : list string) (r : SockressResponse) : SockressResponse :=
  {| mode := mode r; cors := cors r; allowedOrigin := allowedOrigin r;
     statusCode := statusCode r; sent := sent r; headers := headers r; cookies := c |}.

Definition mark_sent (r : SockressResponse) : SockressResponse :=
  {| mode := mode r; cors := cors r; allowedOrigin := allowedOrigin r;
     statusCode := statusCode r; sent := true; headers := headers r; cookies := cookies r |}.

(** [status(code)] *)
Definition status (code : Z) (r : SockressResponse) : SockressResponse :=
  with_status code r.

(** [set(field, value)] *)
Definition set (field value : string) (r : SockressResponse) : SockressResponse :=
  with_headers (obj_set (toLowerCase field) value (headers r)) r.

(** [cookie(...)], given the serialized directive. *)
Definition cookie (serialized : string) (r : SockressResponse) : SockressResponse :=
  with_cookies (cookies r ++ [serialized]) r.

(** [isSent()] *)
Definition isSent (r : SockressResponse) : bool := sent r.

Definition string_of_bool (b : bool) : string := if b then "true" else "false".

(** [buildHeaders()] *)
Definition buildHeaders (r : SockressResponse) : JsObj string :=
  let h := headers r in
  let h := obj_set "access-control-allow-origin" (allowedOrigin r) h in
  let h := obj_set "access-control-allow-credentials" (string_of_bool (credentials (cors r))) h in
  let h := obj_set "access-control-allow-methods" (String.concat ", " (methods (cors r))) h in
  let h := obj_set "access-control-allow-headers" (String.concat ", " (allowedHeaders (cors r))) h in
  let h := obj_set "access-control-expose-headers" (String.concat ", " (exposedHeaders (cors r))) h in
  obj_set "access-control-max-age" (pretty (maxAge (cors r))) h.

(** [!this.headers['content-type']] *)
Definition no_content_type (r : SockressResponse) : bool :=
  match obj_get "content-type" (headers r) with
  | Some v => String.eqb v ""
  | None => true
  end.

Definition is_string (v : JsVal) : bool :=
  match v with VStr _ => true | _ => false end.

(** The HTTP branch of [send]: the calls made on the raw response. *)
Definition http_write (r : SockressResponse) (headersWithCors : JsObj string)
    (payload : JsVal) : Emitted :=
  let hs := map (fun kv => (fst kv, HeaderStr (snd kv))) headersWithCors in
  let hs := match cookies r with
            | [] => hs
            | _ :: _ => hs ++ [("Set-Cookie", HeaderList (cookies r))]
            end in
  match payload with
  | VBuffer b => EmitHttp (statusCode r) hs (EndBuffer b)
  | VStr s => EmitHttp (statusCode r) hs (EndString s)
  | VUndefined | VNull => EmitHttp (statusCode r) hs EndEmpty
  | _ =>
      let hs := if no_content_type r
                then hs ++ [("content-type", HeaderStr "application/json; charset=utf-8")]
                else hs in
      EmitHttp (statusCode r) hs (EndJson payload)
  end.

(** The socket branch of [send]. *)
Definition socket_message (r : SockressResponse) (requestId : string)
    (headersWithCors : JsObj string) (payload : JsVal) : OutgoingSocketMessage :=
  {| msg_type := MsgResponse;
     msg_id := Some requestId;
     msg_status := Some (statusCode r);
     msg_headers := Some headersWithCors;
     msg_body := payload;
     msg_message := None;
     msg_cookies := match cookies r with [] => None | _ :: _ => Some (cookies r) end |}.

(** [send(payload)]: the updated response and the item handed to the
    transport. The call returns when the transport takes the item, which
    is the case this definition and [runPipeline] below describe; [send_on]
    and [runPipeline_on] further down are [send] and [runPipeline] on a
    transport that may throw on it. *)
Definition send (payload : JsVal) (r : SockressResponse) : SockressResponse * list Emitted :=
  if sent r then (r, [])
  else
    let r := mark_sent r in
    let r := if no_content_type r && is_string payload
             then set "content-type" "text/plain; charset=utf-8" r
             else r in
    let headersWithCors := buildHeaders r in
    match mode r with
    | ModeHttp => (r, [http_write r headersWithCors payload])
    | ModeSocket requestId => (r, [EmitSocket (socket_message r requestId headersWithCors payload)])
    end.

(** [json(payload)] *)
Definition json (payload : JsVal) (r : SockressResponse) : SockressResponse * list Emitted :=
  send payload (set "content-type" "application/json; charset=utf-8" r).

(** A response together with everything written to its transport so far. *)
Definition Channel : Type := SockressResponse * list Emitted.

Definition on_channel (f : SockressResponse -> SockressResponse * list Emitted)
    (c : Channel) : Channel :=
  let '(r', e) := f (fst c) in (r', snd c ++ e).

(** What an emitted item shows of the response it carries. *)
Definition emitted_status (x : Emitted) : Z :=
  match x with
  | EmitHttp code _ _ => code
  | EmitSocket m => nullish (msg_status m) 0%Z
  end.

Definition emitted_payload (x : Emitted) : JsVal :=
  match x with
  | EmitHttp _ _ (EndBuffer b) => VBuffer b
  | EmitHttp _ _ (EndString s) => VStr s
  | EmitHttp _ _ EndEmpty => VUndefined
  | EmitHttp _ _ (EndJson v) => v
  | EmitSocket m => msg_body m
  end.

(** The socket message an item is, when it is one. *)
Definition emitted_message (x : Emitted) : option OutgoingSocketMessage :=
  match x with
  | EmitHttp _ _ _ => None
  | EmitSocket m => Some m
  end.

(** The response as [send] leaves it when it was not sent before. *)
Definition latched (p : JsVal) (r : SockressResponse) : SockressResponse :=
  if no_content_type (mark_sent r) && is_string p
  then set "content-type" "text/plain; charset=utf-8" (mark_sent r)
  else mark_sent r.

Definition written (p : JsVal) (r : SockressResponse) : Emitted :=
  match mode r with
  | ModeHttp => http_write (latched p r) (buildHeaders (latched p r)) p
  | ModeSocket rid => EmitSocket (socket_message (latched p r) rid (buildHeaders (latched p r)) p)
  end.

End Response.
Import Response.

(* ===================================================================== *)
(** * Path matcher *)
(* ===================================================================== *)

Module Matcher.

(** Strings are sequences of 8-bit code units; text outside ASCII is its
    UTF-8 encoding. *)

Definition slash : ascii := "/"%char.

(** [s.split('/')] *)
Fixpoint split_slash_aux (cur : string) (s : string) : list string :=
  match s with
  | EmptyString => [cur]
  | String c r =>
      if Ascii.eqb c slash then cur :: split_slash_aux "" r
      else split_slash_aux (cur +:+ String c "") r
  end.

Definition split_slash (s : string) : list string := split_slash_aux "" s.

Fixpoint endsWith_char (c : ascii) (s : string) : bool :=
  match s with
  | EmptyString => false
  | String a EmptyString => Ascii.eqb a c
  | String _ r => endsWith_char c r
  end.

(** [s.replace(/\?$/, '')] *)
Fixpoint strip_trailing_qmark (s : string) : string :=
  match s with
  | EmptyString => EmptyString
  | String a EmptyString => if Ascii.eqb a "?" then EmptyString else s
  | String a r => String a (strip_trailing_qmark r)
  end.

(** [s.replace(/^\//, '')] *)
Definition strip_leading_slash (s : string) : string :=
  match s with
  | String a r => if Ascii.eqb a slash then r else s
  | EmptyString => EmptyString
  end.

(** The regular-expression fragment a pattern segment compiles to.
    - [PLit s]: a slash followed by the segment with every metacharacter
      escaped, so it matches the text of the segment verbatim;
    - [PParam]: a slash and a capture group of one or more non-slash
      characters, greedy;
    - [POptParam]: the same inside an optional non-capturing group;
    - [PWild]: a slash and a capture group of any number of characters
      other than line terminators, greedy. *)
Inductive Piece : Type :=
| PLit (s : string)
| PParam
| POptParam
| PWild.

(** The [map] callback of [buildMatcher]: the piece of a segment and the key
    it pushes, if any. An empty segment contributes nothing. *)
Definition compile_segment (segment : string) : option (Piece * option string) :=
  match segment with
  | EmptyString => None
  | String c r =>
      if Ascii.eqb c ":" then
        let key := strip_trailing_qmark r in
        Some (if endsWith_char "?" segment then POptParam else PParam, Some key)
      else if String.eqb segment "*" then Some (PWild, Some "wild")
      else Some (PLit segment, None)
  end.

Fixpoint compile_segments (segs : list string) : list Piece * list string :=
  match segs with
  | [] => ([], [])
  | seg :: r =>
      let '(ps, ks) := compile_segments r in
      match compile_segment seg with
      | None => (ps, ks)
      | Some (p, None) => (p :: ps, ks)
      | Some (p, Some k) => (p :: ps, k :: ks)
      end
  end.

(** Greedy quantifier over a character class: the ways to split the input
    into a run of the class and the rest, longest run first (the order in
    which the backtracking matcher tries them). *)
Fixpoint greedy_splits (cls : ascii -> bool) (s : string) : list (string * string) :=
  match s with
  | EmptyString => [(EmptyString, EmptyString)]
  | String c r =>
      if cls c
      then map (fun pq => (String c (fst pq), snd pq)) (greedy_splits cls r) ++ [(EmptyString, s)]
      else [(EmptyString, s)]
  end.

Definition not_slash (c : ascii) : bool := negb (Ascii.eqb c slash).

(** [.] without the [s] flag: every code unit but a line terminator. *)
Definition dot (c : ascii) : bool :=
  negb (Ascii.eqb c "010") && negb (Ascii.eqb c "013").

Fixpoint first_some {A B : Type} (f : A -> option B) (l : list A) : option B :=
  match l with
  | [] => None
  | x :: r => match f x with Some y => Some y | None => first_some f r end
  end.

(** [s] with the prefix [p] removed, when [s] starts with [p]. *)
Fixpoint strip_prefix (p s : string) : option string :=
  match p, s with
  | EmptyString, _ => Some s
  | String a p', String b s' => if Ascii.eqb a b then strip_prefix p' s' else None
  | String _ _, EmptyString => None
  end.

(** Matching of the anchored expression (the pieces, an optional trailing
    slash, end of input) against the input: the capture groups in order,
    [None] for a group that did not participate. *)
Fixpoint match_pieces (ps : list Piece) (s : string) : option (list (option string)) :=
  match ps with
  | [] => if String.eqb s "" || String.eqb s "/" then Some [] else None
  | PLit l :: r =>
      match strip_prefix (String slash l) s with
      | Some rest => match_pieces r rest
      | None => None
      end
  | PParam :: r =>
      match s with
      | String c s' =>
          if Ascii.eqb c slash then
            first_some (fun pq =>
                          if String.eqb (fst pq) "" then None
                          else option_map (cons (Some (fst pq))) (match_pieces r (snd pq)))
                       (greedy_splits not_slash s')
          else None
      | EmptyString => None
      end
  | POptParam :: r =>
      let taken :=
        match s with
        | String c s' =>
            if Ascii.eqb c slash then
              first_some (fun pq =>
                            if String.eqb (fst pq) "" then None
                            else option_map (cons (Some (fst pq))) (match_pieces r (snd pq)))
                         (greedy_splits not_slash s')
            else None
        | EmptyString => None
        end in
      match taken with
      | Some caps => Some caps
      | None => option_map (cons None) (match_pieces r s)
      end
  | PWild :: r =>
      match s with
      | String c s' =>
          if Ascii.eqb c slash then
            first_some (fun pq => option_map (cons (Some (fst pq))) (match_pieces r (snd pq)))
                       (greedy_splits dot s')
          else None
      | EmptyString => None
      end
  end.

(** ** [decodeURIComponent] *)

Definition hex_value (c : ascii) : option nat :=
  let n := nat_of_ascii c in
  if (48 <=? n)%nat && (n <=? 57)%nat then Some (n - 48)%nat
  else if (65 <=? n)%nat && (n <=? 70)%nat then Some (n - 55)%nat
  else if (97 <=? n)%nat && (n <=? 102)%nat then Some (n - 87)%nat
  else None.

(** The octet an escape [%XX] at the head of a text spells, and what
    follows it; [None] when the text does not open with a percent sign and
    two hexadecimal digits. *)
Definition take_escape (s : string) : option (nat * string) :=
  match s with
  | String c (String h (String l r)) =>
      if Ascii.eqb c "%" then
        match hex_value h, hex_value l with
        | Some a, Some b => Some ((16 * a + b)%nat, r)
        | _, _ => None
        end
      else None
  | _ => None
  end.

(** The number of continuation octets the lead octet of a well-formed UTF-8
    sequence announces; [None] for an octet that cannot lead one
    (a continuation octet, [C0], [C1], and [F5] and above). *)
Definition continuation_count (lead : nat) : option nat :=
  if (lead <? 128)%nat then Some 0%nat
  else if (194 <=? lead)%nat && (lead <=? 223)%nat then Some 1%nat
  else if (224 <=? lead)%nat && (lead <=? 239)%nat then Some 2%nat
  else if (240 <=? lead)%nat && (lead <=? 244)%nat then Some 3%nat
  else None.

(** The range of the second octet of a well-formed sequence: it excludes
    overlong forms, surrogates and code points above [10FFFF]. *)
Definition second_octet_range (lead : nat) : nat * nat :=
  if (lead =? 224)%nat then (160, 191)%nat
  else if (lead =? 237)%nat then (128, 159)%nat
  else if (lead =? 240)%nat then (144, 191)%nat
  else if (lead =? 244)%nat then (128, 143)%nat
  else (128, 191)%nat.

(** [n] escaped continuation octets, the first within [lo..hi] and the
    others within [80..BF]. *)
Fixpoint take_continuations (n lo hi : nat) (s : string) : option (list nat * string) :=
  match n with
  | O => Some ([], s)
  | S n' =>
      match take_escape s with
      | Some (b, r) =>
          if (lo <=? b)%nat && (b <=? hi)%nat then
            match take_continuations n' 128 191 r with
            | Some (bs, r') => Some (b :: bs, r')
            | None => None
            end
          else None
      | None => None
      end
  end.

Fixpoint prepend_octets (octets : list nat) (s : string) : string :=
  match octets with
  | [] => s
  | b :: r => String (ascii_of_nat b) (prepend_octets r s)
  end.

(** The decoding loop; [fuel] bounds the number of characters and escape
    sequences still to be read, and the length of the text is enough of it.
    An escape below [80] becomes the character it spells; an escape from
    [80] on must open the escaped octets of one well-formed UTF-8 sequence,
    which become the character they encode. [None] is the [URIError] thrown
    otherwise. *)
Fixpoint decode_loop (fuel : nat) (s : string) : option string :=
  match s with
  | EmptyString => Some EmptyString
  | String c r =>
      match fuel with
      | O => None
      | S fuel' =>
          if Ascii.eqb c "%" then
            match take_escape s with
            | Some (lead, r1) =>
                match continuation_count lead with
                | Some n =>
                    match take_continuations n (fst (second_octet_range lead))
                                             (snd (second_octet_range lead)) r1 with
                    | Some (bs, r2) =>
                        option_map (prepend_octets (lead :: bs)) (decode_loop fuel' r2)
                    | None => None
                    end
                | None => None
                end
            | None => None
            end
          else option_map (String c) (decode_loop fuel' r)
      end
  end.

(** [decodeURIComponent(s)]; [None] when it throws [URIError]: on an escape
    that is not two hexadecimal digits, and on escaped octets that are not
    well-formed UTF-8. *)
Definition decodeURIComponent (s : string) : option string :=
  decode_loop (String.length s) s.

(** Result of [matcher.match(path)]. *)
Inductive MatchResult : Type :=
| MatchNull
| MatchParams (params : JsObj string)
| MatchThrows.

(** The [keys.forEach] loop. *)
Fixpoint collect_params (keys : list string) (caps : list (option string))
    (params : JsObj string) : option (JsObj string) :=
  match keys with
  | [] => Some params
  | key :: keys' =>
      match caps with
      | Some value :: caps' =>
          match decodeURIComponent value with
          | Some d => collect_params keys' caps' (obj_set key d params)
          | None => None
          end
      | None :: caps' => collect_params keys' caps' params
      | [] => collect_params keys' [] params
      end
  end.

Record PathMatcher : Type := {
  raw : string;
  pieces : list Piece;
  keys : list string;
  always : bool
}.

(** [buildMatcher(path)] *)
Definition buildMatcher (path : string) : PathMatcher :=
  if String.eqb path "*" || String.eqb path "/*" then
    {| raw := path; pieces := []; keys := []; always := true |}
  else
    let '(ps, ks) := compile_segments (split_slash path) in
    (* an empty pattern text is replaced by a single slash *)
    let ps := match ps with [] => [PLit ""] | _ :: _ => ps end in
    {| raw := path; pieces := ps; keys := ks; always := false |}.

(** [matcher.match(incoming)] *)
Definition match_path (m : PathMatcher) (incoming : string) : MatchResult :=
  if always m then MatchParams [("wild", strip_leading_slash incoming)]
  else
    match match_pieces (pieces m) (if String.eqb incoming "" then "/" else incoming) with
    | None => MatchNull
    | Some caps =>
        match collect_params (keys m) caps [] with
        | Some params => MatchParams params
        | None => MatchThrows
        end
    end.

(** [matchesPrefix(base, path)] *)
Definition matchesPrefix (base path : string) : bool :=
  if String.eqb base "/" || String.eqb base "" then true
  else
    let base := if startsWith base "/" then base else "/" +:+ base in
    String.eqb path base || startsWith path (base +:+ "/").

End Matcher.
Import Matcher.

(* ===================================================================== *)
(** * Socket multipart codec *)
(* ===================================================================== *)

Module Base64.

(** The base64 text of [Buffer.toString('base64')] and [btoa], and the
    lenient decoding of [Buffer.from(text, 'base64')]: decoding reads up to
    the first padding character, accepts the URL-safe spellings of 62 and
    63, and passes over characters outside the alphabet. *)

Definition sextet_char (n : nat) : ascii :=
  if (n <? 26)%nat then ascii_of_nat (65 + n)
  else if (n <? 52)%nat then ascii_of_nat (97 + (n - 26))
  else if (n <? 62)%nat then ascii_of_nat (48 + (n - 52))
  else if (n =? 62)%nat then "+"%char
  else "/"%char.

Definition char_sextet (c : ascii) : option nat :=
  let n := nat_of_ascii c in
  if (65 <=? n)%nat && (n <=? 90)%nat then Some (n - 65)%nat
  else if (97 <=? n)%nat && (n <=? 122)%nat then Some (n - 97 + 26)%nat
  else if (48 <=? n)%nat && (n <=? 57)%nat then Some (n - 48 + 52)%nat
  else if (n =? 43)%nat || (n =? 45)%nat then Some 62%nat
  else if (n =? 47)%nat || (n =? 95)%nat then Some 63%nat
  else None.

Definition byte_of_nat (n : nat) : Byte.byte :=
  match Byte.of_nat (n mod 256) with
  | Some b => b
  | None => Byte.x00
  end.

Fixpoint encode (bytes : list Byte.byte) : string :=
  match bytes with
  | [] => EmptyString
  | [a] =>
      let x := Byte.to_nat a in
      String (sextet_char (x / 4))
        (String (sextet_char (x mod 4 * 16)) "==")
  | [a; b] =>
      let x := Byte.to_nat a in
      let y := Byte.to_nat b in
      String (sextet_char (x / 4))
        (String (sextet_char (x mod 4 * 16 + y / 16))
           (String (sextet_char (y mod 16 * 4)) "="))
  | a :: b :: c :: r =>
      let x := Byte.to_nat a in
      let y := Byte.to_nat b in
      let z := Byte.to_nat c in
      String (sextet_char (x / 4))
        (String (sextet_char (x mod 4 * 16 + y / 16))
           (String (sextet_char (y mod 16 * 4 + z / 64))
              (String (sextet_char (z mod 64)) (encode r))))
  end.

Fixpoint sextets (s : string) : list nat :=
  match s with
  | EmptyString => []
  | String c r =>
      if Ascii.eqb c "=" then []
      else match char_sextet c with
           | Some n => n :: sextets r
           | None => sextets r
           end
  end.

Fixpoint bytes_of_sextets (l : list nat) : list Byte.byte :=
  match l with
  | p :: q :: u :: v :: r =>
      byte_of_nat (p * 4 + q / 16)
        :: byte_of_nat (q mod 16 * 16 + u / 4)
        :: byte_of_nat (u mod 4 * 64 + v)
        :: bytes_of_sextets r
  | [p; q; u] =>
      [byte_of_nat (p * 4 + q / 16); byte_of_nat (q mod 16 * 16 + u / 4)]
  | [p; q] => [byte_of_nat (p * 4 + q / 16)]
  | _ => []
  end.

Definition decode (s : string) : list Byte.byte := bytes_of_sextets (sextets s).

End Base64.

Module Codec.

(** A value of a form field: a string, or an array of strings once the key
    was repeated. *)
Inductive FieldValue : Type :=
| FieldStr (s : string)
| FieldArr (ss : list string).

(** [if (v)] on a field value: an array is always truthy. *)
Definition field_truthy (v : FieldValue) : bool :=
  match v with
  | FieldStr s => negb (String.eqb s "")
  | FieldArr _ => true
  end.

Record SerializedSocketFile : Type := {
  sf_fieldName : option string;
  sf_name : option string;
  sf_type : option string;
  sf_size : option Z;
  sf_data : JsVal;
  sf_lastModified : option Z
}.

Record SocketFormDataEnvelope : Type := {
  env_fields : option (JsObj FieldValue);
  env_files : option (JsObj (list SerializedSocketFile))
}.

Record SockressUploadedFile : Type := {
  fieldName : string;
  name : string;
  type : string;
  size : Z;
  buffer : list Byte.byte;
  lastModified : option Z
}.

(** The body of an inbound envelope as [normalizeBodyPayload] tells it
    apart: an object whose [__formData] property is an object or [null]
    ([BodyForm], [None] for [null]), or any other value. *)
Inductive WireBody : Type :=
| BodyForm (form : option SocketFormDataEnvelope)
| BodyValue (v : JsVal).

(** [req.body] after normalization. *)
Inductive RequestBody : Type :=
| BodyFields (fields : JsObj FieldValue)
| BodyRaw (v : JsVal).

Record NormalizedBodyPayload : Type := {
  body : RequestBody;
  files : option (JsObj (list SockressUploadedFile))
}.

(** The [filter] and [map] of [convertSerializedFiles] on one entry. *)
Definition convert_entry (field : string) (entry : SerializedSocketFile)
    : option SockressUploadedFile :=
  match sf_data entry with
  | VStr data =>
      let bytes := Base64.decode data in
      Some {| fieldName := field;
              name := nullish (sf_name entry) "file";
              type := nullish (sf_type entry) "application/octet-stream";
              size := nullish (sf_size entry) (Z.of_nat (length bytes));
              buffer := bytes;
              lastModified := sf_lastModified entry |}
  | _ => None
  end.

Fixpoint filter_map {A B : Type} (f : A -> option B) (l : list A) : list B :=
  match l with
  | [] => []
  | x :: r => match f x with Some y => y :: filter_map f r | None => filter_map f r end
  end.

(** [convertSerializedFiles(serialized)] *)
Definition convertSerializedFiles (serialized : JsObj (list SerializedSocketFile))
    : JsObj (list SockressUploadedFile) :=
  fold_left
    (fun files fe => obj_set (fst fe) (filter_map (convert_entry (fst fe)) (snd fe)) files)
    serialized [].

(** [normalizeBodyPayload(value)] *)
Definition normalizeBodyPayload (value : WireBody) : NormalizedBodyPayload :=
  match value with
  | BodyForm form =>
      let form := nullish form {| env_fields := None; env_files := None |} in
      let files := convertSerializedFiles (nullish (env_files form) []) in
      let fields := nullish (env_fields form) [] in
      {| body := BodyFields fields;
         files := match obj_keys files with [] => None | _ :: _ => Some files end |}
  | BodyValue v =>
      {| body := BodyRaw (match v with VUndefined => VObject [] | _ => v end);
         files := None |}
  end.

(** [pickPrimaryFile(files)] *)
Definition pickPrimaryFile (files : option (JsObj (list SockressUploadedFile)))
    : option SockressUploadedFile :=
  match files with
  | None => None
  | Some files =>
      match obj_keys files with
      | [] => None
      | firstKey :: _ =>
          if String.eqb firstKey "" then None
          else match obj_get firstKey files with
               | Some (f :: _) => Some f
               | _ => None
               end
      end
  end.

End Codec.
Import Codec.

(* ===================================================================== *)
(** * Registry and dispatch engine *)
(* ===================================================================== *)

Module Pipeline.

(** What a handler does once called: a finite program over the response
    API, the continuation and [throw]. Every terminating run of a handler is
    such a program; [PIfSent] lets it consult [res.isSent()]. *)
Inductive Prog : Type :=
| PReturn
| PThrow (e : JsVal)
| PStatus (code : Z) (k : Prog)
| PSet (field value : string) (k : Prog)
| PCookie (serialized : string) (k : Prog)
| PSend (payload : JsVal) (k : Prog)
| PJson (payload : JsVal) (k : Prog)
| PSetParams (params : JsObj string) (k : Prog)
| PNext (err : JsVal) (k : Prog)
| PIfSent (kt kf : Prog).

(** A handler function: its declared number of parameters and what it does
    when called as [(req, res, next)] ([None]) or as
    [(err, req, res, next)] ([Some err]). *)
Record HandlerFn : Type := {
  fn_length : nat;
  fn_call : option JsVal -> Prog
}.

Record MiddlewareLayer : Type := {
  mw_path : string;
  mw_handler : HandlerFn;
  mw_isErrorHandler : bool
}.

(** [method] is an HTTP method or ["ALL"]. *)
Record RouteLayer : Type := {
  rt_method : string;
  rt_matcher : PathMatcher;
  rt_handlers : list HandlerFn
}.

Record PipelineLayer : Type := {
  handler : HandlerFn;
  isErrorHandler : bool
}.

Record SocketOptions : Type := {
  socket_path : string;
  heartbeatInterval : Z;
  idleTimeout : Z
}.

Record NormalizedOptions : Type := {
  opt_cors : CorsOptions;
  opt_socket : SocketOptions;
  bodyLimit : Z
}.

Record SockressApp : Type := {
  middlewares : list MiddlewareLayer;
  routes : list RouteLayer;
  paramHandlers : gmap string HandlerFn;
  config : NormalizedOptions
}.

Inductive RequestKind : Type := KindHttp | KindSocket.

Record SockressRequest : Type := {
  req_id : string;
  req_method : string;
  req_path : string;
  req_body : RequestBody;
  req_files : option (JsObj (list SockressUploadedFile));
  req_file : option SockressUploadedFile;
  req_type : RequestKind;
  req_params : JsObj string
}.

Definition with_params (ps : JsObj string) (r : SockressRequest) : SockressRequest :=
  {| req_id := req_id r; req_method := req_method r; req_path := req_path r;
     req_body := req_body r; req_files := req_files r; req_file := req_file r;
     req_type := req_type r; req_params := ps |}.

(** ** Registration *)

Definition is_arity4 (h : HandlerFn) : bool := (fn_length h =? 4)%nat.

(** [app.use(path, ...handlers)] for handler functions. *)
Definition use (path : string) (handlers : list HandlerFn) (app : SockressApp) : SockressApp :=
  {| middlewares :=
       middlewares app ++
       map (fun h => {| mw_path := path; mw_handler := h; mw_isErrorHandler := is_arity4 h |})
           handlers;
     routes := routes app;
     paramHandlers := paramHandlers app;
     config := config app |}.

(** [app.register(method, path, handlers)], for a non-empty handler list. *)
Definition register (method path : string) (handlers : list HandlerFn)
    (app : SockressApp) : SockressApp :=
  {| middlewares := middlewares app;
     routes := routes app ++
       [{| rt_method := method; rt_matcher := buildMatcher path; rt_handlers := handlers |}];
     paramHandlers := paramHandlers app;
     config := config app |}.

(** ** Stack composition *)

(** The closures of [composeStack]: they restore [request.params] and then
    call the handler they wrap. *)
Definition wrap_param (params : JsObj string) (paramHandler : HandlerFn) : PipelineLayer :=
  {| handler := {| fn_length := 3;
                   fn_call := fun _ => PSetParams params (fn_call paramHandler None) |};
     isErrorHandler := false |}.

Definition wrap_route (params : JsObj string) (h : HandlerFn) : PipelineLayer :=
  if is_arity4 h then
    {| handler := {| fn_length := 4;
                     fn_call := fun a => PSetParams params (fn_call h a) |};
       isErrorHandler := true |}
  else
    {| handler := {| fn_length := 3;
                     fn_call := fun _ => PSetParams params (fn_call h None) |};
       isErrorHandler := false |}.

Definition param_layers (app : SockressApp) (params : JsObj string) : list PipelineLayer :=
  flat_map (fun kv => match paramHandlers app !! fst kv with
                      | Some ph => [wrap_param params ph]
                      | None => []
                      end) params.

Inductive Composed : Type :=
| ComposeThrows
| ComposeStack (stack : list PipelineLayer) (params : JsObj string).

(** The loop over the routes; [params] is the current [req.params]. *)
Fixpoint compose_routes (app : SockressApp) (method path : string)
    (rs : list RouteLayer) (stack : list PipelineLayer) (params : JsObj string) : Composed :=
  match rs with
  | [] => ComposeStack stack params
  | route :: rs' =>
      if negb (String.eqb (rt_method route) method) && negb (String.eqb (rt_method route) "ALL")
      then compose_routes app method path rs' stack params
      else
        match match_path (rt_matcher route) path with
        | MatchNull => compose_routes app method path rs' stack params
        | MatchThrows => ComposeThrows
        | MatchParams ps =>
            compose_routes app method path rs'
              (stack ++ param_layers app ps ++ map (wrap_route ps) (rt_handlers route)) ps
        end
  end.

(** [composeStack(req, method)] *)
Definition composeStack (app : SockressApp) (req : SockressRequest) : Composed :=
  let stack :=
    flat_map (fun layer =>
                if matchesPrefix (mw_path layer) (req_path req)
                then [{| handler := mw_handler layer; isErrorHandler := mw_isErrorHandler layer |}]
                else [])
             (middlewares app) in
  compose_routes app (req_method req) (req_path req) (routes app) stack (req_params req).

(** ** Dispatch *)

(** Instrumentation of a run, in the order things happen:
    - [EvInvoke i err]: the handler of layer [i] was called, [err] being the
      argument of [next] at that step;
    - [EvSkip i err]: layer [i] was passed over without being called;
    - [EvExhausted err wasSent]: [next(err)] found no layer left, [wasSent]
      telling whether a response had been sent by then;
    - [EvCaught e wasSent]: the [catch] block received the thrown [e]. *)
Inductive Event : Type :=
| EvInvoke (i : nat) (err : JsVal)
| EvSkip (i : nat) (err : JsVal)
| EvExhausted (err : JsVal) (wasSent : bool)
| EvCaught (e : JsVal) (wasSent : bool).

Record PipelineState : Type := {
  idx : nat;
  req : SockressRequest;
  res : SockressResponse;
  wire : list Emitted;
  trace : list Event
}.

Definition advance (st : PipelineState) : PipelineState :=
  {| idx := S (idx st); req := req st; res := res st; wire := wire st; trace := trace st |}.

Definition record (ev : Event) (st : PipelineState) : PipelineState :=
  {| idx := idx st; req := req st; res := res st; wire := wire st;
     trace := trace st ++ [ev] |}.

Definition on_res (f : SockressResponse -> SockressResponse) (st : PipelineState)
    : PipelineState :=
  {| idx := idx st; req := req st; res := f (res st); wire := wire st; trace := trace st |}.

Definition write (f : SockressResponse -> SockressResponse * list Emitted)
    (st : PipelineState) : PipelineState :=
  {| idx := idx st; req := req st; res := fst (f (res st));
     wire := wire st ++ snd (f (res st)); trace := trace st |}.

Definition set_params (ps : JsObj string) (st : PipelineState) : PipelineState :=
  {| idx := idx st; req := with_params ps (req st); res := res st; wire := wire st;
     trace := trace st |}.

(** [err instanceof Error ? err.message : err] *)
Definition error_details (err : JsVal) : JsVal :=
  match err with VError m => VStr m | _ => err end.

Definition error_body (err : JsVal) : JsVal :=
  VObject [("error", VStr "Internal Server Error"); ("details", error_details err)].

Definition not_found_body : JsVal := VObject [("error", VStr "Not Found")].

(** [renderError(err, req, res)] *)
Definition renderError (err : JsVal) (r : SockressResponse) : SockressResponse * list Emitted :=
  if isSent r then (r, [])
  else json (error_body err) (status 500 r).

(** [res.status(404).json({ error: 'Not Found' })] *)
Definition respond_not_found (r : SockressResponse) : SockressResponse * list Emitted :=
  json not_found_body (status 404 r).

(** The branch of [next] taken when no layer is left. *)
Definition exhausted (err : JsVal) (st : PipelineState) : PipelineState :=
  let st' := record (EvExhausted err (isSent (res st))) st in
  if truthy err then write (renderError err) st'
  else if negb (isSent (res st)) then write respond_not_found st'
  else st'.

Section Engine.
Variable stack : list PipelineLayer.

(** A handler body running in the [try] block of the frame that called
    it; [nxt] is the continuation it was given. *)
Fixpoint exec (nxt : JsVal -> PipelineState -> option PipelineState)
    (p : Prog) (st : PipelineState) : option PipelineState :=
  match p with
  | PReturn => Some st
  | PThrow e => nxt e (record (EvCaught e (isSent (res st))) st)
  | PStatus code k => exec nxt k (on_res (status code) st)
  | PSet f v k => exec nxt k (on_res (set f v) st)
  | PCookie c k => exec nxt k (on_res (cookie c) st)
  | PSend v k => exec nxt k (write (send v) st)
  | PJson v k => exec nxt k (write (json v) st)
  | PSetParams ps k => exec nxt k (set_params ps st)
  | PNext e k =>
      match nxt e st with
      | Some st' => exec nxt k st'
      | None => None
      end
  | PIfSent kt kf => if isSent (res st) then exec nxt kt st else exec nxt kf st
  end.

(** The closure [next] of [runPipeline]. [fuel] bounds the number of
    layers still to be taken; [None] means it ran out. *)
Fixpoint next (fuel : nat) (err : JsVal) (st : PipelineState) : option PipelineState :=
  let i := idx st in
  let st := advance st in
  match nth_error stack i with
  | None => Some (exhausted err st)
  | Some layer =>
      match fuel with
      | O => None
      | S fuel' =>
          if truthy err then
            if isErrorHandler layer
            then exec (next fuel') (fn_call (handler layer) (Some err))
                      (record (EvInvoke i err) st)
            else next fuel' err (record (EvSkip i err) st)
          else
            if isErrorHandler layer
            then next fuel' VUndefined (record (EvSkip i err) st)
            else exec (next fuel') (fn_call (handler layer) None)
                      (record (EvInvoke i err) st)
      end
  end.
End Engine.

Definition initial_state (req : SockressRequest) (res : SockressResponse) : PipelineState :=
  {| idx := 0; req := req; res := res; wire := []; trace := [] |}.

Inductive PipelineResult : Type :=
| Rejected (message : string)
| Settled (st : PipelineState)
| OutOfFuel.

(** [runPipeline(req, res)] *)
Definition runPipeline (app : SockressApp) (req : SockressRequest) (res : SockressResponse)
    : PipelineResult :=
  match composeStack app req with
  | ComposeThrows => Rejected "URI malformed"
  | ComposeStack stack params =>
      match next stack (length stack) VUndefined
                 (initial_state (with_params params req) res) with
      | Some st => Settled st
      | None => OutOfFuel
      end
  end.

End Pipeline.
Import Pipeline.

(* ===================================================================== *)
(** * Server transport adapter *)
(* ===================================================================== *)

Module Server.

Fixpoint includes (l : list string) (x : string) : bool :=
  match l with
  | [] => false
  | y :: r => String.eqb y x || includes r x
  end.

(** [!s] for an optional string: absent or empty. *)
Definition falsy_string (s : option string) : bool :=
  match s with
  | None => true
  | Some v => String.eqb v ""
  end.

(** [a || d] *)
Definition or_default (a : option string) (d : string) : string :=
  match a with
  | Some v => if String.eqb v "" then d else v
  | None => d
  end.

(** [isOriginAllowed(originHeader, allowed)] *)
Definition isOriginAllowed (originHeader : option string) (allowed : AllowedOrigin) : bool :=
  match originHeader, allowed with
  | None, _ => true
  | Some o, OriginOne a =>
      if String.eqb o "" || String.eqb a "*" then true else String.eqb a o
  | Some o, OriginMany l =>
      if String.eqb o "" then true else includes l o
  end.

(** [pickOrigin(requestOrigin, allowed)] *)
Definition pickOrigin (requestOrigin : option string) (allowed : AllowedOrigin) : string :=
  match allowed with
  | OriginOne a => a
  | OriginMany l =>
      match requestOrigin with
      | Some o =>
          if negb (String.eqb o "") && includes l o then o
          else nullish (head l) "*"
      | None => nullish (head l) "*"
      end
  end.

(** What the [upgrade] listener does with a handshake. *)
Inductive UpgradeOutcome : Type :=
| DestroyedForPath
| DestroyedForOrigin
| UpgradeAccepted.

(** The [upgrade] listener installed by [listen], given the path name of the
    request URL and its [Origin] header. *)
Definition on_upgrade (app : SockressApp) (pathname : string) (originHeader : option string)
    : UpgradeOutcome :=
  if negb (String.eqb pathname (socket_path (opt_socket (config app)))) then DestroyedForPath
  else if negb (isOriginAllowed originHeader (origin (opt_cors (config app))))
  then DestroyedForOrigin
  else UpgradeAccepted.

Record IncomingSocketMessage : Type := {
  in_type : option string;
  in_id : option string;
  in_method : option string;
  in_path : option string;
  in_body : WireBody
}.

(** A received frame: one whose reading throws ([JSON.parse] rejects the
    text, or the value is not an object), with the message of the error, or
    the parsed envelope. *)
Inductive SocketFrame : Type :=
| FrameInvalid (message : string)
| FrameEnvelope (payload : IncomingSocketMessage).

Definition upper_ascii (c : ascii) : ascii :=
  let n := nat_of_ascii c in
  if (97 <=? n)%nat && (n <=? 122)%nat then ascii_of_nat (n - 32) else c.

Fixpoint toUpperCase (s : string) : string :=
  match s with
  | EmptyString => EmptyString
  | String c r => String (upper_ascii c) (toUpperCase r)
  end.

Definition error_envelope (message : string) : OutgoingSocketMessage :=
  {| msg_type := MsgError; msg_id := None; msg_status := None; msg_headers := None;
     msg_body := VUndefined; msg_message := Some message; msg_cookies := None |}.

(** The request [handleSocket] builds from an envelope; [nanoid] is the id
    the generator returns when it is called. *)
Definition socket_request (payload : IncomingSocketMessage) (nanoid : string) : SockressRequest :=
  let normalizedPayload := normalizeBodyPayload (in_body payload) in
  {| req_id := nullish (in_id payload) nanoid;
     req_method := toUpperCase (or_default (in_method payload) "GET");
     req_path := or_default (in_path payload) "/";
     req_body := body normalizedPayload;
     req_files := files normalizedPayload;
     req_file := pickPrimaryFile (files normalizedPayload);
     req_type := KindSocket;
     req_params := [] |}.

(** The [message] listener of [handleSocket]: everything sent on the socket
    in answer to one frame. *)
Definition on_message (app : SockressApp) (originHeader : option string) (nanoid : string)
    (frame : SocketFrame) : list Emitted :=
  match frame with
  | FrameInvalid message => [EmitSocket (error_envelope message)]
  | FrameEnvelope payload =>
      match in_type payload with
      | Some "request" =>
          let sockressReq := socket_request payload nanoid in
          let origin := pickOrigin originHeader (origin (opt_cors (config app))) in
          let sockressRes :=
            create (ModeSocket (req_id sockressReq)) (opt_cors (config app)) origin in
          match runPipeline app sockressReq sockressRes with
          | Settled st => wire st
          | Rejected message => [EmitSocket (error_envelope message)]
          | OutOfFuel => []
          end
      | _ => [EmitSocket (error_envelope "Unsupported message type")]
      end
  end.

End Server.
Import Server.

(* ===================================================================== *)
(** * Client transport controller *)
(* ===================================================================== *)

Module Client.

(** ** Multipart serialization *)

Record FormFile : Type := {
  file_name : option string;
  file_type : option string;
  file_size : Z;
  file_lastModified : option Z;
  file_bytes : list Byte.byte
}.

Inductive FormEntry : Type :=
| EntryString (s : string)
| EntryFile (f : FormFile).

Definition FormData : Type := list (string * FormEntry).

Definition serialize_file (key : string) (value : FormFile) : SerializedSocketFile :=
  {| sf_fieldName := Some key;
     sf_name := Some (nullish (file_name value) "file");
     sf_type := Some (nullish (file_type value) "application/octet-stream");
     sf_size := Some (file_size value);
     sf_data := VStr (Base64.encode (file_bytes value));
     sf_lastModified := file_lastModified value |}.

(** One iteration of the loop of [serializeFormData]. *)
Definition serialize_entry
    (acc : JsObj FieldValue * JsObj (list SerializedSocketFile))
    (entry : string * FormEntry) : JsObj FieldValue * JsObj (list SerializedSocketFile) :=
  let '(fields, files) := acc in
  let key := fst entry in
  match snd entry with
  | EntryString value =>
      match obj_get key fields with
      | Some existing =>
          if field_truthy existing then
            match existing with
            | FieldArr vs => (obj_set key (FieldArr (vs ++ [value])) fields, files)
            | FieldStr v => (obj_set key (FieldArr [v; value]) fields, files)
            end
          else (obj_set key (FieldStr value) fields, files)
      | None => (obj_set key (FieldStr value) fields, files)
      end
  | EntryFile value =>
      let current := nullish (obj_get key files) [] in
      (fields, obj_set key (current ++ [serialize_file key value]) files)
  end.

(** [serializeFormData(formData)] *)
Definition serializeFormData (formData : FormData)
    : JsObj FieldValue * JsObj (list SerializedSocketFile) :=
  fold_left serialize_entry formData ([], []).

(** A request body on the client. *)
Inductive ClientBody : Type :=
| BodyFormData (formData : FormData)
| BodyOther (v : JsVal).

(** [serializeBodyForSocket(body)], as the server reads it back from the
    JSON text of the envelope. *)
Definition serializeBodyForSocket (b : ClientBody) : WireBody :=
  match b with
  | BodyFormData formData =>
      let '(fields, files) := serializeFormData formData in
      BodyForm (Some {| env_fields := Some fields; env_files := Some files |})
  | BodyOther v => BodyValue v
  end.

(** ** Transport selection *)

(** What the socket factory does when it is called. *)
Inductive FactoryResult : Type :=
| FactoryThrows (message : string)
| FactorySocket (readyState : Z).

(** ** The HTTP transport *)

(** The body handed to [fetch]: a string or a form as it is, anything else
    as its JSON text. *)
Inductive FetchBody : Type :=
| FetchText (s : string)
| FetchForm (formData : FormData)
| FetchJson (v : JsVal).

(** The arguments of [fetchImpl(url, init)]: the URL as its base, path and
    appended search parameters, and the fields of [init]. *)
Record FetchInit : Type := {
  fi_base : string;
  fi_path : string;
  fi_search : list (string * string);
  fi_method : string;
  fi_headers : JsObj string;
  fi_body : option FetchBody
}.

(** What [fetch] answers: status, [ok], headers, the text of the body and
    what [JSON.parse] makes of that text ([None] when it throws). *)
Record FetchResponse : Type := {
  fr_status : Z;
  fr_ok : bool;
  fr_headers : list (string * string);
  fr_text : string;
  fr_json : option JsVal
}.

Inductive FetchOutcome : Type :=
| FetchRejects (message : string)
| FetchAnswers (response : FetchResponse).

Record ClientOptions : Type := {
  baseUrl : string;
  socketPath : string;
  default_headers : JsObj string;
  timeout : Z;
  reconnectInterval : Z;
  maxReconnectInterval : Z;
  autoConnect : bool;
  preferSocket : bool;
  fetchImpl : FetchInit -> FetchOutcome;
  wsFactory : option FactoryResult
}.

Record SocketRequestPayload : Type := {
  sp_id : string;
  sp_method : string;
  sp_path : string;
  sp_headers : JsObj string;
  sp_query : option (JsObj FieldValue);
  sp_body : WireBody
}.

Record WebSocketLike : Type := {
  readyState : Z;
  frames : list SocketRequestPayload
}.

Record SockressClientResponse : Type := {
  rsp_status : Z;
  rsp_ok : bool;
  rsp_headers : JsObj string;
  rsp_body : JsVal
}.

Inductive Settlement : Type :=
| Resolved (response : SockressClientResponse)
| RejectedWith (message : string).

Inductive ClientEvent : Type :=
| EmitOpen
| EmitClose
| EmitError
| EmitMessage.

(** A pending entry holds the delay of its timeout timer. *)
Record PendingRequest : Type := { pr_timeout : Z }.

(** The [Map] of pending requests: its entries in insertion order, which is
    the order [entries()] yields them in. [set] on a key that is present
    keeps its place, [delete] removes the entry. *)
Record PendingMap : Type := { entries : list (string * PendingRequest) }.

Fixpoint entries_get (id : string) (l : list (string * PendingRequest))
    : option PendingRequest :=
  match l with
  | [] => None
  | (k, v) :: r => if String.eqb id k then Some v else entries_get id r
  end.

Fixpoint entries_set (id : string) (p : PendingRequest) (l : list (string * PendingRequest))
    : list (string * PendingRequest) :=
  match l with
  | [] => [(id, p)]
  | (k, v) :: r => if String.eqb id k then (k, p) :: r else (k, v) :: entries_set id p r
  end.

Definition entries_delete (id : string) (l : list (string * PendingRequest))
    : list (string * PendingRequest) :=
  List.filter (fun kv => negb (String.eqb id (fst kv))) l.

#[global] Instance pending_lookup : Lookup string PendingRequest PendingMap :=
  fun id m => entries_get id (entries m).

#[global] Instance pending_empty : Empty PendingMap := {| entries := [] |}.

#[global] Instance pending_insert : Insert string PendingRequest PendingMap :=
  fun id p m => {| entries := entries_set id p (entries m) |}.

#[global] Instance pending_delete : Delete string PendingMap :=
  fun id m => {| entries := entries_delete id (entries m) |}.

#[global] Instance pending_singleton : SingletonM string PendingRequest PendingMap :=
  fun id p => {| entries := [(id, p)] |}.

(** The controller. [reconnects] lists the delays of the reconnect timers
    set so far, [settled] the promises resolved or rejected so far, and
    [events] what was emitted to listeners. *)
Record SockressClient : Type := {
  options : ClientOptions;
  ws : option WebSocketLike;
  reconnectAttempts : Z;
  pending : PendingMap;
  queue : list SocketRequestPayload;
  socketEnabled : bool;
  closeRequested : bool;
  reconnects : list Z;
  settled : list (string * Settlement);
  events : list ClientEvent
}.

Definition emit (ev : ClientEvent) (c : SockressClient) : SockressClient :=
  {| options := options c; ws := ws c; reconnectAttempts := reconnectAttempts c;
     pending := pending c; queue := queue c; socketEnabled := socketEnabled c;
     closeRequested := closeRequested c; reconnects := reconnects c;
     settled := settled c; events := events c ++ [ev] |}.

(** [rejectAllPending(error)]: every entry is cleared and its promise
    rejected, in the order of the entries. *)
Definition rejectAllPending (message : string) (c : SockressClient) : SockressClient :=
  {| options := options c; ws := ws c; reconnectAttempts := reconnectAttempts c;
     pending := ∅; queue := queue c; socketEnabled := socketEnabled c;
     closeRequested := closeRequested c; reconnects := reconnects c;
     settled := settled c ++
                map (fun kv => (fst kv, RejectedWith message)) (entries (pending c));
     events := events c |}.

(** [scheduleReconnect()] *)
Definition scheduleReconnect (c : SockressClient) : SockressClient :=
  if negb (socketEnabled c) || negb (bool_decide (is_Some (wsFactory (options c)))) then c
  else
    let attempts := (reconnectAttempts c + 1)%Z in
    let delay := Z.min (reconnectInterval (options c) * attempts)
                       (maxReconnectInterval (options c)) in
    {| options := options c; ws := ws c; reconnectAttempts := attempts;
       pending := pending c; queue := queue c; socketEnabled := socketEnabled c;
       closeRequested := closeRequested c; reconnects := reconnects c ++ [delay];
       settled := settled c; events := events c |}.

(** [flushQueue()] *)
Definition flushQueue (c : SockressClient) : SockressClient :=
  match ws c with
  | Some sock =>
      if Z.eqb (readyState sock) 1 then
        {| options := options c;
           ws := Some {| readyState := readyState sock; frames := frames sock ++ queue c |};
           reconnectAttempts := reconnectAttempts c;
           pending := pending c; queue := []; socketEnabled := socketEnabled c;
           closeRequested := closeRequested c; reconnects := reconnects c;
           settled := settled c; events := events c |}
      else c
  | None => c
  end.

Definition reset_attempts (c : SockressClient) : SockressClient :=
  {| options := options c; ws := ws c; reconnectAttempts := 0;
     pending := pending c; queue := queue c; socketEnabled := socketEnabled c;
     closeRequested := closeRequested c; reconnects := reconnects c;
     settled := settled c; events := events c |}.

(** The listeners of [attachSocketHandlers]. *)
Definition handleOpen (c : SockressClient) : SockressClient :=
  flushQueue (emit EmitOpen (reset_attempts c)).

Definition handleError (c : SockressClient) : SockressClient :=
  rejectAllPending "Socket error" (emit EmitError c).

Definition handleClose (c : SockressClient) : SockressClient :=
  scheduleReconnect (rejectAllPending "Socket closed" (emit EmitClose c)).

(** A transport-level event on the socket. *)
Inductive SocketEvent : Type := OnOpen | OnError | OnClose.

Definition on_event (ev : SocketEvent) (c : SockressClient) : SockressClient :=
  match ev with
  | OnOpen => handleOpen c
  | OnError => handleError c
  | OnClose => handleClose c
  end.

(** [clearPending(id)] *)
Definition clearPending (id : string) (c : SockressClient) : SockressClient :=
  {| options := options c; ws := ws c; reconnectAttempts := reconnectAttempts c;
     pending := delete id (pending c); queue := queue c; socketEnabled := socketEnabled c;
     closeRequested := closeRequested c; reconnects := reconnects c;
     settled := settled c; events := events c |}.

Definition settle (id : string) (s : Settlement) (c : SockressClient) : SockressClient :=
  {| options := options c; ws := ws c; reconnectAttempts := reconnectAttempts c;
     pending := pending c; queue := queue c; socketEnabled := socketEnabled c;
     closeRequested := closeRequested c; reconnects := reconnects c;
     settled := settled c ++ [(id, s)]; events := events c |}.

(** The timeout timer of a pending entry fires; a cleared timer does not. *)
Definition on_timeout (id : string) (c : SockressClient) : SockressClient :=
  match pending c !! id with
  | Some _ => settle id (RejectedWith "Socket request timed out") (clearPending id c)
  | None => c
  end.

(** An envelope received by the client. *)
Record InboundEnvelope : Type := {
  ie_type : option string;
  ie_id : option string;
  ie_status : Z;
  ie_headers : option (JsObj string);
  ie_body : JsVal;
  ie_message : string
}.

(** [createClientResponse(payload)] *)
Definition createClientResponse (payload : InboundEnvelope) : SockressClientResponse :=
  {| rsp_status := ie_status payload;
     rsp_ok := (200 <=? ie_status payload)%Z && (ie_status payload <? 300)%Z;
     rsp_headers := nullish (ie_headers payload) [];
     rsp_body := ie_body payload |}.

Definition push_types : list string :=
  ["message"; "join"; "leave"; "room_created"; "room_deleted"; "error"].

(** [pending.get(id)] for an optional id. *)
Definition pending_get (id : option string) (c : SockressClient) : option PendingRequest :=
  match id with
  | Some i => pending c !! i
  | None => None
  end.

(** [handleSocketMessage(raw)] on a parsed envelope. *)
Definition handleSocketMessage (payload : InboundEnvelope) (c : SockressClient) : SockressClient :=
  if negb (falsy_string (ie_type payload)) && falsy_string (ie_id payload)
     && includes push_types (nullish (ie_type payload) "")
  then emit EmitMessage c
  else
    match ie_type payload with
    | Some "error" =>
        match (if falsy_string (ie_id payload) then None else pending_get (ie_id payload) c),
              ie_id payload with
        | Some _, Some id => settle id (RejectedWith (ie_message payload)) (clearPending id c)
        | _, _ => emit EmitError c
        end
    | _ =>
        match pending_get (ie_id payload) c, ie_id payload with
        | Some _, Some id =>
            settle id (Resolved (createClientResponse payload)) (clearPending id c)
        | _, _ => c
        end
    end.

(** The envelope a client reads from a message the server sent. *)
Definition received (m : OutgoingSocketMessage) : InboundEnvelope :=
  {| ie_type := Some (match msg_type m with MsgResponse => "response" | MsgError => "error" end);
     ie_id := msg_id m;
     ie_status := nullish (msg_status m) 0%Z;
     ie_headers := msg_headers m;
     ie_body := msg_body m;
     ie_message := nullish (msg_message m) "" |}.

(** [canUseSocket()] *)
Definition canUseSocket (c : SockressClient) : bool :=
  bool_decide (is_Some (wsFactory (options c))) && socketEnabled c &&
  match ws c with
  | Some sock => Z.eqb (readyState sock) 1
  | None => false
  end.

Definition disable_socket (c : SockressClient) : SockressClient :=
  {| options := options c; ws := ws c; reconnectAttempts := reconnectAttempts c;
     pending := pending c; queue := queue c; socketEnabled := false;
     closeRequested := closeRequested c; reconnects := reconnects c;
     settled := settled c; events := events c |}.

Definition with_ws (w : option WebSocketLike) (c : SockressClient) : SockressClient :=
  {| options := options c; ws := w; reconnectAttempts := reconnectAttempts c;
     pending := pending c; queue := queue c; socketEnabled := socketEnabled c;
     closeRequested := closeRequested c; reconnects := reconnects c;
     settled := settled c; events := events c |}.

(** [connect()]: the controller afterwards and the error it rejects with,
    if any. *)
Definition connect (c : SockressClient) : SockressClient * option string :=
  match wsFactory (options c) with
  | None => (disable_socket c, None)
  | Some made =>
      match ws c with
      | Some sock =>
          if Z.eqb (readyState sock) 1 then (c, None)
          else match made with
               | FactoryThrows message => (c, Some message)
               | FactorySocket rs => (with_ws (Some {| readyState := rs; frames := [] |}) c, None)
               end
      | None =>
          match made with
          | FactoryThrows message => (c, Some message)
          | FactorySocket rs => (with_ws (Some {| readyState := rs; frames := [] |}) c, None)
          end
      end
  end.

Inductive Scalar : Type :=
| SStr (s : string)
| SNum (z : Z)
| SBool (b : bool).

Inductive QueryValue : Type :=
| QueryOne (v : Scalar)
| QueryMany (vs : list Scalar).

(** [String(v)] *)
Definition string_of_scalar (v : Scalar) : string :=
  match v with
  | SStr s => s
  | SNum z => pretty z
  | SBool b => string_of_bool b
  end.

(** [normalizeQuery(query)] *)
Definition normalizeQuery (query : JsObj QueryValue) : JsObj FieldValue :=
  fold_left
    (fun result kv =>
       obj_set (fst kv)
               (match snd kv with
                | QueryOne v => FieldStr (string_of_scalar v)
                | QueryMany vs => FieldArr (map string_of_scalar vs)
                end) result)
    query [].

(** [normalizePath(path)] *)
Definition normalizePath (path : string) : string :=
  if startsWith path "/" then path else "/" +:+ path.

(** The object spread [{...a, ...b}]. *)
Definition spread (a b : JsObj string) : JsObj string :=
  fold_left (fun o kv => obj_set (fst kv) (snd kv) o) (a ++ b) [].

Record SockressClientRequest : Type := {
  rq_path : string;
  rq_method : option string;
  rq_headers : option (JsObj string);
  rq_query : option (JsObj QueryValue);
  rq_body : ClientBody;
  rq_timeout : option Z;
  rq_disableHttpFallback : bool
}.

(** The logical request both transports are given. *)
Record TransportInput : Type := {
  ti_method : string;
  ti_path : string;
  ti_headers : JsObj string;
  ti_query : option (JsObj FieldValue);
  ti_body : ClientBody
}.

(** The first lines of [request]. *)
Definition transport_input (c : SockressClient) (o : SockressClientRequest) : TransportInput :=
  {| ti_method := toUpperCase (or_default (rq_method o) "GET");
     ti_path := normalizePath (rq_path o);
     ti_headers := spread (default_headers (options c)) (nullish (rq_headers o) []);
     ti_query := option_map normalizeQuery (rq_query o);
     ti_body := rq_body o |}.

Definition socket_payload (id : string) (input : TransportInput) : SocketRequestPayload :=
  {| sp_id := id;
     sp_method := ti_method input;
     sp_path := ti_path input;
     sp_headers := ti_headers input;
     sp_query := ti_query input;
     sp_body := serializeBodyForSocket (ti_body input) |}.

Definition register_pending (id : string) (timeout : Z) (c : SockressClient) : SockressClient :=
  {| options := options c; ws := ws c; reconnectAttempts := reconnectAttempts c;
     pending := <[id := {| pr_timeout := timeout |}]> (pending c); queue := queue c;
     socketEnabled := socketEnabled c; closeRequested := closeRequested c;
     reconnects := reconnects c; settled := settled c; events := events c |}.

(** The [if (this.canUseSocket())] at the end of [sendViaSocket]. *)
Definition transmit (payload : SocketRequestPayload) (c : SockressClient) : SockressClient :=
  if canUseSocket c then
    match ws c with
    | Some sock =>
        with_ws (Some {| readyState := readyState sock; frames := frames sock ++ [payload] |}) c
    | None => c
    end
  else
    {| options := options c; ws := ws c; reconnectAttempts := reconnectAttempts c;
       pending := pending c; queue := queue c ++ [payload]; socketEnabled := socketEnabled c;
       closeRequested := closeRequested c; reconnects := reconnects c;
       settled := settled c; events := events c |}.

(** Where a socket attempt stands when [sendViaSocket] returns its promise:
    already rejected, or waiting for the entry [id] to be settled. *)
Inductive SocketAttempt : Type :=
| AttemptRejected (message : string)
| AttemptPending (id : string).

(** [sendViaSocket(input)]; [nanoid] is the id the generator returns. *)
Definition sendViaSocket (input : TransportInput) (timeout : Z) (nanoid : string)
    (c : SockressClient) : SockressClient * SocketAttempt :=
  match wsFactory (options c) with
  | None => (disable_socket c, AttemptRejected "Socket transport is unavailable")
  | Some _ =>
      match connect c with
      | (c1, Some message) => (c1, AttemptRejected message)
      | (c1, None) =>
          let payload := socket_payload nanoid input in
          (transmit payload (register_pending nanoid timeout c1), AttemptPending nanoid)
      end
  end.

(** Where [request] stands: waiting for the socket promise, calling
    [sendViaHttp] with an input, returning a socket response, or throwing. *)
Inductive RequestStep : Type :=
| AwaitSocket (id : string) (input : TransportInput)
| CallHttp (input : TransportInput)
| ReturnSocket (response : SockressClientResponse)
| ThrowError (message : string).

(** The [catch] block of [request] and the call after it. *)
Definition after_socket_failure (o : SockressClientRequest) (input : TransportInput)
    (message : string) : RequestStep :=
  if rq_disableHttpFallback o then ThrowError message else CallHttp input.

(** [request(options)] up to the point where it waits for the socket. *)
Definition request (o : SockressClientRequest) (nanoid : string) (c : SockressClient)
    : SockressClient * RequestStep :=
  let input := transport_input c o in
  let timeout := nullish (rq_timeout o) (timeout (options c)) in
  if preferSocket (options c) && socketEnabled c then
    match sendViaSocket input timeout nanoid c with
    | (c', AttemptPending id) => (c', AwaitSocket id input)
    | (c', AttemptRejected message) => (c', after_socket_failure o input message)
    end
  else (c, CallHttp input).

(** [request] resumed when the socket promise is settled. *)
Definition request_resume (o : SockressClientRequest) (input : TransportInput)
    (s : Settlement) : RequestStep :=
  match s with
  | Resolved response => ReturnSocket response
  | RejectedWith message => after_socket_failure o input message
  end.

Fixpoint contains (needle s : string) : bool :=
  match s with
  | EmptyString => String.eqb needle ""
  | String _ r => startsWith s needle || contains needle r
  end.

(** The part of [sendViaHttp] after [fetch] answered. *)
Definition sendViaHttp_response (r : FetchResponse) : SockressClientResponse :=
  let headersObj :=
    fold_left (fun o kv => obj_set (toLowerCase (fst kv)) (snd kv) o) (fr_headers r) [] in
  let contentType := nullish (obj_get "content-type" headersObj) "" in
  let parsed :=
    if contains "application/json" contentType && negb (String.eqb (fr_text r) "")
    then match fr_json r with Some v => v | None => VStr (fr_text r) end
    else VStr (fr_text r) in
  {| rsp_status := fr_status r; rsp_ok := fr_ok r; rsp_headers := headersObj;
     rsp_body := parsed |}.

(** The search parameters [buildHttpUrl] appends. *)
Definition search_params (query : option (JsObj FieldValue)) : list (string * string) :=
  flat_map (fun kv => match snd kv with
                      | FieldStr v => [(fst kv, v)]
                      | FieldArr vs => map (fun v => (fst kv, v)) vs
                      end)
           (nullish query []).

(** [headers.append(name, value)] on the list a [Headers] object holds, read
    as the map from lower-cased names to the value [get] returns: a name
    already present, whatever its case, has the new value joined to its
    value after a comma and a space. *)
Definition headers_append (o : JsObj string) (kv : string * string) : JsObj string :=
  let name := toLowerCase (fst kv) in
  match obj_get name o with
  | Some existing => obj_set name (existing +:+ ", " +:+ snd kv) o
  | None => obj_set name (snd kv) o
  end.

(** [new Headers(init)]: one [append] per entry, for a record of names and
    values the constructor takes as they are. It throws on a name that is
    not a token and on a value it refuses, and strips the white space around
    a value; [plain_header] below describes entries it neither refuses nor
    changes. *)
Definition new_headers (h : JsObj string) : JsObj string :=
  fold_left headers_append h [].

(** The part of [sendViaHttp] before [fetch] is called. A body is attached
    only when there is one and the method is neither GET nor HEAD. *)
Definition sendViaHttp_init (c : SockressClient) (input : TransportInput) : FetchInit :=
  let headers := new_headers (ti_headers input) in
  let with_body :=
    negb (String.eqb (ti_method input) "GET") && negb (String.eqb (ti_method input) "HEAD") in
  let '(headers, body) :=
    match ti_body input with
    | BodyOther VUndefined => (headers, None)
    | BodyOther (VStr text) => (headers, if with_body then Some (FetchText text) else None)
    | BodyFormData formData =>
        (headers, if with_body then Some (FetchForm formData) else None)
    | BodyOther v =>
        if with_body then
          (match obj_get "content-type" headers with
           | Some _ => headers
           | None => obj_set "content-type" "application/json" headers
           end, Some (FetchJson v))
        else (headers, None)
    end in
  {| fi_base := baseUrl (options c); fi_path := ti_path input;
     fi_search := search_params (ti_query input); fi_method := ti_method input;
     fi_headers := headers; fi_body := body |}.

(** How a call ends. *)
Inductive Completion : Type :=
| Returns (response : SockressClientResponse)
| Throws (message : string).

(** [sendViaHttp(input)] *)
Definition sendViaHttp (c : SockressClient) (input : TransportInput) : Completion :=
  match fetchImpl (options c) (sendViaHttp_init c input) with
  | FetchRejects message => Throws message
  | FetchAnswers response => Returns (sendViaHttp_response response)
  end.

(** How [request] ends from a given step; nothing yet while it waits for the
    socket. *)
Definition request_completion (c : SockressClient) (step : RequestStep) : option Completion :=
  match step with
  | AwaitSocket _ _ => None
  | CallHttp input => Some (sendViaHttp c input)
  | ReturnSocket response => Some (Returns response)
  | ThrowError message => Some (Throws message)
  end.

(** [close()] *)
Definition close (c : SockressClient) : SockressClient :=
  if closeRequested c then c
  else
    rejectAllPending "Client closed"
      {| options := options c; ws := None; reconnectAttempts := reconnectAttempts c;
         pending := pending c; queue := []; socketEnabled := false;
         closeRequested := true; reconnects := reconnects c;
         settled := settled c; events := events c |}.

End Client.
Import Client.

(* ===================================================================== *)
(** * Vocabulary of the statements *)
(* ===================================================================== *)

Module Spec.

(** ** Dispatch engine *)

(** The synthetic responses of the engine. *)
Definition is_not_found (x : Emitted) : Prop :=
  emitted_status x = 404%Z /\ emitted_payload x = not_found_body.

Definition is_server_error (err : JsVal) (x : Emitted) : Prop :=
  emitted_status x = 500%Z /\ emitted_payload x = error_body err.

Definition no_error_handlers (stack : list PipelineLayer) : Prop :=
  Forall (fun l => isErrorHandler l = false) stack.

(** No handler with four declared parameters was registered, as middleware
    or on a route. *)
Definition no_error_handler_registered (app : SockressApp) : Prop :=
  Forall (fun l => mw_isErrorHandler l = false) (middlewares app) /\
  Forall (fun r => Forall (fun h => is_arity4 h = false) (rt_handlers r)) (routes app).

(** Exactly as many items were written as the latch says. *)
Definition wire_ok (st : PipelineState) : Prop :=
  length (wire st) = if sent (res st) then 1%nat else 0%nat.

(** The mode never changes, and a socket message written by the response is
    a [response] envelope tagged with the request id of the mode. *)
Definition tagged_ok (m0 : RequestMode) (st : PipelineState) : Prop :=
  mode (res st) = m0 /\
  forall x m, In x (wire st) -> emitted_message x = Some m ->
              msg_type m = MsgResponse /\
              exists rid, m0 = ModeSocket rid /\ msg_id m = Some rid.

(** What an event of the trace tells about the stack and about what is on
    the wire [w]:
    - a layer is called exactly when its kind agrees with the pending error,
      and passed over exactly when it does not;
    - after an exhaustion on an unsent response the wire holds the synthetic
      response, a 500 for a pending error and a 404 otherwise;
    - with no error handler in the stack, after a truthy value was caught on
      an unsent response the wire holds the 500 that renders it. *)
Definition event_ok (stack : list PipelineLayer) (w : list Emitted) (ev : Event) : Prop :=
  match ev with
  | EvInvoke i err =>
      exists l, nth_error stack i = Some l /\ isErrorHandler l = truthy err
  | EvSkip i err =>
      exists l, nth_error stack i = Some l /\ isErrorHandler l = negb (truthy err)
  | EvExhausted e false =>
      exists x, w = [x] /\ if truthy e then is_server_error e x else is_not_found x
  | EvCaught e false =>
      no_error_handlers stack -> truthy e = true ->
      exists x, w = [x] /\ is_server_error e x
  | _ => True
  end.

(** The invariant of a run over [stack] whose response was created in mode
    [m0]. *)
Definition inv (stack : list PipelineLayer) (m0 : RequestMode) (st : PipelineState) : Prop :=
  wire_ok st /\ tagged_ok m0 st /\ Forall (event_ok stack (wire st)) (trace st).

(** A function that writes through the latch: it leaves the latch set and
    the mode as it was, writes nothing on a sent response and one item on an
    unsent one. *)
Definition writer (f : SockressResponse -> SockressResponse * list Emitted) : Prop :=
  forall r,
    sent (fst (f r)) = true /\ mode (fst (f r)) = mode r /\
    (sent r = true -> snd (f r) = []) /\
    (sent r = false ->
     exists x, snd (f r) = [x] /\
               forall m, emitted_message x = Some m ->
                         msg_type m = MsgResponse /\
                         exists rid, mode r = ModeSocket rid /\ msg_id m = Some rid).

(** The state after [n] consecutive layers were passed over, the first on
    [next(err)] and each one re-triggering [next(err')]. *)
Fixpoint skip_layers (n : nat) (err err' : JsVal) (st : PipelineState) : PipelineState :=
  match n with
  | O => st
  | S n' => skip_layers n' err' err' (record (EvSkip (idx st) err) (advance st))
  end.

(** ** Path matcher *)

Fixpoint all_chars (f : ascii -> bool) (s : string) : bool :=
  match s with
  | EmptyString => true
  | String c r => f c && all_chars f r
  end.

(** A pattern segment that [buildMatcher] treats as literal text: not empty,
    without a slash, not starting with a colon and not the single star. *)
Definition is_literal_segment (s : string) : bool :=
  match s with
  | EmptyString => false
  | String c r =>
      negb (Ascii.eqb c ":") && negb (String.eqb s "*") && all_chars not_slash s
  end.

(** The pattern spelled by a list of segments, each after a slash. *)
Fixpoint join_path (segs : list string) : string :=
  match segs with
  | [] => EmptyString
  | seg :: r => String slash seg +:+ join_path r
  end.

(** ** Codec *)

(** The uploaded file a [File] entry of a form stands for. *)
Definition uploaded (key : string) (f : FormFile) : SockressUploadedFile :=
  {| fieldName := key;
     name := nullish (file_name f) "file";
     type := nullish (file_type f) "application/octet-stream";
     size := file_size f;
     buffer := file_bytes f;
     lastModified := file_lastModified f |}.

(** Following the spec's words: the field map of a form, where repeated keys
    accumulate into arrays, preserving first-seen order. *)
Definition accumulate_field (fields : JsObj FieldValue) (entry : string * FormEntry)
    : JsObj FieldValue :=
  match snd entry with
  | EntryString value =>
      match obj_get (fst entry) fields with
      | Some (FieldArr vs) => obj_set (fst entry) (FieldArr (vs ++ [value])) fields
      | Some (FieldStr v) => obj_set (fst entry) (FieldArr [v; value]) fields
      | None => obj_set (fst entry) (FieldStr value) fields
      end
  | EntryFile _ => fields
  end.

Definition spec_field_map (formData : FormData) : JsObj FieldValue :=
  fold_left accumulate_field formData [].

(** What the server makes of a form sent over the socket. *)
Definition socket_roundtrip (formData : FormData) : NormalizedBodyPayload :=
  normalizeBodyPayload (serializeBodyForSocket (BodyFormData formData)).

(** A header [new Headers] takes as it is: a name of letters, digits,
    hyphens and underscores, and a value of printable ASCII characters that
    neither starts nor ends with a space. *)
Definition header_name_char (c : ascii) : bool :=
  let n := nat_of_ascii c in
  ((97 <=? n)%nat && (n <=? 122)%nat) || ((65 <=? n)%nat && (n <=? 90)%nat) ||
  ((48 <=? n)%nat && (n <=? 57)%nat) || (n =? 45)%nat || (n =? 95)%nat.

Definition header_value_char (c : ascii) : bool :=
  let n := nat_of_ascii c in (32 <=? n)%nat && (n <=? 126)%nat.

Fixpoint ends_with_space (s : string) : bool :=
  match s with
  | EmptyString => false
  | String c EmptyString => Ascii.eqb c " "
  | String _ r => ends_with_space r
  end.

Definition plain_header (kv : string * string) : bool :=
  negb (String.eqb (fst kv) "") && all_chars header_name_char (fst kv) &&
  all_chars header_value_char (snd kv) &&
  negb (startsWith (snd kv) " ") && negb (ends_with_space (snd kv)).

(** The request body a body handed to [fetch] carries; no body stands for
    [undefined]. *)
Definition carried (b : option FetchBody) : ClientBody :=
  match b with
  | None => BodyOther VUndefined
  | Some (FetchText text) => BodyOther (VStr text)
  | Some (FetchForm formData) => BodyFormData formData
  | Some (FetchJson v) => BodyOther v
  end.

(** ** Socket envelopes *)

(** The envelope with an id of its own. *)
Definition with_id (id : string) (payload : IncomingSocketMessage) : IncomingSocketMessage :=
  {| in_type := in_type payload; in_id := Some id; in_method := in_method payload;
     in_path := in_path payload; in_body := in_body payload |}.

(** ** Transports *)

(** The socket transport is only ever disabled by [close] or for want of a
    socket factory. *)
Definition client_wf (c : SockressClient) : Prop :=
  socketEnabled c = false ->
  closeRequested c = true \/ wsFactory (options c) = None.

(** The delay of the next reconnect timer: the minimum of the base interval
    times the next attempt number and the ceiling. *)
Definition backoff (c : SockressClient) : Z :=
  Z.min (reconnectInterval (options c) * (reconnectAttempts c + 1))
        (maxReconnectInterval (options c)).

(** The origin is on the configured allow-list. *)
Definition allow_listed (o : string) (allowed : AllowedOrigin) : Prop :=
  match allowed with
  | OriginOne a => a = "*" \/ a = o
  | OriginMany l => In o l
  end.

End Spec.
Import Spec.

(* ===================================================================== *)
(** * Scenarios *)
(* ===================================================================== *)

Module Scenarios.

(** [normalizeOptions()] without an argument. *)
Definition default_cors : CorsOptions :=
  {| origin := OriginOne "*";
     credentials := true;
     methods := ["GET"; "POST"; "PUT"; "PATCH"; "DELETE"; "OPTIONS"];
     allowedHeaders := ["Content-Type"; "Authorization"; "X-Requested-With"];
     exposedHeaders := [];
     maxAge := 600 |}.

Definition default_options : NormalizedOptions :=
  {| opt_cors := default_cors;
     opt_socket := {| socket_path := "/sockress"; heartbeatInterval := 30000;
                      idleTimeout := 120000 |};
     bodyLimit := 1000000 |}.

(** A fresh application. *)
Definition empty_app : SockressApp :=
  {| middlewares := []; routes := []; paramHandlers := ∅; config := default_options |}.

Definition get_request (path : string) : SockressRequest :=
  {| req_id := "r1"; req_method := "GET"; req_path := path;
     req_body := BodyRaw (VObject []); req_files := None; req_file := None;
     req_type := KindHttp; req_params := [] |}.

(** [(req, res, next) => { throw new Error('boom') }] *)
Definition throwing : HandlerFn :=
  {| fn_length := 3; fn_call := fun _ => PThrow (VError "boom") |}.

(** [(req, res, next) => { res.send('ok'); throw new Error('boom') }] *)
Definition send_then_throw : HandlerFn :=
  {| fn_length := 3; fn_call := fun _ => PSend (VStr "ok") (PThrow (VError "boom")) |}.

(** [(req, res, next) => next()] *)
Definition pass_through : HandlerFn :=
  {| fn_length := 3; fn_call := fun _ => PNext VUndefined PReturn |}.

(** [(err, req, res, next) => res.status(400).json({ handled: true })] *)
Definition recover : HandlerFn :=
  {| fn_length := 4;
     fn_call := fun _ => PStatus 400 (PJson (VObject [("handled", VBool true)]) PReturn) |}.

Definition app_throwing : SockressApp := use "/" [throwing] empty_app.

Definition app_send_then_throw : SockressApp := use "/" [send_then_throw] empty_app.

(** A stack where a failure is followed by a normal layer and then by an
    error handler. *)
Definition recovering_stack : list PipelineLayer :=
  [ {| handler := throwing; isErrorHandler := false |};
    {| handler := pass_through; isErrorHandler := false |};
    {| handler := recover; isErrorHandler := true |} ].

(** [(req, res) => res.json({ ok: true })] *)
Definition respond_ok : HandlerFn :=
  {| fn_length := 2; fn_call := fun _ => PJson (VObject [("ok", VBool true)]) PReturn |}.

(** [app.use('/api', mw); app.get('/api/users/:id', h)] *)
Definition api_app : SockressApp :=
  register "GET" "/api/users/:id" [respond_ok] (use "/api" [pass_through] empty_app).

(** A stack that opens with an error handler. *)
Definition guarded_stack : list PipelineLayer :=
  [ {| handler := recover; isErrorHandler := true |};
    {| handler := pass_through; isErrorHandler := false |} ].

(** The state in which [runPipeline] calls [next()] for an HTTP request. *)
Definition start : PipelineState :=
  initial_state (get_request "/") (create ModeHttp default_cors "*").

(** The same once a handler has sent a response. *)
Definition already_sent : PipelineState := write (send (VStr "ok")) start.

(** The run over [recovering_stack] once its first layer has thrown. *)
Definition after_first_layer : PipelineState :=
  {| idx := 1; req := get_request "/"; res := create ModeHttp default_cors "*";
     wire := []; trace := [EvInvoke 0 VUndefined; EvCaught (VError "boom") false] |}.

(** An application whose allow-list names one origin. *)
Definition app_one_origin : SockressApp :=
  {| middlewares := []; routes := []; paramHandlers := ∅;
     config := {| opt_cors := {| origin := OriginMany ["https://y.com"];
                                 credentials := true; methods := ["GET"];
                                 allowedHeaders := []; exposedHeaders := [];
                                 maxAge := 600 |};
                  opt_socket := opt_socket default_options;
                  bodyLimit := 1000000 |} |}.

(** [{ type: 'request', path: '/ping' }], without an id. *)
Definition ping_without_id : IncomingSocketMessage :=
  {| in_type := Some "request"; in_id := None; in_method := None;
     in_path := Some "/ping"; in_body := BodyValue VUndefined |}.

(** [{ type: 'request', method: 'get', path: '/api/users/7' }], and the
    same for [post], both without an id. *)
Definition get_user_without_id : IncomingSocketMessage :=
  {| in_type := Some "request"; in_id := None; in_method := Some "get";
     in_path := Some "/api/users/7"; in_body := BodyValue VUndefined |}.

Definition post_user_without_id : IncomingSocketMessage :=
  {| in_type := Some "request"; in_id := None; in_method := Some "post";
     in_path := Some "/api/users/7"; in_body := BodyValue VUndefined |}.

(** A form whose text input [a] appears twice, empty the first time. *)
Definition form_with_empty_value : FormData :=
  [("a", EntryString ""); ("a", EntryString "x")].

Definition png (bytes : list Byte.byte) : FormFile :=
  {| file_name := Some "x.png"; file_type := Some "image/png";
     file_size := Z.of_nat (length bytes); file_lastModified := None;
     file_bytes := bytes |}.

(** A form with a file under [b] followed by a file under [1]. *)
Definition form_with_index_key : FormData :=
  [("b", EntryFile (png [Byte.x61])); ("1", EntryFile (png [Byte.x62]))].

(** The answer of the HTTP server to [GET /ping], and the envelope a socket
    would carry for the same response. *)
Definition pong_over_http : FetchResponse :=
  {| fr_status := 200; fr_ok := true;
     fr_headers := [("Content-Type", "application/json; charset=utf-8")];
     fr_text := "[true]"; fr_json := Some (VArray [VBool true]) |}.

Definition pong_over_socket : InboundEnvelope :=
  {| ie_type := Some "response"; ie_id := Some "id1"; ie_status := 200;
     ie_headers := Some [("content-type", "application/json; charset=utf-8")];
     ie_body := VArray [VBool true]; ie_message := "" |}.

(** [normalizeOptions({ baseUrl, wsFactory })] on the client, over a server
    that answers [pong_over_http]. *)
Definition client_options (factory : option FactoryResult) : ClientOptions :=
  {| baseUrl := "https://api.example.com"; socketPath := "/sockress";
     default_headers := []; timeout := 15000; reconnectInterval := 1000;
     maxReconnectInterval := 15000; autoConnect := true; preferSocket := true;
     fetchImpl := fun _ => FetchAnswers pong_over_http;
     wsFactory := factory |}.

(** A client that has not connected yet. *)
Definition fresh_client (factory : option FactoryResult) : SockressClient :=
  {| options := client_options factory; ws := None; reconnectAttempts := 0;
     pending := ∅; queue := []; socketEnabled := true; closeRequested := false;
     reconnects := []; settled := []; events := [] |}.

(** A connected client waiting for the answer to request [r1], after two
    reconnect attempts. *)
Definition waiting_client : SockressClient :=
  {| options := client_options (Some (FactorySocket 1));
     ws := Some {| readyState := 1; frames := [] |}; reconnectAttempts := 2;
     pending := {[ "r1" := {| pr_timeout := 15000 |} ]}; queue := [];
     socketEnabled := true; closeRequested := false;
     reconnects := []; settled := []; events := [] |}.

(** [client.get('/ping')] *)
Definition get_ping : SockressClientRequest :=
  {| rq_path := "/ping"; rq_method := Some "GET"; rq_headers := None; rq_query := None;
     rq_body := BodyOther VUndefined; rq_timeout := None;
     rq_disableHttpFallback := false |}.

End Scenarios.
Import Scenarios.

(* ===================================================================== *)
(** * HTTP path of the server, request helpers and heartbeat *)
(* ===================================================================== *)

Module ServerHttp.

(** One iteration of the loops of [parseQuery] and of the form branch of
    [parseBody], on one entry of the [URLSearchParams]. *)
Definition accumulate_pair (result : JsObj FieldValue) (kv : string * string)
    : JsObj FieldValue :=
  match obj_get (fst kv) result with
  | Some existing =>
      if field_truthy existing then
        match existing with
        | FieldArr vs => obj_set (fst kv) (FieldArr (vs ++ [snd kv])) result
        | FieldStr v => obj_set (fst kv) (FieldArr [v; snd kv]) result
        end
      else obj_set (fst kv) (FieldStr (snd kv)) result
  | None => obj_set (fst kv) (FieldStr (snd kv)) result
  end.

(** [parseQuery(searchParams)], given the entries in order. *)
Definition parseQuery (entries : list (string * string)) : JsObj FieldValue :=
  fold_left accumulate_pair entries [].

(** ASCII white space, as [trim] removes it. *)
Definition is_space (c : ascii) : bool :=
  let n := nat_of_ascii c in
  ((9 <=? n)%nat && (n <=? 13)%nat) || (n =? 32)%nat.

Fixpoint trim_start (s : string) : string :=
  match s with
  | EmptyString => EmptyString
  | String c r => if is_space c then trim_start r else s
  end.

Fixpoint trim_end (s : string) : string :=
  match s with
  | EmptyString => EmptyString
  | String c r =>
      let r' := trim_end r in
      if is_space c && String.eqb r' "" then EmptyString else String c r'
  end.

Definition trim (s : string) : string := trim_end (trim_start s).

(** [s.split(';')[0]] *)
Fixpoint before_semicolon (s : string) : string :=
  match s with
  | EmptyString => EmptyString
  | String c r => if Ascii.eqb c ";" then EmptyString else String c (before_semicolon r)
  end.

(** [contentType?.split(';')[0].trim().toLowerCase()] *)
Definition media_type (contentType : option string) : option string :=
  option_map (fun ct => toLowerCase (trim (before_semicolon ct))) contentType.

Definition is_media_type (t : option string) (expected : string) : bool :=
  match t with
  | Some v => String.eqb v expected
  | None => false
  end.

(** [buffer.toString('utf8')], the octets read as code units. *)
Definition string_of_bytes (bytes : list Byte.byte) : string :=
  string_of_list_ascii (map ascii_of_byte bytes).

(** A parsed form as the value it is. *)
Definition fields_value (fields : JsObj FieldValue) : JsVal :=
  VObject (map (fun kv => (fst kv,
                           match snd kv with
                           | FieldStr v => VStr v
                           | FieldArr vs => VArray (map VStr vs)
                           end)) fields).

(** What a parser makes of a body: it throws, or gives a value. *)
Inductive Parsed : Type :=
| ParseThrows (message : string)
| ParsedValue (v : WireBody).

(** The platform parsers [parseBody] calls: [JSON.parse] and the entries of
    [new URLSearchParams(text)]. *)
Record BodyParsers : Type := {
  json_parse : string -> Parsed;
  form_entries : string -> list (string * string)
}.

(** [parseBody(buffer, contentType)] *)
Definition parseBody (parsers : BodyParsers) (buffer : list Byte.byte)
    (contentType : option string) : Parsed :=
  match buffer with
  | [] => ParsedValue (BodyValue VUndefined)
  | _ :: _ =>
      let type := media_type contentType in
      if is_media_type type "application/json" then
        let text := string_of_bytes buffer in
        if String.eqb text "" then ParsedValue (BodyValue VUndefined)
        else json_parse parsers text
      else if is_media_type type "application/x-www-form-urlencoded" then
        ParsedValue (BodyValue (fields_value
          (fold_left accumulate_pair (form_entries parsers (string_of_bytes buffer)) [])))
      else ParsedValue (BodyValue (VBuffer buffer))
  end.

(** How the request stream ends after its data. *)
Inductive StreamEnding : Type :=
| StreamEnds
| StreamFails (message : string).

Inductive BodyRead : Type :=
| ReadRejects (message : string)
| ReadResolves (body : list Byte.byte).

(** What the listeners of [readBody] leave behind: how the promise was
    settled, and whether [req.destroy()] was called. *)
Record BodyReading : Type := {
  read_result : BodyRead;
  request_destroyed : bool
}.

(** The listeners of [readBody] over the [data] events in order and the
    event that ends the stream; the first settlement of the promise decides.
    [total] is the number of octets seen, [collected] what was pushed. The
    chunk that passes the limit rejects the promise and destroys the
    request; a destroyed request emits no further [data]. *)
Fixpoint read_events (limit total : Z) (collected : list Byte.byte)
    (chunks : list (list Byte.byte)) (ending : StreamEnding) : BodyReading :=
  match chunks with
  | [] =>
      {| read_result := match ending with
                        | StreamEnds => ReadResolves collected
                        | StreamFails message => ReadRejects message
                        end;
         request_destroyed := false |}
  | chunk :: rest =>
      let total := (total + Z.of_nat (length chunk))%Z in
      if (total >? limit)%Z then
        {| read_result := ReadRejects "Payload too large"; request_destroyed := true |}
      else read_events limit total (collected ++ chunk) rest ending
  end.

(** [readBody(req, limit)]: the promise it returns. *)
Definition readBody (chunks : list (list Byte.byte)) (ending : StreamEnding) (limit : Z)
    : BodyRead :=
  read_result (read_events limit 0 [] chunks ending).

(** What [handleHttp] reads of the incoming message, for a request URL that
    parses; [hi_pathname] is the path name of that URL. *)
Record IncomingHttp : Type := {
  hi_method : option string;
  hi_pathname : string;
  hi_content_type : option string;
  hi_origin : option string;
  hi_chunks : list (list Byte.byte);
  hi_ending : StreamEnding
}.

(** The response the [catch] block of [handleHttp] writes on the raw
    response. *)
Definition raw_error (message : string) : Emitted :=
  EmitHttp 500 [("content-type", HeaderStr "application/json; charset=utf-8")]
           (EndJson (error_body (VError message))).

(** The reading and parsing of the body at the head of [handleHttp]. *)
Definition http_body (parsers : BodyParsers) (limit : Z) (inc : IncomingHttp) : Parsed :=
  let contentType := toLowerCase (or_default (hi_content_type inc) "") in
  if startsWith contentType "multipart/form-data" then ParsedValue (BodyValue VUndefined)
  else
    match readBody (hi_chunks inc) (hi_ending inc) limit with
    | ReadRejects message => ParseThrows message
    | ReadResolves body => parseBody parsers body (hi_content_type inc)
    end.

Definition http_request (inc : IncomingHttp) (payload : NormalizedBodyPayload)
    (nanoid : string) : SockressRequest :=
  {| req_id := nanoid;
     req_method := toUpperCase (nullish (hi_method inc) "GET");
     req_path := or_default (Some (hi_pathname inc)) "/";
     req_body := body payload;
     req_files := files payload;
     req_file := pickPrimaryFile (files payload);
     req_type := KindHttp;
     req_params := [] |}.

(** [handleHttp(req, res)]: everything written on the raw response. *)
Definition handleHttp (parsers : BodyParsers) (app : SockressApp) (nanoid : string)
    (inc : IncomingHttp) : list Emitted :=
  match http_body parsers (bodyLimit (config app)) inc with
  | ParseThrows message => [raw_error message]
  | ParsedValue parsedBody =>
      let sockressReq := http_request inc (normalizeBodyPayload parsedBody) nanoid in
      let origin := pickOrigin (hi_origin inc) (origin (opt_cors (config app))) in
      let sockressRes := create ModeHttp (opt_cors (config app)) origin in
      if String.eqb (req_method sockressReq) "OPTIONS" then
        snd (send VUndefined (status 204 sockressRes))
      else
        match runPipeline app sockressReq sockressRes with
        | Settled st => wire st
        | Rejected message => [raw_error message]
        | OutOfFuel => []
        end
  end.

(** An exchange over HTTP: what [handleHttp] writes on the raw response, and
    whether the request was destroyed while its body was read. Request and
    response share one connection, and destroying the request destroys
    it. *)
Record HttpExchange : Type := {
  raw_writes : list Emitted;
  connection_destroyed : bool
}.

Definition http_exchange (parsers : BodyParsers) (app : SockressApp) (nanoid : string)
    (inc : IncomingHttp) : HttpExchange :=
  {| raw_writes := handleHttp parsers app nanoid inc;
     connection_destroyed :=
       if startsWith (toLowerCase (or_default (hi_content_type inc) "")) "multipart/form-data"
       then false
       else request_destroyed
              (read_events (bodyLimit (config app)) 0 [] (hi_chunks inc) (hi_ending inc)) |}.

(** What reaches the client: the body is read before anything is written,
    so what is written on a destroyed connection comes after its
    destruction and is not delivered. *)
Definition delivered (x : HttpExchange) : list Emitted :=
  if connection_destroyed x then [] else raw_writes x.

(** [normalizeHeaders(headers)]; a value that is [undefined] or [null] is
    [None]. *)
Definition normalizeHeaders (headers : JsObj (option FieldValue)) : JsObj FieldValue :=
  fold_left
    (fun normalized kv =>
       match snd kv with
       | None => normalized
       | Some v => obj_set (toLowerCase (fst kv)) v normalized
       end)
    headers [].

(** [SockressRequestImpl.get(field)] over the headers of a request. *)
Definition request_get (headers : JsObj FieldValue) (field : string) : option string :=
  match obj_get (toLowerCase field) headers with
  | Some (FieldStr v) => Some v
  | Some (FieldArr (v :: _)) => Some v
  | _ => None
  end.

(** [sanitizeFilename(name)], over the UTF-16 code units of the name: the
    replacement works unit by unit. [filename_unit] is the character class
    of letters, digits, dot, hyphen and underscore. *)
Definition filename_unit (u : N) : bool :=
  ((97 <=? u)%N && (u <=? 122)%N) || ((65 <=? u)%N && (u <=? 90)%N) ||
  ((48 <=? u)%N && (u <=? 57)%N) || (u =? 46)%N || (u =? 45)%N || (u =? 95)%N.

Definition sanitizeFilename (name : list N) : list N :=
  map (fun u => if filename_unit u then u else 95%N) name.

(** ** Heartbeat *)

(** A socket of the server: its liveness flag ([None] while it was never
    set), whether it was terminated, and how many pings it was sent. *)
Record LiveSocket : Type := {
  isAlive : option bool;
  terminated : bool;
  pings : nat
}.

(** [handleSocket] marks a new connection alive. *)
Definition accept_socket : LiveSocket :=
  {| isAlive := Some true; terminated := false; pings := 0 |}.

(** The [pong] listener. *)
Definition on_pong (s : LiveSocket) : LiveSocket :=
  {| isAlive := Some true; terminated := terminated s; pings := pings s |}.

(** The callback of [startHeartbeat] on one client; a terminated socket is
    no longer among the clients. *)
Definition heartbeat_socket (s : LiveSocket) : LiveSocket :=
  if terminated s then s
  else
    match isAlive s with
    | Some false => {| isAlive := isAlive s; terminated := true; pings := pings s |}
    | _ => {| isAlive := Some false; terminated := false; pings := S (pings s) |}
    end.

(** One firing of the interval. *)
Definition heartbeat (clients : list LiveSocket) : list LiveSocket :=
  map heartbeat_socket clients.

Inductive HeartbeatEvent : Type := Tick | Pong.

Definition heartbeat_step (s : LiveSocket) (ev : HeartbeatEvent) : LiveSocket :=
  match ev with
  | Tick => heartbeat_socket s
  | Pong => on_pong s
  end.

End ServerHttp.
Import ServerHttp.

(* ===================================================================== *)
(** * Routers *)
(* ===================================================================== *)

Module Router.

(** [SockressRouter]: the layers it has collected. *)
Record SockressRouter : Type := {
  router_middlewares : list MiddlewareLayer;
  router_routes : list RouteLayer
}.

Definition empty_router : SockressRouter :=
  {| router_middlewares := []; router_routes := [] |}.

(** [router.use(path, ...handlers)] for handler functions. *)
Definition router_use (path : string) (handlers : list HandlerFn) (r : SockressRouter)
    : SockressRouter :=
  {| router_middlewares :=
       router_middlewares r ++
       map (fun h => {| mw_path := path; mw_handler := h; mw_isErrorHandler := is_arity4 h |})
           handlers;
     router_routes := router_routes r |}.

(** [router.register(method, path, handlers)], for a non-empty handler
    list. *)
Definition router_register (method path : string) (handlers : list HandlerFn)
    (r : SockressRouter) : SockressRouter :=
  {| router_middlewares := router_middlewares r;
     router_routes := router_routes r ++
       [{| rt_method := method; rt_matcher := buildMatcher path; rt_handlers := handlers |}] |}.

(** The path of a router middleware once mounted. *)
Definition mounted_middleware_path (path layerPath : string) : string :=
  if String.eqb path "/" then layerPath
  else path +:+ (if String.eqb layerPath "/" then "" else layerPath).

(** The pattern of a router route once mounted. *)
Definition mounted_route_path (path rawPath : string) : string :=
  if String.eqb path "/" then rawPath else path +:+ rawPath.

(** [app.use(path, router)] *)
Definition use_router (path : string) (router : SockressRouter) (app : SockressApp)
    : SockressApp :=
  {| middlewares :=
       middlewares app ++
       map (fun layer => {| mw_path := mounted_middleware_path path (mw_path layer);
                            mw_handler := mw_handler layer;
                            mw_isErrorHandler := mw_isErrorHandler layer |})
           (router_middlewares router);
     routes :=
       routes app ++
       map (fun route => {| rt_method := rt_method route;
                            rt_matcher :=
                              buildMatcher (mounted_route_path path (raw (rt_matcher route)));
                            rt_handlers := rt_handlers route |})
           (router_routes router);
     paramHandlers := paramHandlers app;
     config := config app |}.

End Router.
Import Router.

(* ===================================================================== *)
(** * Further vocabulary *)
(* ===================================================================== *)

Module Observations.

(** The layers a trace visits (calls or passes over), in order. *)
Definition layer_of (ev : Event) : option nat :=
  match ev with
  | EvInvoke i _ | EvSkip i _ => Some i
  | EvExhausted _ _ | EvCaught _ _ => None
  end.

Definition visits (tr : list Event) : list nat := filter_map layer_of tr.

Fixpoint increasing (l : list nat) : Prop :=
  match l with
  | [] => True
  | x :: r => Forall (fun y => (x < y)%nat) r /\ increasing r
  end.

(** The calls a route layer does not answer to. *)
Definition route_misses (method path : string) (route : RouteLayer) : Prop :=
  (rt_method route <> method /\ rt_method route <> "ALL") \/
  match_path (rt_matcher route) path = MatchNull.

(** The header calls an emitted item makes: the [setHeader] calls of an HTTP
    response in order, the entries of the [headers] of a socket envelope. *)
Definition header_calls (x : Emitted) : list (string * HeaderValue) :=
  match x with
  | EmitHttp _ calls _ => calls
  | EmitSocket m => map (fun kv => (fst kv, HeaderStr (snd kv))) (nullish (msg_headers m) [])
  end.

(** The value a header ends up with: that of the last call under its name. *)
Fixpoint last_call (name : string) (calls : list (string * HeaderValue)) : option HeaderValue :=
  match calls with
  | [] => None
  | (k, v) :: r =>
      match last_call name r with
      | Some later => Some later
      | None => if String.eqb k name then Some v else None
      end
  end.

Definition emitted_header (x : Emitted) (name : string) : option HeaderValue :=
  last_call name (header_calls x).

(** The six CORS headers of a configuration and an allowed origin. *)
Definition carries_cors (c : CorsOptions) (o : string) (x : Emitted) : Prop :=
  emitted_header x "access-control-allow-origin" = Some (HeaderStr o) /\
  emitted_header x "access-control-allow-credentials" =
    Some (HeaderStr (string_of_bool (credentials c))) /\
  emitted_header x "access-control-allow-methods" =
    Some (HeaderStr (String.concat ", " (methods c))) /\
  emitted_header x "access-control-allow-headers" =
    Some (HeaderStr (String.concat ", " (allowedHeaders c))) /\
  emitted_header x "access-control-expose-headers" =
    Some (HeaderStr (String.concat ", " (exposedHeaders c))) /\
  emitted_header x "access-control-max-age" = Some (HeaderStr (pretty (maxAge c))).

(** The values a key has among the entries of a query string, in order. *)
Definition values_of (key : string) (entries : list (string * string)) : list string :=
  map snd (List.filter (fun kv => String.eqb (fst kv) key) entries).

(** The field value of a list of values: absent, a string, or an array. *)
Definition field_of (values : list string) : option FieldValue :=
  match values with
  | [] => None
  | [v] => Some (FieldStr v)
  | _ => Some (FieldArr values)
  end.

(** The files a form holds under a key, in order. *)
Definition files_under (key : string) (formData : FormData) : list FormFile :=
  filter_map (fun entry => match snd entry with
                           | EntryFile f => if String.eqb (fst entry) key then Some f else None
                           | EntryString _ => None
                           end) formData.

(** What [serializeFormData] holds under a key for a list of files. *)
Definition serialized_under (key : string) (fs : list FormFile)
    : option (list SerializedSocketFile) :=
  match fs with
  | [] => None
  | _ :: _ => Some (map (serialize_file key) fs)
  end.

(** The last defined value a header has in an envelope, whatever the case
    of its name. *)
Fixpoint last_header (field : string) (headers : JsObj (option FieldValue))
    : option FieldValue :=
  match headers with
  | [] => None
  | (k, v) :: r =>
      match last_header field r with
      | Some later => Some later
      | None =>
          if same_name k field then v else None
      end
  end.

(** The total number of octets of a stream. *)
Definition stream_length (chunks : list (list Byte.byte)) : Z :=
  Z.of_nat (length (concat chunks)).

(** The socket requests [sendViaSocket] is called with one after the other,
    each with the id the generator returns for it. *)
Fixpoint send_each (calls : list (TransportInput * string)) (timeout : Z)
    (c : SockressClient) : SockressClient :=
  match calls with
  | [] => c
  | (input, id) :: rest => send_each rest timeout (fst (sendViaSocket input timeout id c))
  end.

(** A client after a run of transport events. *)
Definition after_events (evs : list SocketEvent) (c : SockressClient) : SockressClient :=
  fold_left (fun c ev => on_event ev c) evs c.

(** A route parameter name as [buildMatcher] reads it from the segment
    [:name]: without a slash and not ending in a question mark. *)
Definition is_param_name (key : string) : bool :=
  all_chars not_slash key && negb (endsWith_char "?" (String ":" key)).

(** A function of the response that keeps its CORS configuration and the
    keys of its headers distinct, and whose output carries the CORS
    headers. *)
Definition cors_writer (f : SockressResponse -> SockressResponse * list Emitted) : Prop :=
  forall r,
    cors (fst (f r)) = cors r /\ allowedOrigin (fst (f r)) = allowedOrigin r /\
    (List.NoDup (obj_keys (headers r)) ->
     List.NoDup (obj_keys (headers (fst (f r)))) /\
     Forall (carries_cors (cors r) (allowedOrigin r)) (snd (f r))).

(** The layers [composeStack] takes from the middleware of an application
    for a path. *)
Definition middleware_layers (app : SockressApp) (path : string) : list PipelineLayer :=
  map (fun l => {| handler := mw_handler l; isErrorHandler := mw_isErrorHandler l |})
      (List.filter (fun l => matchesPrefix (mw_path l) path) (middlewares app)).

(** An emitted item is of the transport of a mode: a write on the raw
    response for HTTP, a [response] envelope tagged with the request id for
    a socket. *)
Definition on_transport (m0 : RequestMode) (x : Emitted) : Prop :=
  match m0, x with
  | ModeHttp, EmitHttp _ _ _ => True
  | ModeSocket rid, EmitSocket m => msg_type m = MsgResponse /\ msg_id m = Some rid
  | _, _ => False
  end.

(** A socket answers every ping of a run of heartbeat events: no tick finds
    the ping of the previous tick unanswered. [alive] tells whether the last
    ping, if any, was answered. *)
Fixpoint responsive (alive : bool) (evs : list HeartbeatEvent) : bool :=
  match evs with
  | [] => true
  | Pong :: r => responsive true r
  | Tick :: r => alive && responsive false r
  end.

(** The text values a form holds under a key, in order. *)
Definition strings_under (key : string) (formData : FormData) : list string :=
  filter_map (fun entry => match snd entry with
                           | EntryString v => if String.eqb (fst entry) key then Some v else None
                           | EntryFile _ => None
                           end) formData.

(** The fields of a normalized body, when it is a form. *)
Definition body_field (key : string) (b : RequestBody) : option FieldValue :=
  match b with
  | BodyFields fields => obj_get key fields
  | BodyRaw _ => None
  end.

End Observations.
Import Observations.

(* ===================================================================== *)
(** * Further scenarios *)
(* ===================================================================== *)

Module Cases.

(** [(req, res) => { res.set('Access-Control-Allow-Origin', 'https://evil.example'); res.send('ok') }] *)
Definition override_origin : HandlerFn :=
  {| fn_length := 2;
     fn_call := fun _ => PSet "Access-Control-Allow-Origin" "https://evil.example"
                              (PSend (VStr "ok") PReturn) |}.

Definition app_override_origin : SockressApp := use "/" [override_origin] empty_app.

(** [(req, res, next) => { res.send('again'); throw new Error('boom') }], run
    after a response was sent. *)
Definition send_again_then_throw : Prog := PSend (VStr "again") (PThrow (VError "boom")).

(** A route registered before a middleware. *)
Definition route_then_middleware : SockressApp :=
  use "/api" [pass_through] (register "GET" "/api/users/:id" [respond_ok] empty_app).

(** Platform parsers that read every JSON text as the empty object and
    every form as empty. *)
Definition json_parsers : BodyParsers :=
  {| json_parse := fun _ => ParsedValue (BodyValue (VObject []));
     form_entries := fun _ => [] |}.

(** An application that accepts bodies of at most two octets. *)
Definition small_limit_app : SockressApp :=
  {| middlewares := []; routes := []; paramHandlers := ∅;
     config := {| opt_cors := default_cors; opt_socket := opt_socket default_options;
                  bodyLimit := 2 |} |}.

(** [POST /upload] with the three octets [abc] in two chunks. *)
Definition post_three_octets : IncomingHttp :=
  {| hi_method := Some "POST"; hi_pathname := "/upload";
     hi_content_type := Some "text/plain"; hi_origin := None;
     hi_chunks := [[Byte.x61; Byte.x62]; [Byte.x63]]; hi_ending := StreamEnds |}.

(** [OPTIONS /anywhere] without a body. *)
Definition options_anywhere : IncomingHttp :=
  {| hi_method := Some "OPTIONS"; hi_pathname := "/anywhere";
     hi_content_type := None; hi_origin := Some "https://x.com";
     hi_chunks := []; hi_ending := StreamEnds |}.

(** A client whose socket factory returns a socket that is still
    connecting. *)
Definition connecting_client : SockressClient := fresh_client (Some (FactorySocket 0)).

(** A client created with default headers, and a request that gives one of
    them again. *)
Definition client_with_token : SockressClient :=
  {| options := {| baseUrl := "https://api.example.com"; socketPath := "/sockress";
                   default_headers := [("authorization", "Bearer default"); ("x-app", "demo")];
                   timeout := 15000; reconnectInterval := 1000;
                   maxReconnectInterval := 15000; autoConnect := true; preferSocket := true;
                   fetchImpl := fun _ => FetchAnswers pong_over_http;
                   wsFactory := None |};
     ws := None; reconnectAttempts := 0; pending := ∅; queue := [];
     socketEnabled := true; closeRequested := false;
     reconnects := []; settled := []; events := [] |}.

Definition request_with_token : SockressClientRequest :=
  {| rq_path := "/me"; rq_method := Some "GET";
     rq_headers := Some [("authorization", "Bearer request")]; rq_query := None;
     rq_body := BodyOther VUndefined; rq_timeout := None;
     rq_disableHttpFallback := false |}.

(** [const users = Router(); users.use(mw); users.get('/list', h);
    app.use('/api', users)] *)
Definition users_router : SockressRouter :=
  router_register "GET" "/list" [respond_ok] (router_use "/" [pass_through] empty_router).

Definition app_with_router : SockressApp := use_router "/api" users_router empty_app.

(** A server that creates a user on [POST /users] when the request carries
    the token [t1] and the JSON body [{ name: 'ann' }], and answers 404 to
    anything else. *)
Definition created_over_http : FetchResponse :=
  {| fr_status := 201; fr_ok := true;
     fr_headers := [("content-type", "application/json; charset=utf-8")];
     fr_text := "[7]"; fr_json := Some (VArray [VNum 7]) |}.

Definition created_over_socket : InboundEnvelope :=
  {| ie_type := Some "response"; ie_id := Some "id1"; ie_status := 201;
     ie_headers := Some [("content-type", "application/json; charset=utf-8")];
     ie_body := VArray [VNum 7]; ie_message := "" |}.

Definition missing_over_http : FetchResponse :=
  {| fr_status := 404; fr_ok := false; fr_headers := []; fr_text := "";
     fr_json := None |}.

Definition users_fetch (init : FetchInit) : FetchOutcome :=
  if String.eqb (fi_method init) "POST" && String.eqb (fi_path init) "/users" &&
     match obj_get "x-token" (fi_headers init) with
     | Some token => String.eqb token "t1"
     | None => false
     end &&
     match fi_body init with
     | Some (FetchJson (VObject [(k, VStr v)])) => String.eqb k "name" && String.eqb v "ann"
     | _ => false
     end
  then FetchAnswers created_over_http
  else FetchAnswers missing_over_http.

(** A client of that server whose socket factory throws. *)
Definition users_client : SockressClient :=
  {| options := {| baseUrl := "https://api.example.com"; socketPath := "/sockress";
                   default_headers := []; timeout := 15000; reconnectInterval := 1000;
                   maxReconnectInterval := 15000; autoConnect := true;
                   preferSocket := true; fetchImpl := users_fetch;
                   wsFactory := Some (FactoryThrows "ECONNREFUSED") |};
     ws := None; reconnectAttempts := 0; pending := ∅; queue := [];
     socketEnabled := true; closeRequested := false;
     reconnects := []; settled := []; events := [] |}.

(** [client.post('/users', { headers: { 'X-Token': 't1' },
    body: { name: 'ann' } })] *)
Definition post_user : SockressClientRequest :=
  {| rq_path := "/users"; rq_method := Some "post";
     rq_headers := Some [("X-Token", "t1")]; rq_query := None;
     rq_body := BodyOther (VObject [("name", VStr "ann")]); rq_timeout := None;
     rq_disableHttpFallback := false |}.

(** [client.request({ path: '/search', method: 'GET', body: { q: 'x' } })] *)
Definition get_with_body : SockressClientRequest :=
  {| rq_path := "/search"; rq_method := Some "GET"; rq_headers := None; rq_query := None;
     rq_body := BodyOther (VObject [("q", VStr "x")]); rq_timeout := None;
     rq_disableHttpFallback := false |}.

End Cases.
Import Cases.

(* ===================================================================== *)
(** * Transports that refuse a write *)
(* ===================================================================== *)

Module Platform.

(** What the transport under a response does with the write [send] asks of
    it: [None] when every call goes through, [Some e] when one of them
    throws [e]: [res.setHeader] on a name or a value it refuses, [res.end]
    on a status code out of range, [socket.send] on a socket that is not
    open. [send] above is [send] on a transport that accepts every write. *)
Definition Transport : Type := Emitted -> option JsVal.

Definition accepting : Transport := fun _ => None.

(** How a call of [send] ends: it returns, having handed [items] to the
    transport, or the transport throws [e] on [item]. *)
Inductive Attempt : Type :=
| Handed (r : SockressResponse) (items : list Emitted)
| Refused (e : JsVal) (r : SockressResponse) (item : Emitted).

(** [send(payload)] on a transport. The latch is set before the transport is
    called: a refused write leaves the response latched, and nothing of it
    reaches the peer. *)
Definition send_on (refuses : Transport) (payload : JsVal) (r : SockressResponse) : Attempt :=
  if sent r then Handed r []
  else
    let r := mark_sent r in
    let r := if no_content_type r && is_string payload
             then set "content-type" "text/plain; charset=utf-8" r
             else r in
    let headersWithCors := buildHeaders r in
    let item := match mode r with
                | ModeHttp => http_write r headersWithCors payload
                | ModeSocket requestId =>
                    EmitSocket (socket_message r requestId headersWithCors payload)
                end in
    match refuses item with
    | None => Handed r [item]
    | Some e => Refused e r item
    end.

(** [json(payload)] *)
Definition json_on (refuses : Transport) (payload : JsVal) (r : SockressResponse) : Attempt :=
  send_on refuses payload (set "content-type" "application/json; charset=utf-8" r).

(** [renderError(err, req, res)] *)
Definition renderError_on (refuses : Transport) (err : JsVal) (r : SockressResponse)
    : Attempt :=
  if isSent r then Handed r []
  else json_on refuses (error_body err) (status 500 r).

(** [res.status(404).json({ error: 'Not Found' })] *)
Definition respond_not_found_on (refuses : Transport) (r : SockressResponse) : Attempt :=
  json_on refuses not_found_body (status 404 r).

(** What the transport throws on the items handed to it, if anything. *)
Definition thrown_on (refuses : Transport) (items : list Emitted) : option JsVal :=
  match items with
  | [] => None
  | x :: _ => refuses x
  end.

(** What the transport took of the items handed to it: what reaches the
    peer. *)
Definition taken (refuses : Transport) (items : list Emitted) : list Emitted :=
  List.filter (fun x => match refuses x with None => true | Some _ => false end) items.

(** How a piece of the run ends: it returns, or it throws [e]; either way
    in the state it has reached. *)
Inductive Outcome : Type :=
| Returned (st : PipelineState)
| Thrown (e : JsVal) (st : PipelineState).

Definition state_of (o : Outcome) : PipelineState :=
  match o with Returned st | Thrown _ st => st end.

(** In a run on a transport, [wire] lists what was handed to the transport,
    taken or refused. *)
Definition hand (r : SockressResponse) (items : list Emitted) (st : PipelineState)
    : PipelineState :=
  {| idx := idx st; req := req st; res := r; wire := wire st ++ items;
     trace := trace st |}.

Definition conclude (a : Attempt) (st : PipelineState) : Outcome :=
  match a with
  | Handed r items => Returned (hand r items st)
  | Refused e r item => Thrown e (hand r [item] st)
  end.

(** The branch of [next] taken when no layer is left. It is outside the
    [try] block: what the transport throws there rejects the promise this
    call of [next] returns. *)
Definition exhausted_on (refuses : Transport) (err : JsVal) (st : PipelineState) : Outcome :=
  let st' := record (EvExhausted err (isSent (res st))) st in
  if truthy err then conclude (renderError_on refuses err (res st')) st'
  else if negb (isSent (res st)) then conclude (respond_not_found_on refuses (res st')) st'
  else Returned st'.

Section Engine.
Variable refuses : Transport.
Variable stack : list PipelineLayer.

(** A handler body. A handler awaits the continuation it calls, so that
    what [next] throws is thrown by the handler at that point. *)
Fixpoint exec_on (nxt : JsVal -> PipelineState -> option Outcome)
    (p : Prog) (st : PipelineState) : option Outcome :=
  match p with
  | PReturn => Some (Returned st)
  | PThrow e => Some (Thrown e st)
  | PStatus code k => exec_on nxt k (on_res (status code) st)
  | PSet f v k => exec_on nxt k (on_res (set f v) st)
  | PCookie c k => exec_on nxt k (on_res (cookie c) st)
  | PSend v k =>
      match conclude (send_on refuses v (res st)) st with
      | Returned st' => exec_on nxt k st'
      | Thrown e st' => Some (Thrown e st')
      end
  | PJson v k =>
      match conclude (json_on refuses v (res st)) st with
      | Returned st' => exec_on nxt k st'
      | Thrown e st' => Some (Thrown e st')
      end
  | PSetParams ps k => exec_on nxt k (set_params ps st)
  | PNext e k =>
      match nxt e st with
      | Some (Returned st') => exec_on nxt k st'
      | Some (Thrown e' st') => Some (Thrown e' st')
      | None => None
      end
  | PIfSent kt kf => if isSent (res st) then exec_on nxt kt st else exec_on nxt kf st
  end.

(** The [catch] block of a frame of [next]: [await next(error)]. *)
Definition caught (nxt : JsVal -> PipelineState -> option Outcome) (o : option Outcome)
    : option Outcome :=
  match o with
  | Some (Thrown e st) => nxt e (record (EvCaught e (isSent (res st))) st)
  | _ => o
  end.

(** The closure [next] of [runPipeline]; [fuel] bounds the number of layers
    still to be taken. *)
Fixpoint next_on (fuel : nat) (err : JsVal) (st : PipelineState) : option Outcome :=
  let i := idx st in
  let st := advance st in
  match nth_error stack i with
  | None => Some (exhausted_on refuses err st)
  | Some layer =>
      match fuel with
      | O => None
      | S fuel' =>
          caught (next_on fuel')
            (if truthy err then
               if isErrorHandler layer
               then exec_on (next_on fuel') (fn_call (handler layer) (Some err))
                            (record (EvInvoke i err) st)
               else next_on fuel' err (record (EvSkip i err) st)
             else
               if isErrorHandler layer
               then next_on fuel' VUndefined (record (EvSkip i err) st)
               else exec_on (next_on fuel') (fn_call (handler layer) None)
                            (record (EvInvoke i err) st))
      end
  end.
End Engine.

(** How the promise of [runPipeline] settles: rejected by [composeStack],
    resolved, or rejected with what the first call of [next] threw. *)
Inductive RunResult : Type :=
| RunRejected (message : string)
| RunSettled (st : PipelineState)
| RunEscaped (e : JsVal) (st : PipelineState)
| RunOutOfFuel.

(** [runPipeline(req, res)] on a transport. *)
Definition runPipeline_on (refuses : Transport) (app : SockressApp) (req : SockressRequest)
    (res : SockressResponse) : RunResult :=
  match composeStack app req with
  | ComposeThrows => RunRejected "URI malformed"
  | ComposeStack stack params =>
      match next_on refuses stack (length stack) VUndefined
                    (initial_state (with_params params req) res) with
      | Some (Returned st) => RunSettled st
      | Some (Thrown e st) => RunEscaped e st
      | None => RunOutOfFuel
      end
  end.

(** ** A raw response that checks what it is given *)

(** A control character other than the tab: [setHeader] refuses a value that
    holds one. *)
Definition is_control (c : ascii) : bool :=
  let n := nat_of_ascii c in
  ((n <? 32)%nat && negb (n =? 9)%nat) || (n =? 127)%nat.

Fixpoint holds_control (s : string) : bool :=
  match s with
  | EmptyString => false
  | String c r => is_control c || holds_control r
  end.

Definition header_refused (h : string * HeaderValue) : bool :=
  match snd h with
  | HeaderStr v => holds_control v
  | HeaderList vs => existsb holds_control vs
  end.

Definition double_quote : string := String (ascii_of_nat 34) EmptyString.

(** Two of the checks the raw response of Node makes, in the order [send]
    calls it: [setHeader] throws a [TypeError] on the first header whose
    value holds a control character, and [end] throws a [RangeError] on a
    status code outside 100..999. A socket takes every message. *)
Definition checking : Transport :=
  fun x =>
    match x with
    | EmitHttp code hs _ =>
        match List.find header_refused hs with
        | Some h =>
            Some (VError ("Invalid character in header content [" +:+ double_quote +:+
                          fst h +:+ double_quote +:+ "]"))
        | None =>
            if ((code <? 100) || (999 <? code))%Z
            then Some (VError ("Invalid status code: " +:+ pretty code))
            else None
        end
    | EmitSocket _ => None
    end.

(** ** Vocabulary *)

(** An event that tells nothing about the wire. *)
Definition harmless (ev : Event) : Prop :=
  match ev with
  | EvExhausted _ false | EvCaught _ false => False
  | _ => True
  end.

(** A handler that hands the request on: it may set the status, headers,
    cookies and parameters, then calls [next()] once, and after that at most
    sets more of them. *)
Fixpoint sets_only (p : Prog) : bool :=
  match p with
  | PReturn => true
  | PStatus _ k | PSet _ _ k | PCookie _ k | PSetParams _ k => sets_only k
  | _ => false
  end.

Fixpoint hands_on (p : Prog) : bool :=
  match p with
  | PStatus _ k | PSet _ _ k | PCookie _ k | PSetParams _ k => hands_on k
  | PNext err k => negb (truthy err) && sets_only k
  | _ => false
  end.

(** A layer that is passed over while no error is pending, or hands the
    request on. *)
Definition forwards (l : PipelineLayer) : bool :=
  isErrorHandler l || hands_on (fn_call (handler l) None).

(** A handler that throws [e] before it has sent anything or called
    [next]. *)
Fixpoint throws_at_once (e : JsVal) (p : Prog) : Prop :=
  match p with
  | PThrow e' => e' = e
  | PStatus _ k | PSet _ _ k | PCookie _ k | PSetParams _ k => throws_at_once e k
  | _ => False
  end.

(** ** Scenarios *)

(** [(req, res, next) => { res.set('x-note', 'a\nb'); return next() }] *)
Definition note_then_next : HandlerFn :=
  {| fn_length := 3;
     fn_call := fun _ => PSet "x-note" (String "a" (String (ascii_of_nat 10) "b"))
                              (PNext VUndefined PReturn) |}.

(** [(req, res, next) => { res.set('x-seen', 'yes'); return next() }] *)
Definition mark_then_next : HandlerFn :=
  {| fn_length := 3;
     fn_call := fun _ => PSet "x-seen" "yes" (PNext VUndefined PReturn) |}.

(** [(req, res) => { res.status(1000).send('x') }] *)
Definition send_status_1000 : HandlerFn :=
  {| fn_length := 2; fn_call := fun _ => PStatus 1000 (PSend (VStr "x") PReturn) |}.

Definition app_note_then_next : SockressApp := use "/" [note_then_next] empty_app.

Definition app_mark_then_next : SockressApp := use "/" [mark_then_next] empty_app.

Definition app_send_status_1000 : SockressApp := use "/" [send_status_1000] empty_app.

End Platform.
Import Platform.

(* ===================================================================== *)
(** * Properties *)
(* ===================================================================== *)

Module ResponseFacts.

Lemma send_when_sent (p : JsVal) (r : SockressResponse) :
  sent r = true -> send p r = (r, []).
Proof. intros H. unfold send. now rewrite H. Qed.

Lemma latched_fields (p : JsVal) (r : SockressResponse) :
  sent (latched p r) = true /\ mode (latched p r) = mode r /\
  statusCode (latched p r) = statusCode r /\ cors (latched p r) = cors r.
Proof. unfold latched. destruct (_ && _); repeat split. Qed.

Lemma send_when_unsent (p : JsVal) (r : SockressResponse) :
  sent r = false -> send p r = (latched p r, [written p r]).
Proof.
  intros H. unfold send, written. rewrite H. fold (latched p r).
  destruct (latched_fields p r) as (_ & M & _). rewrite M.
  destruct (mode r); reflexivity.
Qed.

Lemma send_sets_latch (p : JsVal) (r : SockressResponse) :
  sent (fst (send p r)) = true.
Proof.
  destruct (sent r) eqn:E.
  - now rewrite send_when_sent.
  - rewrite send_when_unsent by exact E. apply latched_fields.
Qed.

Lemma send_mode (p : JsVal) (r : SockressResponse) :
  mode (fst (send p r)) = mode r.
Proof.
  destruct (sent r) eqn:E.
  - now rewrite send_when_sent.
  - rewrite send_when_unsent by exact E. apply latched_fields.
Qed.

Lemma send_emits_when_sent (p : JsVal) (r : SockressResponse) :
  sent r = true -> snd (send p r) = [].
Proof. intros H. now rewrite (send_when_sent p r H). Qed.

(** An unsent response writes exactly one item; an object payload travels
    as it is, under the current status code, and a socket message carries
    the request id of the mode. *)
Lemma send_emits_when_unsent (p : JsVal) (r : SockressResponse) :
  sent r = false ->
  exists x, snd (send p r) = [x] /\
            emitted_status x = statusCode r /\
            (forall props, p = VObject props -> emitted_payload x = p) /\
            (forall m, emitted_message x = Some m ->
                       msg_type m = MsgResponse /\
                       exists rid, mode r = ModeSocket rid /\ msg_id m = Some rid).
Proof.
  intros H. rewrite send_when_unsent by exact H. cbn [snd].
  exists (written p r). split; [reflexivity|].
  destruct (latched_fields p r) as (_ & _ & S & _).
  unfold written. destruct (mode r) eqn:M.
  - repeat split.
    + unfold http_write. rewrite S. destruct p; reflexivity.
    + intros props ->. reflexivity.
    + unfold http_write in H0. destruct p; discriminate.
    + unfold http_write in H0. destruct p; discriminate.
  - repeat split.
    + cbn. now rewrite S.
    + cbn in H0. now injection H0 as <-.
    + cbn in H0. injection H0 as <-. eauto.
Qed.

Lemma json_sets_latch (p : JsVal) (r : SockressResponse) : sent (fst (json p r)) = true.
Proof. apply send_sets_latch. Qed.

Lemma json_mode (p : JsVal) (r : SockressResponse) : mode (fst (json p r)) = mode r.
Proof. unfold json. now rewrite send_mode. Qed.

Lemma json_emits_when_sent (p : JsVal) (r : SockressResponse) :
  sent r = true -> snd (json p r) = [].
Proof. intros H. unfold json. now apply send_emits_when_sent. Qed.

Lemma json_emits_when_unsent (p : JsVal) (r : SockressResponse) :
  sent r = false ->
  exists x, snd (json p r) = [x] /\
            emitted_status x = statusCode r /\
            (forall props, p = VObject props -> emitted_payload x = p) /\
            (forall m, emitted_message x = Some m ->
                       msg_type m = MsgResponse /\
                       exists rid, mode r = ModeSocket rid /\ msg_id m = Some rid).
Proof.
  intros H. unfold json.
  apply (send_emits_when_unsent p (set "content-type" "application/json; charset=utf-8" r) H).
Qed.

(** C4. Calling [send] again after a [send] has completed changes nothing:
    the response, its [sent] latch and everything written to the transport
    (status, headers, cookies and body) are those of the single call, and
    the latch is set. *)
Theorem send_twice_is_send_once (r : SockressResponse) (w : list Emitted) (p1 p2 : JsVal) :
  on_channel (send p2) (on_channel (send p1) (r, w)) = on_channel (send p1) (r, w) /\
  sent (fst (on_channel (send p1) (r, w))) = true.
Proof.
  unfold on_channel. cbn [fst snd].
  pose proof (send_sets_latch p1 r) as L.
  destruct (send p1 r) as [r1 e1] eqn:E1. cbn [fst snd] in *.
  rewrite (send_when_sent p2 r1 L). split; [|exact L].
  now rewrite app_nil_r.
Qed.

End ResponseFacts.
Import ResponseFacts.

(* ===================================================================== *)
(** ** The dispatch engine *)
(* ===================================================================== *)

Module EngineFacts.

Lemma idx_exhausted err st : idx (exhausted err st) = idx st.
Proof.
  unfold exhausted. destruct (truthy err); [reflexivity|].
  destruct (negb _); reflexivity.
Qed.

Section Run.
Variable stack : list PipelineLayer.

(** *** Termination *)

Lemma exec_total nxt (bound : nat) :
  (forall e st, bound <= idx st ->
                exists st', nxt e st = Some st' /\ idx st < idx st') ->
  forall p st, bound <= idx st ->
               exists st', exec nxt p st = Some st' /\ idx st <= idx st'.
Proof.
  intros Hn. induction p; intros st Hb; cbn [exec].
  - eauto.
  - destruct (Hn e (record (EvCaught e (isSent (res st))) st) Hb) as (st' & E & L).
    exists st'. split; [exact E|]. cbn in L. lia.
  - apply (IHp (on_res (status code) st) Hb).
  - apply (IHp (on_res (set field value) st) Hb).
  - apply (IHp (on_res (cookie serialized) st) Hb).
  - apply (IHp (write (send payload) st) Hb).
  - apply (IHp (write (json payload) st) Hb).
  - apply (IHp (set_params params st) Hb).
  - destruct (Hn err st Hb) as (st1 & E & L). rewrite E.
    destruct (IHp st1 ltac:(lia)) as (st2 & E2 & L2).
    exists st2. split; [exact E2|lia].
  - destruct (isSent (res st)); [apply IHp1 | apply IHp2]; exact Hb.
Qed.

Lemma next_total fuel : forall err st,
  length stack <= fuel + idx st ->
  exists st', next stack fuel err st = Some st' /\ idx st < idx st'.
Proof.
  induction fuel as [|fuel IH]; intros err st Hf; cbn [next].
  - destruct (nth_error stack (idx st)) eqn:E.
    + assert (idx st < length stack) by (apply nth_error_Some; congruence). lia.
    + eexists. split; [reflexivity|]. rewrite idx_exhausted. cbn. lia.
  - destruct (nth_error stack (idx st)) as [layer|] eqn:E.
    + assert (Hb : forall e st0, S (idx st) <= idx st0 ->
                exists st', next stack fuel e st0 = Some st' /\ idx st0 < idx st').
      { intros e st0 H0. apply IH. lia. }
      destruct (truthy err), (isErrorHandler layer).
      * destruct (exec_total _ _ Hb (fn_call (handler layer) (Some err))
                    (record (EvInvoke (idx st) err) (advance st)) (le_n _))
          as (st' & E' & L). exists st'. split; [exact E'|]. cbn in L. lia.
      * destruct (Hb err (record (EvSkip (idx st) err) (advance st)) (le_n _))
          as (st' & E' & L). exists st'. split; [exact E'|]. cbn in L. lia.
      * destruct (Hb VUndefined (record (EvSkip (idx st) err) (advance st)) (le_n _))
          as (st' & E' & L). exists st'. split; [exact E'|]. cbn in L. lia.
      * destruct (exec_total _ _ Hb (fn_call (handler layer) None)
                    (record (EvInvoke (idx st) err) (advance st)) (le_n _))
          as (st' & E' & L). exists st'. split; [exact E'|]. cbn in L. lia.
    + eexists. split; [reflexivity|]. rewrite idx_exhausted. cbn. lia.
Qed.

(** *** Unwinding on an error *)

(** With no error handler in the stack, [next(err)] on a pending error
    passes over every remaining layer and renders the error. *)
Lemma next_unwinds (Hno : no_error_handlers stack) e (He : truthy e = true) fuel :
  forall st st', next stack fuel e st = Some st' ->
    res st' = fst (renderError e (res st)) /\
    wire st' = wire st ++ snd (renderError e (res st)) /\
    exists evs,
      trace st' = trace st ++ evs ++ [EvExhausted e (isSent (res st))] /\
      Forall (fun ev => exists i l, ev = EvSkip i e /\ nth_error stack i = Some l /\
                                    isErrorHandler l = false) evs.
Proof.
  assert (Hx : forall st,
            res (exhausted e (advance st)) = fst (renderError e (res st)) /\
            wire (exhausted e (advance st)) = wire st ++ snd (renderError e (res st)) /\
            trace (exhausted e (advance st)) = trace st ++ [EvExhausted e (isSent (res st))]).
  { intros st. unfold exhausted. rewrite He. cbn. auto. }
  induction fuel as [|fuel IH]; intros st st' E; cbn [next] in E.
  - destruct (nth_error stack (idx st)) eqn:N; [discriminate|].
    injection E as <-. destruct (Hx st) as (R & W & T).
    repeat split; [exact R|exact W|]. exists []. split; [exact T|constructor].
  - destruct (nth_error stack (idx st)) as [layer|] eqn:N.
    + assert (L : isErrorHandler layer = false).
      { unfold no_error_handlers in Hno. rewrite Forall_forall in Hno.
        apply Hno. apply list_elem_of_In. eapply nth_error_In; eauto. }
      rewrite He, L in E. apply IH in E as (R & W & evs & T & F).
      cbn in R, W, T. repeat split; [exact R|exact W|].
      exists (EvSkip (idx st) e :: evs). split.
      * rewrite T. now rewrite <- app_assoc.
      * constructor; [|exact F]. eauto.
    + injection E as <-. destruct (Hx st) as (R & W & T).
      repeat split; [exact R|exact W|]. exists []. split; [exact T|constructor].
Qed.

(** *** Invariants of a run *)

Section Invariant.
Variable P : PipelineState -> Prop.
Hypothesis P_exhausted : forall err st,
  nth_error stack (idx st) = None -> P st -> P (exhausted err (advance st)).
Hypothesis P_invoke : forall err st l,
  nth_error stack (idx st) = Some l -> isErrorHandler l = truthy err ->
  P st -> P (record (EvInvoke (idx st) err) (advance st)).
Hypothesis P_skip : forall err st l,
  nth_error stack (idx st) = Some l -> isErrorHandler l = negb (truthy err) ->
  P st -> P (record (EvSkip (idx st) err) (advance st)).
Hypothesis P_status : forall c st, P st -> P (on_res (status c) st).
Hypothesis P_set : forall f v st, P st -> P (on_res (set f v) st).
Hypothesis P_cookie : forall c st, P st -> P (on_res (cookie c) st).
Hypothesis P_send : forall v st, P st -> P (write (send v) st).
Hypothesis P_json : forall v st, P st -> P (write (json v) st).
Hypothesis P_params : forall ps st, P st -> P (set_params ps st).
Hypothesis P_throw : forall fuel e st st',
  P st ->
  next stack fuel e (record (EvCaught e (isSent (res st))) st) = Some st' ->
  (P (record (EvCaught e (isSent (res st))) st) -> P st') ->
  P st'.

Lemma exec_invariant fuel :
  (forall err st st', next stack fuel err st = Some st' -> P st -> P st') ->
  forall p st st', exec (next stack fuel) p st = Some st' -> P st -> P st'.
Proof.
  intros Hn. induction p; intros st st' E H; cbn [exec] in E.
  - now injection E as <-.
  - apply (P_throw fuel e st st' H E). intros H'. exact (Hn _ _ _ E H').
  - exact (IHp _ _ E (P_status _ _ H)).
  - exact (IHp _ _ E (P_set _ _ _ H)).
  - exact (IHp _ _ E (P_cookie _ _ H)).
  - exact (IHp _ _ E (P_send _ _ H)).
  - exact (IHp _ _ E (P_json _ _ H)).
  - exact (IHp _ _ E (P_params _ _ H)).
  - destruct (next stack fuel err st) as [st1|] eqn:E1; [|discriminate].
    exact (IHp _ _ E (Hn _ _ _ E1 H)).
  - destruct (isSent (res st)); [exact (IHp1 _ _ E H) | exact (IHp2 _ _ E H)].
Qed.

Lemma next_invariant fuel : forall err st st',
  next stack fuel err st = Some st' -> P st -> P st'.
Proof.
  induction fuel as [|fuel IH]; intros err st st' E H; cbn [next] in E.
  - destruct (nth_error stack (idx st)) eqn:N; [discriminate|].
    injection E as <-. now apply P_exhausted.
  - destruct (nth_error stack (idx st)) as [layer|] eqn:N.
    + destruct (truthy err) eqn:T, (isErrorHandler layer) eqn:L.
      * apply (exec_invariant fuel IH _ _ _ E).
        apply (P_invoke err st layer N); [congruence|exact H].
      * apply (IH _ _ _ E). apply (P_skip err st layer N); [now rewrite T|exact H].
      * apply (IH _ _ _ E). apply (P_skip err st layer N); [now rewrite T|exact H].
      * apply (exec_invariant fuel IH _ _ _ E).
        apply (P_invoke err st layer N); [congruence|exact H].
    + injection E as <-. now apply P_exhausted.
Qed.
End Invariant.

(** *** The invariant of the engine *)

Lemma event_ok_from_empty w ev : event_ok stack [] ev -> event_ok stack w ev.
Proof.
  destruct ev as [i e|i e|e [|]|e [|]]; cbn; try easy.
  - intros (x & H & _). discriminate.
  - intros H Hno He. destruct (H Hno He) as (x & Hx & _). discriminate.
Qed.

(** A step that writes nothing. *)
Lemma inv_step_quiet m0 st st' evs :
  inv stack m0 st ->
  sent (res st') = sent (res st) -> mode (res st') = mode (res st) ->
  wire st' = wire st -> trace st' = trace st ++ evs ->
  Forall (event_ok stack (wire st)) evs ->
  inv stack m0 st'.
Proof.
  intros (W & (M & T) & F) Hs Hm Hw Ht He. repeat split.
  - unfold wire_ok. now rewrite Hw, Hs.
  - now rewrite Hm.
  - rewrite Hw in H. exact (proj1 (T x m H H0)).
  - rewrite Hw in H. exact (proj2 (T x m H H0)).
  - rewrite Ht, Hw. apply Forall_app. split; assumption.
Qed.

(** The step that writes the one item of the response. *)
Lemma inv_step_first_write m0 st st' evs x :
  inv stack m0 st ->
  sent (res st) = false -> sent (res st') = true -> mode (res st') = mode (res st) ->
  wire st' = wire st ++ [x] ->
  (forall m, emitted_message x = Some m ->
             msg_type m = MsgResponse /\
             exists rid, mode (res st) = ModeSocket rid /\ msg_id m = Some rid) ->
  trace st' = trace st ++ evs ->
  Forall (event_ok stack [x]) evs ->
  inv stack m0 st'.
Proof.
  intros (W & (M & T) & F) Hs Hs' Hm Hw Hx Ht He.
  unfold wire_ok in W. rewrite Hs in W.
  destruct (wire st) as [|? ?] eqn:Ew; [|discriminate]. cbn in Hw.
  repeat split.
  - unfold wire_ok. now rewrite Hw, Hs'.
  - now rewrite Hm.
  - rewrite Hw in H. destruct H as [<-|[]]. exact (proj1 (Hx m H0)).
  - rewrite Hw in H. destruct H as [<-|[]].
    destruct (Hx m H0) as (_ & rid & Hr & Hi). exists rid. split; congruence.
  - rewrite Ht, Hw. apply Forall_app. split; [|exact He].
    eapply Forall_impl; [exact F|]. intros ev. apply event_ok_from_empty.
Qed.

Lemma writer_send v : writer (send v).
Proof.
  intros r. repeat split.
  - apply send_sets_latch.
  - apply send_mode.
  - apply send_emits_when_sent.
  - intros H. destruct (send_emits_when_unsent v r H) as (x & E & _ & _ & Hm). eauto.
Qed.

Lemma writer_json v : writer (json v).
Proof.
  intros r. repeat split.
  - apply json_sets_latch.
  - apply json_mode.
  - apply json_emits_when_sent.
  - intros H. destruct (json_emits_when_unsent v r H) as (x & E & _ & _ & Hm). eauto.
Qed.

Lemma writer_not_found : writer respond_not_found.
Proof.
  intros r. unfold respond_not_found.
  destruct (writer_json not_found_body (status 404 r)) as (A & B & C & D).
  split; [exact A|]. split; [exact B|]. split; [exact C|exact D].
Qed.

Lemma writer_renderError e : writer (renderError e).
Proof.
  intros r. unfold renderError, isSent. destruct (sent r) eqn:S.
  - repeat split; try assumption; try reflexivity. discriminate.
  - destruct (writer_json (error_body e) (status 500 r)) as (A & B & C & D).
    split; [exact A|]. split; [exact B|]. split; [discriminate|].
    intros _. apply D. exact S.
Qed.

Lemma not_found_unsent r :
  sent r = false -> exists x, snd (respond_not_found r) = [x] /\ is_not_found x.
Proof.
  intros H. unfold respond_not_found.
  destruct (json_emits_when_unsent not_found_body (status 404 r) H) as (x & E & S & P & _).
  exists x. split; [exact E|]. split; [exact S|]. now apply (P _ eq_refl).
Qed.

Lemma renderError_unsent e r :
  sent r = false -> exists x, snd (renderError e r) = [x] /\ is_server_error e x.
Proof.
  intros H. unfold renderError, isSent. rewrite H.
  destruct (json_emits_when_unsent (error_body e) (status 500 r) H) as (x & E & S & P & _).
  exists x. split; [exact E|]. split; [exact S|]. now apply (P _ eq_refl).
Qed.

(** A write through the latch, together with the events [evs] recorded
    around it, keeps the invariant once the events are justified by the
    item written (or, on a sent response, by what is on the wire). *)
Lemma inv_write_events m0 f st st' evs :
  writer f -> inv stack m0 st ->
  res st' = fst (f (res st)) -> wire st' = wire st ++ snd (f (res st)) ->
  trace st' = trace st ++ evs ->
  (sent (res st) = true -> Forall (event_ok stack (wire st)) evs) ->
  (sent (res st) = false ->
   forall x, snd (f (res st)) = [x] -> Forall (event_ok stack [x]) evs) ->
  inv stack m0 st'.
Proof.
  intros Hf Hi Hr Hw Ht Hsent Hunsent.
  destruct (Hf (res st)) as (L & M & Ws & Wu).
  destruct (sent (res st)) eqn:S.
  - apply (inv_step_quiet m0 st st' evs Hi); auto.
    + rewrite Hr, L. now rewrite S.
    + now rewrite Hr.
    + rewrite Hw, (Ws eq_refl). apply app_nil_r.
  - destruct (Wu eq_refl) as (x & Ex & Hx).
    apply (inv_step_first_write m0 st st' evs x Hi); auto.
    + now rewrite Hr.
    + now rewrite Hr.
    + now rewrite Hw, Ex.
Qed.

Lemma inv_write m0 f st : writer f -> inv stack m0 st -> inv stack m0 (write f st).
Proof.
  intros Hf Hi. apply (inv_write_events m0 f st _ [] Hf Hi); cbn; auto.
  now rewrite app_nil_r.
Qed.

Lemma inv_on_res m0 f st :
  (forall r, sent (f r) = sent r /\ mode (f r) = mode r) ->
  inv stack m0 st -> inv stack m0 (on_res f st).
Proof.
  intros Hf Hi. destruct (Hf (res st)) as (A & B).
  apply (inv_step_quiet m0 st _ [] Hi); cbn; auto. now rewrite app_nil_r.
Qed.

Lemma inv_record m0 ev st :
  event_ok stack (wire st) ev -> inv stack m0 st -> inv stack m0 (record ev (advance st)).
Proof.
  intros He Hi. apply (inv_step_quiet m0 st _ [ev] Hi); cbn; auto.
Qed.

Lemma inv_exhausted m0 err st :
  inv stack m0 st -> inv stack m0 (exhausted err (advance st)).
Proof.
  intros Hi. unfold exhausted. cbn [res advance]. unfold isSent.
  destruct (sent (res st)) eqn:S.
  - assert (H1 : inv stack m0 (record (EvExhausted err true) (advance st))).
    { apply (inv_step_quiet m0 st _ [EvExhausted err true] Hi); cbn; auto.
      repeat constructor. }
    destruct (truthy err); cbn [negb]; [|exact H1].
    apply inv_write; [apply writer_renderError|exact H1].
  - destruct (truthy err) eqn:T; cbn [negb].
    + apply (inv_write_events m0 (renderError err) st _
               [EvExhausted err false] (writer_renderError err) Hi); cbn; auto.
      * congruence.
      * intros _ x Ex. repeat constructor. exists x. split; [reflexivity|]. rewrite T.
        destruct (renderError_unsent err (res st) S) as (y & Ey & Hy). congruence.
    + apply (inv_write_events m0 respond_not_found st _
               [EvExhausted err false] writer_not_found Hi); cbn; auto.
      * congruence.
      * intros _ x Ex. repeat constructor. exists x. split; [reflexivity|]. rewrite T.
        destruct (not_found_unsent (res st) S) as (y & Ey & Hy). congruence.
Qed.

Lemma inv_next m0 fuel err st st' :
  next stack fuel err st = Some st' -> inv stack m0 st -> inv stack m0 st'.
Proof.
  revert fuel err st st'. apply next_invariant.
  - intros err st _. apply inv_exhausted.
  - intros err st l N L. apply inv_record. cbn. eauto.
  - intros err st l N L. apply inv_record. cbn. eauto.
  - intros c st. apply inv_on_res. intros r. split; reflexivity.
  - intros f v st. apply inv_on_res. intros r. split; reflexivity.
  - intros c st. apply inv_on_res. intros r. split; reflexivity.
  - intros v st. apply inv_write, writer_send.
  - intros v st. apply inv_write, writer_json.
  - intros ps st Hi. apply (inv_step_quiet m0 st _ [] Hi); cbn; auto.
    now rewrite app_nil_r.
  - intros fuel e st st' Hi E IH. unfold isSent in *.
    destruct (sent (res st)) eqn:S.
    { apply IH. apply (inv_step_quiet m0 st _ [EvCaught e true] Hi); cbn; auto.
      repeat constructor. }
    destruct (truthy e) eqn:T.
    2:{ apply IH. apply (inv_step_quiet m0 st _ [EvCaught e false] Hi); cbn; auto.
        repeat constructor. intros _ ?. congruence. }
    destruct (decide (Forall (fun l => isErrorHandler l = false) stack)) as [Hno|Hno].
    2:{ apply IH. apply (inv_step_quiet m0 st _ [EvCaught e false] Hi); cbn; auto.
        repeat constructor. intros ? _. contradiction. }
    destruct (next_unwinds Hno e T fuel _ _ E) as (R & W & evs & Tr & F).
    cbn in R, W, Tr. unfold isSent in Tr. rewrite S in Tr.
    apply (inv_write_events m0 (renderError e) st st'
             ([EvCaught e false] ++ evs ++ [EvExhausted e false])
             (writer_renderError e) Hi R W).
    + rewrite Tr. now rewrite <- app_assoc.
    + congruence.
    + intros _ x Ex.
      destruct (renderError_unsent e (res st) S) as (y & Ey & Hy).
      assert (y = x) as -> by congruence.
      apply Forall_app. split; [|apply Forall_app; split].
      * repeat constructor. intros _ _. eauto.
      * eapply Forall_impl; [exact F|]. intros ev (i & l & -> & N & L).
        cbn. exists l. rewrite T. auto.
      * repeat constructor. exists x. rewrite T. auto.
Qed.

(** *** Once sent, nothing more is written *)

Lemma next_frozen fuel err st st' :
  next stack fuel err st = Some st' -> sent (res st) = true ->
  wire st' = wire st /\ sent (res st') = true.
Proof.
  intros E S.
  refine (next_invariant (fun s => wire s = wire st /\ sent (res s) = true)
            _ _ _ _ _ _ _ _ _ _ fuel err st st' E (conj eq_refl S)).
  - intros e s _ (W & L). unfold exhausted, isSent. cbn [res advance].
    rewrite L. destruct (truthy e); cbn.
    + unfold renderError, isSent. rewrite L. cbn. now rewrite app_nil_r.
    + auto.
  - intros e s l _ _ H. exact H.
  - intros e s l _ _ H. exact H.
  - intros c s H. exact H.
  - intros f v s H. exact H.
  - intros c s H. exact H.
  - intros v s (W & L). cbn. rewrite (send_when_sent v _ L). cbn.
    now rewrite app_nil_r.
  - intros v s (W & L). cbn. unfold json.
    rewrite (send_when_sent v (set _ _ (res s)) L). cbn. now rewrite app_nil_r.
  - intros ps s H. exact H.
  - intros f e s s' H _ IH. apply IH. exact H.
Qed.

End Run.

(** *** Composition *)

Lemma compose_routes_no_error_handlers app method path rs :
  Forall (fun r => Forall (fun h => is_arity4 h = false) (rt_handlers r)) rs ->
  forall stack ps stack' ps',
    no_error_handlers stack ->
    compose_routes app method path rs stack ps = ComposeStack stack' ps' ->
    no_error_handlers stack'.
Proof.
  induction 1 as [|r rs Hr Hrs IH]; intros stack ps stack' ps' Hs E; cbn in E.
  - now injection E as <- <-.
  - destruct (negb _ && negb _); [exact (IH _ _ _ _ Hs E)|].
    destruct (match_path (rt_matcher r) path) as [|params|]; [exact (IH _ _ _ _ Hs E)| |discriminate].
    refine (IH _ _ _ _ _ E). unfold no_error_handlers in *.
    apply Forall_app. split; [exact Hs|]. apply Forall_app. split.
    + unfold param_layers. apply Forall_flat_map. apply Forall_forall. intros kv _.
      destruct (paramHandlers app !! kv.1); repeat constructor.
    + apply Forall_map. eapply Forall_impl; [exact Hr|].
      intros h Hh. cbn. unfold wrap_route. now rewrite Hh.
Qed.

Lemma composeStack_no_error_handlers app req stack ps :
  no_error_handler_registered app ->
  composeStack app req = ComposeStack stack ps -> no_error_handlers stack.
Proof.
  intros (Hm & Hr) E. unfold composeStack in E.
  refine (compose_routes_no_error_handlers _ _ _ _ Hr _ _ _ _ _ E).
  unfold no_error_handlers. apply Forall_flat_map.
  eapply Forall_impl; [exact Hm|]. intros l Hl.
  destruct (matchesPrefix _ _); repeat constructor. exact Hl.
Qed.

(** *** Whole runs *)

(** A run never needs more fuel than the length of the stack, and its final
    state satisfies the invariant. *)
Lemma runPipeline_inv app req m c o :
  match runPipeline app req (create m c o) with
  | Settled st =>
      exists stack ps, composeStack app req = ComposeStack stack ps /\ inv stack m st
  | Rejected _ => composeStack app req = ComposeThrows
  | OutOfFuel => False
  end.
Proof.
  unfold runPipeline. destruct (composeStack app req) as [|stack ps]; [reflexivity|].
  destruct (next_total stack (length stack) VUndefined
              (initial_state (with_params ps req) (create m c o))) as (st & E & _).
  { cbn. lia. }
  rewrite E. exists stack, ps. split; [reflexivity|].
  apply (inv_next stack m _ _ _ _ E).
  split; [reflexivity|]. split; [|constructor].
  split; [reflexivity|]. intros x msg [].
Qed.

End EngineFacts.

(* ===================================================================== *)
(** ** Statements about the dispatch engine *)
(* ===================================================================== *)

Module EngineProps.
Import EngineFacts.

(** Middleware under [/api] runs before the route handler, which sees the
    captured parameter. *)
Example middleware_then_route :
  exists st x,
    runPipeline api_app (get_request "/api/users/7") (create ModeHttp default_cors "*")
      = Settled st /\
    trace st = [EvInvoke 0 VUndefined; EvInvoke 1 VUndefined] /\
    req_params (req st) = [("id", "7")] /\
    wire st = [x] /\ emitted_status x = 200%Z.
Proof.
  remember (runPipeline api_app (get_request "/api/users/7") (create ModeHttp default_cors "*"))
    as r eqn:E.
  vm_compute in E. subst r. eexists _, _. repeat split.
Qed.


(** *** Skipping *)

Lemma skip_layers_fields n : forall err err' st,
  idx (skip_layers n err err' st) = (idx st + n)%nat /\
  res (skip_layers n err err' st) = res st /\
  wire (skip_layers n err err' st) = wire st /\
  trace (skip_layers n err err' st) =
    trace st ++ match n with
                | O => []
                | S n' => EvSkip (idx st) err ::
                          map (fun i => EvSkip i err') (seq (S (idx st)) n')
                end.
Proof.
  induction n as [|n IH]; intros err err' st; cbn [skip_layers].
  - repeat split; [lia|now rewrite app_nil_r].
  - destruct (IH err' err' (record (EvSkip (idx st) err) (advance st))) as (I & R & W & T).
    cbn in I, R, W, T. repeat split; [lia|exact R|exact W|].
    rewrite T, <- app_assoc. cbn. do 2 f_equal.
    destruct n; reflexivity.
Qed.

Lemma next_skips_on_error stack n : forall fuel err st,
  truthy err = true ->
  (forall k, (k < n)%nat ->
             exists l, nth_error stack (idx st + k) = Some l /\ isErrorHandler l = false) ->
  next stack (n + fuel) err st = next stack fuel err (skip_layers n err err st).
Proof.
  induction n as [|n IH]; intros fuel err st T H; [reflexivity|].
  destruct (H 0%nat ltac:(lia)) as (l & N & L). rewrite Nat.add_0_r in N.
  cbn [Nat.add next skip_layers]. rewrite N, T, L.
  apply IH; [exact T|]. intros k Hk. cbn [idx record advance].
  destruct (H (S k) ltac:(lia)) as (l' & N' & L'). exists l'.
  split; [|exact L']. now replace (S (idx st) + k)%nat with (idx st + S k)%nat by lia.
Qed.

Lemma next_skips_on_success stack n : forall fuel err st,
  truthy err = false ->
  (forall k, (k < n)%nat ->
             exists l, nth_error stack (idx st + k) = Some l /\ isErrorHandler l = true) ->
  next stack (n + fuel) err st =
  next stack fuel (match n with O => err | S _ => VUndefined end)
       (skip_layers n err VUndefined st).
Proof.
  induction n as [|n IH]; intros fuel err st T H; [reflexivity|].
  destruct (H 0%nat ltac:(lia)) as (l & N & L). rewrite Nat.add_0_r in N.
  cbn [Nat.add next skip_layers]. rewrite N, T, L.
  rewrite IH; [destruct n; reflexivity|reflexivity|].
  intros k Hk. cbn [idx record advance].
  destruct (H (S k) ltac:(lia)) as (l' & N' & L'). exists l'.
  split; [|exact L']. now replace (S (idx st) + k)%nat with (idx st + S k)%nat by lia.
Qed.

(** C3. While an error is pending, [next] passes over every layer that is
    not an error handler without calling it, with the same error, and calls
    the first error handler it reaches with that error; while no error is
    pending it passes over every error handler and calls the first normal
    layer. Over a whole run, a handler called with a pending error is an
    error handler, a handler called without one is not, and a layer passed
    over is the opposite. *)
Theorem skip_until_error_handler (stack : list PipelineLayer) :
  (forall n fuel err st l,
      truthy err = true ->
      (forall k, (k < n)%nat ->
                 exists l', nth_error stack (idx st + k) = Some l' /\
                            isErrorHandler l' = false) ->
      nth_error stack (idx st + n) = Some l -> isErrorHandler l = true ->
      next stack (n + S fuel) err st =
        exec (next stack fuel) (fn_call (handler l) (Some err))
             (record (EvInvoke (idx st + n) err) (advance (skip_layers n err err st))) /\
      trace (skip_layers n err err st) =
        trace st ++ map (fun i => EvSkip i err) (seq (idx st) n)) /\
  (forall n fuel st l,
      (forall k, (k < n)%nat ->
                 exists l', nth_error stack (idx st + k) = Some l' /\
                            isErrorHandler l' = true) ->
      nth_error stack (idx st + n) = Some l -> isErrorHandler l = false ->
      next stack (n + S fuel) VUndefined st =
        exec (next stack fuel) (fn_call (handler l) None)
             (record (EvInvoke (idx st + n) VUndefined)
                     (advance (skip_layers n VUndefined VUndefined st))) /\
      trace (skip_layers n VUndefined VUndefined st) =
        trace st ++ map (fun i => EvSkip i VUndefined) (seq (idx st) n)) /\
  (forall fuel m0 err st st',
      inv stack m0 st -> next stack fuel err st = Some st' ->
      forall i e,
        (In (EvInvoke i e) (trace st') ->
         exists l, nth_error stack i = Some l /\ isErrorHandler l = truthy e) /\
        (In (EvSkip i e) (trace st') ->
         exists l, nth_error stack i = Some l /\ isErrorHandler l = negb (truthy e))).
Proof.
  split; [|split].
  - intros n fuel err st l T H N L.
    destruct (skip_layers_fields n err err st) as (I & _ & _ & Tr). split.
    + rewrite (next_skips_on_error stack n (S fuel) err st T H).
      cbn [next]. rewrite I, N, T, L. reflexivity.
    + rewrite Tr. f_equal. destruct n; reflexivity.
  - intros n fuel st l H N L.
    destruct (skip_layers_fields n VUndefined VUndefined st) as (I & _ & _ & Tr). split.
    + rewrite (next_skips_on_success stack n (S fuel) VUndefined st eq_refl H).
      replace (match n with O => VUndefined | S _ => VUndefined end) with VUndefined
        by (destruct n; reflexivity).
      cbn [next]. rewrite I, N, L. reflexivity.
    + rewrite Tr. f_equal. destruct n; reflexivity.
  - intros fuel m0 err st st' Hi E i e.
    destruct (inv_next stack m0 fuel err st st' E Hi) as (_ & _ & F).
    rewrite Forall_forall in F. split; intros Hin.
    + apply list_elem_of_In in Hin. exact (F _ Hin).
    + apply list_elem_of_In in Hin. exact (F _ Hin).
Qed.

Lemma skip_until_error_handler_witness :
  next recovering_stack 2 (VError "boom") after_first_layer =
    exec (next recovering_stack 1) (fn_call recover (Some (VError "boom")))
         (record (EvInvoke 2 (VError "boom"))
                 (advance (skip_layers 1 (VError "boom") (VError "boom") after_first_layer))) /\
  next guarded_stack 2 VUndefined start =
    exec (next guarded_stack 1) (fn_call pass_through None)
         (record (EvInvoke 1 VUndefined)
                 (advance (skip_layers 1 VUndefined VUndefined start))) /\
  (forall st', next recovering_stack 3 VUndefined start = Some st' ->
               In (EvInvoke 2 (VError "boom")) (trace st') ->
               exists l, nth_error recovering_stack 2 = Some l /\ isErrorHandler l = true).
Proof.
  destruct (skip_until_error_handler recovering_stack) as (H & _ & R).
  destruct (skip_until_error_handler guarded_stack) as (_ & G & _).
  split; [|split].
  - destruct (H 1%nat 1%nat (VError "boom") after_first_layer
                {| handler := recover; isErrorHandler := true |}) as [E _].
    + reflexivity.
    + intros k Hk. assert (k = 0)%nat as -> by lia.
      eexists. split; reflexivity.
    + reflexivity.
    + reflexivity.
    + exact E.
  - destruct (G 1%nat 1%nat start {| handler := pass_through; isErrorHandler := false |})
      as [E _].
    + intros k Hk. assert (k = 0)%nat as -> by lia.
      eexists. split; reflexivity.
    + reflexivity.
    + reflexivity.
    + exact E.
  - intros st' E Hin.
    refine (proj1 (R 3%nat ModeHttp VUndefined start st' _ E 2%nat (VError "boom")) Hin).
    split; [reflexivity|]. split; [|constructor].
    split; [reflexivity|]. intros x m [].
Defined.

End EngineProps.

(* ===================================================================== *)
(** ** The dispatch engine on a transport that may refuse a write *)
(* ===================================================================== *)

Module PlatformFacts.
Import ResponseFacts EngineFacts.

(** *** A write on a transport *)

(** Whatever the transport says, the state after a write is the state
    [write] computes: the latch is set and the item is on the list of what
    was handed over. The transport decides whether the call returns. *)
Lemma conclude_send refuses v st :
  conclude (send_on refuses v (res st)) st =
  match thrown_on refuses (snd (send v (res st))) with
  | None => Returned (write (send v) st)
  | Some e => Thrown e (write (send v) st)
  end.
Proof.
  unfold send_on, send, thrown_on, conclude, hand, write.
  destruct (sent (res st)); [reflexivity|]. cbv zeta.
  destruct (mode _); cbn [fst snd]; now destruct (refuses _).
Qed.

Lemma conclude_json refuses v st :
  conclude (json_on refuses v (res st)) st =
  match thrown_on refuses (snd (json v (res st))) with
  | None => Returned (write (json v) st)
  | Some e => Thrown e (write (json v) st)
  end.
Proof.
  unfold json_on, json.
  exact (conclude_send refuses v
           (on_res (set "content-type" "application/json; charset=utf-8") st)).
Qed.

Lemma conclude_renderError refuses err st :
  conclude (renderError_on refuses err (res st)) st =
  match thrown_on refuses (snd (renderError err (res st))) with
  | None => Returned (write (renderError err) st)
  | Some e => Thrown e (write (renderError err) st)
  end.
Proof.
  destruct (isSent (res st)) eqn:S.
  - unfold renderError_on, renderError, write. rewrite S. reflexivity.
  - unfold renderError_on, renderError, write. rewrite S.
    exact (conclude_json refuses (error_body err) (on_res (status 500) st)).
Qed.

Lemma conclude_not_found refuses st :
  conclude (respond_not_found_on refuses (res st)) st =
  match thrown_on refuses (snd (respond_not_found (res st))) with
  | None => Returned (write respond_not_found st)
  | Some e => Thrown e (write respond_not_found st)
  end.
Proof.
  unfold respond_not_found_on, respond_not_found.
  exact (conclude_json refuses not_found_body (on_res (status 404) st)).
Qed.

(** The state an exhaustion leaves is the one [exhausted] computes. *)
Lemma exhausted_on_state refuses err st :
  state_of (exhausted_on refuses err st) = exhausted err st.
Proof.
  unfold exhausted_on, exhausted. destruct (truthy err).
  - rewrite conclude_renderError. now destruct (thrown_on _ _).
  - destruct (negb _); [|reflexivity].
    rewrite conclude_not_found. now destruct (thrown_on _ _).
Qed.

(** On a response that was sent, an exhaustion returns. *)
Lemma exhausted_on_sent refuses err st :
  sent (res st) = true ->
  exists st', exhausted_on refuses err st = Returned st' /\
              wire st' = wire st /\ res st' = res st /\ idx st' = idx st /\
              trace st' = trace st ++ [EvExhausted err true].
Proof.
  intros S. unfold exhausted_on, isSent. cbn [res record]. rewrite S. cbn [negb].
  destruct (truthy err).
  - unfold renderError_on, isSent. cbn [res record]. rewrite S. cbn [conclude hand].
    eexists. split; [reflexivity|]. cbn. rewrite app_nil_r. auto.
  - eexists. split; [reflexivity|]. cbn. auto.
Qed.

(** What the transport throws on, it was handed. *)
Lemma exhausted_on_thrown refuses err st e s :
  exhausted_on refuses err st = Thrown e s ->
  exists x, In x (wire s) /\ refuses x = Some e.
Proof.
  assert (G : forall a st0, conclude a st0 = Thrown e s ->
              (forall e' r x, a = Refused e' r x -> refuses x = Some e') ->
              exists x, In x (wire s) /\ refuses x = Some e).
  { intros [r items|e' r x] st0 E H; cbn in E; [discriminate|].
    injection E as <- <-. exists x. split; [|now apply (H e' r x)].
    cbn. apply in_or_app. right. now left. }
  assert (Sn : forall v r e' r' x, send_on refuses v r = Refused e' r' x -> refuses x = Some e').
  { intros v r e' r' x E. unfold send_on in E. destruct (sent r); [discriminate|].
    cbv zeta in E. destruct (refuses _) eqn:R; [|discriminate].
    injection E as <- <- <-. exact R. }
  unfold exhausted_on. destruct (truthy err).
  - intros E. apply (G _ _ E). intros e' r x Ea. unfold renderError_on in Ea.
    destruct (isSent _); [discriminate|]. exact (Sn _ _ _ _ _ Ea).
  - destruct (negb _); [|discriminate].
    intros E. apply (G _ _ E). intros e' r x Ea. exact (Sn _ _ _ _ _ Ea).
Qed.

Section RunOn.
Variable refuses : Transport.
Variable stack : list PipelineLayer.

Lemma next_on_beyond fuel err st :
  nth_error stack (idx st) = None ->
  next_on refuses stack fuel err st = Some (exhausted_on refuses err (advance st)).
Proof. intros N. destruct fuel; cbn [next_on]; now rewrite N. Qed.

(** *** Termination *)

Lemma exec_on_total nxt (bound : nat) :
  (forall e st, bound <= idx st ->
                exists o, nxt e st = Some o /\ idx st < idx (state_of o)) ->
  forall p st, bound <= idx st ->
               exists o, exec_on refuses nxt p st = Some o /\ idx st <= idx (state_of o).
Proof.
  intros Hn. induction p; intros st Hb; cbn [exec_on].
  - eauto.
  - eauto.
  - apply (IHp (on_res (status code) st) Hb).
  - apply (IHp (on_res (set field value) st) Hb).
  - apply (IHp (on_res (cookie serialized) st) Hb).
  - rewrite conclude_send. destruct (thrown_on _ _).
    + eexists. split; [reflexivity|]. cbn. lia.
    + apply (IHp (write (send payload) st) Hb).
  - rewrite conclude_json. destruct (thrown_on _ _).
    + eexists. split; [reflexivity|]. cbn. lia.
    + apply (IHp (write (json payload) st) Hb).
  - apply (IHp (set_params params st) Hb).
  - destruct (Hn err st Hb) as ([st1|e st1] & E & L); rewrite E; cbn in L.
    + destruct (IHp st1 ltac:(lia)) as (o & E2 & L2). exists o. split; [exact E2|lia].
    + eexists. split; [reflexivity|]. cbn. lia.
  - destruct (isSent (res st)); [apply IHp1 | apply IHp2]; exact Hb.
Qed.

Lemma next_on_total fuel : forall err st,
  length stack <= fuel + idx st ->
  exists o, next_on refuses stack fuel err st = Some o /\ idx st < idx (state_of o).
Proof.
  induction fuel as [|fuel IH]; intros err st Hf; cbn [next_on].
  - destruct (nth_error stack (idx st)) eqn:E.
    + assert (idx st < length stack) by (apply nth_error_Some; congruence). lia.
    + eexists. split; [reflexivity|]. rewrite exhausted_on_state, idx_exhausted. cbn. lia.
  - destruct (nth_error stack (idx st)) as [layer|] eqn:E.
    + assert (Hb : forall e st0, S (idx st) <= idx st0 ->
                exists o, next_on refuses stack fuel e st0 = Some o /\
                          idx st0 < idx (state_of o)).
      { intros e st0 H0. apply IH. lia. }
      assert (Hc : forall body,
                 (exists o, body = Some o /\ S (idx st) <= idx (state_of o)) ->
                 exists o, caught (next_on refuses stack fuel) body = Some o /\
                           idx st < idx (state_of o)).
      { intros body ([s1|e s1] & -> & L); cbn in L; cbn [caught].
        - eexists. split; [reflexivity|]. cbn. lia.
        - destruct (Hb e (record (EvCaught e (isSent (res s1))) s1)) as (o & Eo & Lo);
            [cbn; lia|]. exists o. split; [exact Eo|]. cbn in Lo. lia. }
      apply Hc. destruct (truthy err), (isErrorHandler layer).
      * apply (exec_on_total _ _ Hb). cbn. lia.
      * destruct (Hb err (record (EvSkip (idx st) err) (advance st))) as (o & Eo & Lo);
          [cbn; lia|]. exists o. split; [exact Eo|]. cbn in Lo. lia.
      * destruct (Hb VUndefined (record (EvSkip (idx st) err) (advance st))) as (o & Eo & Lo);
          [cbn; lia|]. exists o. split; [exact Eo|]. cbn in Lo. lia.
      * apply (exec_on_total _ _ Hb). cbn. lia.
    + eexists. split; [reflexivity|]. rewrite exhausted_on_state, idx_exhausted. cbn. lia.
Qed.

(** *** Invariants of a run *)

Section InvariantOn.
Variable P : PipelineState -> Prop.
Hypothesis P_exhausted : forall err st,
  nth_error stack (idx st) = None -> P st -> P (exhausted err (advance st)).
Hypothesis P_invoke : forall err st l,
  nth_error stack (idx st) = Some l -> isErrorHandler l = truthy err ->
  P st -> P (record (EvInvoke (idx st) err) (advance st)).
Hypothesis P_skip : forall err st l,
  nth_error stack (idx st) = Some l -> isErrorHandler l = negb (truthy err) ->
  P st -> P (record (EvSkip (idx st) err) (advance st)).
Hypothesis P_status : forall c st, P st -> P (on_res (status c) st).
Hypothesis P_set : forall f v st, P st -> P (on_res (set f v) st).
Hypothesis P_cookie : forall c st, P st -> P (on_res (cookie c) st).
Hypothesis P_send : forall v st, P st -> P (write (send v) st).
Hypothesis P_json : forall v st, P st -> P (write (json v) st).
Hypothesis P_params : forall ps st, P st -> P (set_params ps st).
Hypothesis P_caught : forall fuel e st o,
  P st ->
  next_on refuses stack fuel e (record (EvCaught e (isSent (res st))) st) = Some o ->
  (P (record (EvCaught e (isSent (res st))) st) -> P (state_of o)) ->
  P (state_of o).

Lemma exec_on_invariant fuel :
  (forall err st o, next_on refuses stack fuel err st = Some o -> P st -> P (state_of o)) ->
  forall p st o, exec_on refuses (next_on refuses stack fuel) p st = Some o ->
                 P st -> P (state_of o).
Proof.
  intros Hn. induction p; intros st o E H; cbn [exec_on] in E.
  - now injection E as <-.
  - now injection E as <-.
  - exact (IHp _ _ E (P_status _ _ H)).
  - exact (IHp _ _ E (P_set _ _ _ H)).
  - exact (IHp _ _ E (P_cookie _ _ H)).
  - rewrite conclude_send in E. destruct (thrown_on _ _).
    + injection E as <-. exact (P_send _ _ H).
    + exact (IHp _ _ E (P_send _ _ H)).
  - rewrite conclude_json in E. destruct (thrown_on _ _).
    + injection E as <-. exact (P_json _ _ H).
    + exact (IHp _ _ E (P_json _ _ H)).
  - exact (IHp _ _ E (P_params _ _ H)).
  - destruct (next_on refuses stack fuel err st) as [[st1|e st1]|] eqn:E1; [| |discriminate].
    + exact (IHp _ _ E (Hn _ _ _ E1 H)).
    + injection E as <-. exact (Hn _ _ _ E1 H).
  - destruct (isSent (res st)); [exact (IHp1 _ _ E H) | exact (IHp2 _ _ E H)].
Qed.

Lemma next_on_invariant fuel : forall err st o,
  next_on refuses stack fuel err st = Some o -> P st -> P (state_of o).
Proof.
  induction fuel as [|fuel IH]; intros err st o E H; cbn [next_on] in E.
  - destruct (nth_error stack (idx st)) eqn:N; [discriminate|].
    injection E as <-. rewrite exhausted_on_state. now apply P_exhausted.
  - destruct (nth_error stack (idx st)) as [layer|] eqn:N.
    + assert (Hc : forall body,
                 (forall o1, body = Some o1 -> P (state_of o1)) ->
                 caught (next_on refuses stack fuel) body = Some o -> P (state_of o)).
      { intros [[s1|e s1]|] Hb Ec; cbn [caught] in Ec; [|  |discriminate].
        - apply (Hb _ Ec).
        - apply (P_caught fuel e s1 o (Hb _ eq_refl) Ec). intros H'. exact (IH _ _ _ Ec H'). }
      refine (Hc _ _ E). clear Hc E. intros o1 E1.
      destruct (truthy err) eqn:T, (isErrorHandler layer) eqn:L.
      * apply (exec_on_invariant fuel IH _ _ _ E1).
        apply (P_invoke err st layer N); [congruence|exact H].
      * apply (IH _ _ _ E1). apply (P_skip err st layer N); [now rewrite T|exact H].
      * apply (IH _ _ _ E1). apply (P_skip err st layer N); [now rewrite T|exact H].
      * apply (exec_on_invariant fuel IH _ _ _ E1).
        apply (P_invoke err st layer N); [congruence|exact H].
    + injection E as <-. rewrite exhausted_on_state. now apply P_exhausted.
Qed.
End InvariantOn.

(** *** Once the latch is set, nothing more is handed over *)

Lemma next_on_frozen fuel err st o :
  next_on refuses stack fuel err st = Some o -> sent (res st) = true ->
  wire (state_of o) = wire st /\ sent (res (state_of o)) = true.
Proof.
  intros E S.
  refine (next_on_invariant (fun s => wire s = wire st /\ sent (res s) = true)
            _ _ _ _ _ _ _ _ _ _ fuel err st o E (conj eq_refl S)).
  - intros e s _ (W & L). unfold exhausted, isSent. cbn [res advance].
    rewrite L. destruct (truthy e); cbn.
    + unfold renderError, isSent. rewrite L. cbn. now rewrite app_nil_r.
    + auto.
  - intros e s l _ _ H. exact H.
  - intros e s l _ _ H. exact H.
  - intros c s H. exact H.
  - intros f v s H. exact H.
  - intros c s H. exact H.
  - intros v s (W & L). cbn. rewrite (send_when_sent v _ L). cbn.
    now rewrite app_nil_r.
  - intros v s (W & L). cbn. unfold json.
    rewrite (send_when_sent v (set _ _ (res s)) L). cbn. now rewrite app_nil_r.
  - intros ps s H. exact H.
  - intros f e s s' H _ IH. apply IH. exact H.
Qed.

(** What a call of [next] throws is what the transport threw on an item it
    was handed. *)
Lemma next_on_thrown fuel : forall err st e s,
  next_on refuses stack fuel err st = Some (Thrown e s) ->
  exists x, In x (wire s) /\ refuses x = Some e.
Proof.
  induction fuel as [|fuel IH]; intros err st e s E; cbn [next_on] in E.
  - destruct (nth_error stack (idx st)); [discriminate|].
    injection E as E. exact (exhausted_on_thrown _ _ _ _ _ E).
  - destruct (nth_error stack (idx st)).
    + match type of E with caught _ ?b = _ => destruct b as [[s1|e1 s1]|] end;
        cbn [caught] in E; [discriminate| |discriminate].
      exact (IH _ _ _ _ E).
    + injection E as E. exact (exhausted_on_thrown _ _ _ _ _ E).
Qed.

(** *** Unwinding on an error *)

(** With no error handler in the stack, [next(err)] on a pending error
    passes over every remaining layer and hands the transport the 500 that
    renders the error; when the transport refuses it, the frame of the last
    layer catches what it throws and finds the latch set. *)
Lemma next_on_unwinds (Hno : no_error_handlers stack) e (He : truthy e = true) fuel :
  forall st o, next_on refuses stack fuel e st = Some o ->
    res (state_of o) = fst (renderError e (res st)) /\
    wire (state_of o) = wire st ++ snd (renderError e (res st)) /\
    nth_error stack (idx (state_of o)) = None /\
    exists evs,
      trace (state_of o) = trace st ++ evs /\
      Forall (fun ev => ev = EvExhausted e (isSent (res st)) \/
                        (exists i l, ev = EvSkip i e /\ nth_error stack i = Some l /\
                                     isErrorHandler l = false) \/
                        (exists e1, ev = EvCaught e1 true) \/
                        (exists e1, ev = EvExhausted e1 true)) evs.
Proof.
  assert (Hx : forall st, nth_error stack (idx st) = None ->
            res (exhausted e (advance st)) = fst (renderError e (res st)) /\
            wire (exhausted e (advance st)) = wire st ++ snd (renderError e (res st)) /\
            nth_error stack (idx (exhausted e (advance st))) = None /\
            trace (exhausted e (advance st)) = trace st ++ [EvExhausted e (isSent (res st))]).
  { intros st N. unfold exhausted. rewrite He.
    split; [reflexivity|]. split; [reflexivity|]. split; [|reflexivity].
    apply nth_error_None in N. apply nth_error_None.
    change (idx (write (renderError e)
                   (record (EvExhausted e (isSent (res (advance st)))) (advance st))))
      with (S (idx st)). lia. }
  assert (Base : forall st o, nth_error stack (idx st) = None ->
            Some (exhausted_on refuses e (advance st)) = Some o ->
            res (state_of o) = fst (renderError e (res st)) /\
            wire (state_of o) = wire st ++ snd (renderError e (res st)) /\
            nth_error stack (idx (state_of o)) = None /\
            exists evs,
              trace (state_of o) = trace st ++ evs /\
              Forall (fun ev => ev = EvExhausted e (isSent (res st)) \/
                        (exists i l, ev = EvSkip i e /\ nth_error stack i = Some l /\
                                     isErrorHandler l = false) \/
                        (exists e1, ev = EvCaught e1 true) \/
                        (exists e1, ev = EvExhausted e1 true)) evs).
  { intros st o N E. injection E as <-. rewrite exhausted_on_state.
    destruct (Hx st N) as (R & W & I & T). repeat split; [exact R|exact W|exact I|].
    exists [EvExhausted e (isSent (res st))]. split; [exact T|].
    constructor; [now left|constructor]. }
  induction fuel as [|fuel IH]; intros st o E; cbn [next_on] in E.
  - destruct (nth_error stack (idx st)) eqn:N; [discriminate|]. exact (Base st o N E).
  - destruct (nth_error stack (idx st)) as [layer|] eqn:N; [|exact (Base st o N E)].
    assert (Ll : isErrorHandler layer = false).
    { unfold no_error_handlers in Hno. rewrite Forall_forall in Hno.
      apply Hno. apply list_elem_of_In. eapply nth_error_In; eauto. }
    rewrite He, Ll in E.
    destruct (next_on refuses stack fuel e (record (EvSkip (idx st) e) (advance st)))
      as [o1|] eqn:E1; [|discriminate].
    destruct (IH (record (EvSkip (idx st) e) (advance st)) o1 E1)
      as (R & W & I & evs & T & F). cbn in R, W, T.
    assert (F' : Forall (fun ev => ev = EvExhausted e (isSent (res st)) \/
                        (exists i l, ev = EvSkip i e /\ nth_error stack i = Some l /\
                                     isErrorHandler l = false) \/
                        (exists e1, ev = EvCaught e1 true) \/
                        (exists e1, ev = EvExhausted e1 true))
                   (EvSkip (idx st) e :: evs)).
    { constructor; [right; left; eauto|exact F]. }
    destruct o1 as [s1|e1 s1]; cbn [caught] in E; cbn [state_of] in R, W, I, T.
    + injection E as <-. cbn [state_of]. repeat split; [exact R|exact W|exact I|].
      exists (EvSkip (idx st) e :: evs). split; [now rewrite T, <- app_assoc|exact F'].
    + destruct (next_on_thrown _ _ _ _ _ E1) as (x & Hin & Rx).
      assert (L : sent (res s1) = true).
      { rewrite R. destruct (writer_renderError e (res st)) as (L & _). exact L. }
      rewrite next_on_beyond in E by exact I. injection E as <-.
      unfold isSent. rewrite L.
      destruct (exhausted_on_sent refuses e1 (advance (record (EvCaught e1 true) s1)) L)
        as (s2 & -> & W2 & R2 & I2 & T2). cbn [state_of]. cbn in W2, R2, I2, T2.
      repeat split.
      * now rewrite R2.
      * now rewrite W2.
      * apply nth_error_None. apply nth_error_None in I. lia.
      * exists (EvSkip (idx st) e :: evs ++ [EvCaught e1 true; EvExhausted e1 true]). split.
        -- rewrite T2, T, <- !app_assoc. reflexivity.
        -- rewrite app_comm_cons. apply Forall_app. split; [exact F'|].
           constructor; [right; right; left; eauto|].
           constructor; [right; right; right; eauto|constructor].
Qed.

(** *** The invariant of the engine holds on every transport *)

Lemma inv_next_on m0 fuel err st o :
  next_on refuses stack fuel err st = Some o -> inv stack m0 st -> inv stack m0 (state_of o).
Proof.
  revert fuel err st o. apply next_on_invariant.
  - intros err st _. apply inv_exhausted.
  - intros err st l N L. apply inv_record. cbn. eauto.
  - intros err st l N L. apply inv_record. cbn. eauto.
  - intros c st. apply inv_on_res. intros r. split; reflexivity.
  - intros f v st. apply inv_on_res. intros r. split; reflexivity.
  - intros c st. apply inv_on_res. intros r. split; reflexivity.
  - intros v st. apply inv_write, writer_send.
  - intros v st. apply inv_write, writer_json.
  - intros ps st Hi. apply (inv_step_quiet stack m0 st _ [] Hi); cbn; auto.
    now rewrite app_nil_r.
  - intros fuel e st o Hi E IH. unfold isSent in *.
    destruct (sent (res st)) eqn:S.
    { apply IH. apply (inv_step_quiet stack m0 st _ [EvCaught e true] Hi); cbn; auto.
      repeat constructor. }
    destruct (truthy e) eqn:T.
    2:{ apply IH. apply (inv_step_quiet stack m0 st _ [EvCaught e false] Hi); cbn; auto.
        repeat constructor. intros _ ?. congruence. }
    destruct (decide (Forall (fun l => isErrorHandler l = false) stack)) as [Hno|Hno].
    2:{ apply IH. apply (inv_step_quiet stack m0 st _ [EvCaught e false] Hi); cbn; auto.
        repeat constructor. intros ? _. contradiction. }
    destruct (next_on_unwinds Hno e T fuel (record (EvCaught e false) st) o E)
      as (R & W & _ & evs & Tr & F).
    cbn in R, W, Tr. unfold isSent in F. cbn in F. rewrite S in F.
    apply (inv_write_events stack m0 (renderError e) st (state_of o)
             ([EvCaught e false] ++ evs) (writer_renderError e) Hi R W).
    + rewrite Tr. now rewrite <- app_assoc.
    + congruence.
    + intros _ x Ex.
      destruct (renderError_unsent e (res st) S) as (y & Ey & Hy).
      assert (y = x) as -> by congruence.
      apply Forall_app. split.
      * repeat constructor. intros _ _. eauto.
      * eapply Forall_impl; [exact F|].
        intros ev [->|[(i & l & -> & N & L)|[(e1 & ->)|(e1 & ->)]]]; cbn.
        -- exists x. rewrite T. auto.
        -- exists l. rewrite T. auto.
        -- exact I.
        -- exact I.
Qed.

(** *** Handlers that hand the request on *)

Lemma visits_append tr tr' : visits (tr ++ tr') = visits tr ++ visits tr'.
Proof.
  unfold visits. induction tr as [|ev tr IH]; [reflexivity|]. cbn.
  destruct (layer_of ev); cbn; now rewrite IH.
Qed.

Lemma exhausted_visits err st :
  visits (trace (exhausted err st)) = visits (trace st) /\
  idx (exhausted err st) = idx st.
Proof.
  unfold exhausted. cbv zeta.
  destruct (truthy err); [|destruct (negb _)]; cbn [write record trace idx];
    rewrite visits_append; cbn; now rewrite app_nil_r.
Qed.

Lemma exec_sets_only nxt p :
  sets_only p = true ->
  forall st, exists st', exec_on refuses nxt p st = Some (Returned st') /\
                         wire st' = wire st /\ sent (res st') = sent (res st) /\
                         trace st' = trace st /\ idx st' = idx st.
Proof.
  induction p; intros H st; try discriminate; cbn [exec_on].
  - eauto 6.
  - destruct (IHp H (on_res (status code) st)) as (s & E & W & L & T & I). eauto 6.
  - destruct (IHp H (on_res (set field value) st)) as (s & E & W & L & T & I). eauto 6.
  - destruct (IHp H (on_res (cookie serialized) st)) as (s & E & W & L & T & I). eauto 6.
  - destruct (IHp H (set_params params st)) as (s & E & W & L & T & I). eauto 6.
Qed.

(** A stack of layers that hand the request on is walked to its end, every
    layer once and in order, and answered with the 404. *)
Lemma next_on_forwarding (Hf : Forall (fun l => forwards l = true) stack) fuel :
  forall err st o,
    truthy err = false -> sent (res st) = false -> wire st = [] ->
    (idx st <= length stack)%nat ->
    next_on refuses stack fuel err st = Some o ->
    sent (res (state_of o)) = true /\
    (exists x, wire (state_of o) = [x] /\ is_not_found x) /\
    visits (trace (state_of o)) =
      visits (trace st) ++ seq (idx st) (length stack - idx st) /\
    (length stack < idx (state_of o))%nat.
Proof.
  pose (answered := fun (V : list nat) (o : Outcome) =>
          sent (res (state_of o)) = true /\
          (exists x, wire (state_of o) = [x] /\ is_not_found x) /\
          visits (trace (state_of o)) = V /\
          (length stack < idx (state_of o))%nat).
  assert (Base : forall err st o,
            truthy err = false -> sent (res st) = false -> wire st = [] ->
            (idx st <= length stack)%nat -> nth_error stack (idx st) = None ->
            Some (exhausted_on refuses err (advance st)) = Some o ->
            answered (visits (trace st) ++ seq (idx st) (length stack - idx st)) o).
  { intros err st o T Su W I N E. injection E as <-. unfold answered.
    rewrite exhausted_on_state.
    destruct (exhausted_visits err (advance st)) as (V1 & I1). rewrite V1, I1.
    apply nth_error_None in N.
    replace (length stack - idx st)%nat with 0%nat by lia.
    unfold exhausted. rewrite T. unfold isSent. cbn [res advance]. rewrite Su. cbn [negb].
    destruct (not_found_unsent (res st) Su) as (x & Ex & Hx).
    destruct (writer_not_found (res st)) as (L & _).
    cbn. split; [exact L|]. split; [exists x; rewrite W, Ex; auto|].
    split; [now rewrite app_nil_r|lia]. }
  assert (Catch : forall V fuel body o,
            (forall o1, body = Some o1 -> answered V o1) ->
            caught (next_on refuses stack fuel) body = Some o ->
            answered V o).
  { intros V fuel0 [[s1|e1 s1]|] o Hb E; cbn [caught] in E; [| |discriminate].
    - exact (Hb _ E).
    - destruct (Hb _ eq_refl) as (L & (x & W & Hx) & Vs & I). cbn in L, W, Vs, I.
      destruct (next_on_frozen _ _ _ _ E L) as (W2 & L2). cbn in W2.
      rewrite next_on_beyond in E by (apply nth_error_None; cbn; lia).
      injection E as <-. unfold answered. rewrite exhausted_on_state in *.
      destruct (exhausted_visits e1 (advance (record (EvCaught e1 (isSent (res s1))) s1)))
        as (V1 & I1). rewrite V1, I1. cbn [trace idx advance record].
      split; [exact L2|]. split; [exists x; split; [congruence|exact Hx]|].
      split; [|lia]. rewrite visits_append. cbn. now rewrite app_nil_r. }
  change (forall err st o,
            truthy err = false -> sent (res st) = false -> wire st = [] ->
            (idx st <= length stack)%nat ->
            next_on refuses stack fuel err st = Some o ->
            answered (visits (trace st) ++ seq (idx st) (length stack - idx st)) o).
  induction fuel as [|fuel IH]; intros err st o T Su W I E; cbn [next_on] in E.
  - destruct (nth_error stack (idx st)) eqn:N; [discriminate|].
    exact (Base err st o T Su W I N E).
  - destruct (nth_error stack (idx st)) as [layer|] eqn:N;
      [|exact (Base err st o T Su W I N E)].
    assert (Fl : forwards layer = true).
    { rewrite Forall_forall in Hf. apply Hf. apply list_elem_of_In.
      eapply nth_error_In; eauto. }
    assert (Lt : (idx st < length stack)%nat).
    { apply nth_error_Some. congruence. }
    assert (Sq : seq (idx st) (length stack - idx st) =
                 idx st :: seq (S (idx st)) (length stack - S (idx st))).
    { replace (length stack - idx st)%nat with (S (length stack - S (idx st))) by lia.
      reflexivity. }
    assert (Ex : forall p s o1,
               hands_on p = true -> sent (res s) = false -> wire s = [] ->
               (idx s <= length stack)%nat ->
               exec_on refuses (next_on refuses stack fuel) p s = Some o1 ->
               answered (visits (trace s) ++ seq (idx s) (length stack - idx s)) o1).
    { induction p; intros s o1 H S0 W0 I0 E1; try discriminate; cbn [exec_on hands_on] in *.
      - exact (IHp (on_res (status code) s) o1 H S0 W0 I0 E1).
      - exact (IHp (on_res (set field value) s) o1 H S0 W0 I0 E1).
      - exact (IHp (on_res (cookie serialized) s) o1 H S0 W0 I0 E1).
      - exact (IHp (set_params params s) o1 H S0 W0 I0 E1).
      - apply andb_true_iff in H as [Hn Hk]. apply negb_true_iff in Hn.
        destruct (next_on refuses stack fuel err0 s) as [[s1|e1 s1]|] eqn:En;
          [| |discriminate].
        + destruct (IH err0 s _ Hn S0 W0 I0 En) as (L1 & (x & W1 & Hx) & V1 & I1).
          cbn in L1, W1, V1, I1.
          destruct (exec_sets_only (next_on refuses stack fuel) p Hk s1)
            as (s2 & E2 & W2 & L2 & T2 & I2).
          rewrite E2 in E1. injection E1 as <-. unfold answered. cbn.
          split; [congruence|]. split; [exists x; split; [congruence|exact Hx]|].
          split; [congruence|lia].
        + injection E1 as <-. exact (IH err0 s _ Hn S0 W0 I0 En). }
    rewrite T in E. refine (Catch _ fuel _ o _ E). intros o1 E1.
    rewrite Sq.
    destruct (isErrorHandler layer) eqn:L.
    + pose proof (IH VUndefined (record (EvSkip (idx st) err) (advance st)) o1
                    eq_refl Su W Lt E1) as Q.
      cbn [trace idx advance record] in Q. rewrite visits_append in Q. cbn in Q.
      rewrite <- app_assoc in Q. exact Q.
    + unfold forwards in Fl. rewrite L in Fl. cbn [orb] in Fl.
      pose proof (Ex _ (record (EvInvoke (idx st) err) (advance st)) o1 Fl Su W Lt E1) as Q.
      cbn [trace idx advance record] in Q. rewrite visits_append in Q. cbn in Q.
      rewrite <- app_assoc in Q. exact Q.
Qed.

(** *** A handler that throws at once *)

Lemma exec_throws_at_once nxt e p :
  throws_at_once e p ->
  forall st, exists st', exec_on refuses nxt p st = Some (Thrown e st') /\
                         wire st' = wire st /\ sent (res st') = sent (res st).
Proof.
  induction p; intros H st; try destruct H; cbn [exec_on].
  - eauto.
  - destruct (IHp H (on_res (status code) st)) as (s & E & W & L). eauto.
  - destruct (IHp H (on_res (set field value) st)) as (s & E & W & L). eauto.
  - destruct (IHp H (on_res (cookie serialized) st)) as (s & E & W & L). eauto.
  - destruct (IHp H (set_params params st)) as (s & E & W & L). eauto.
Qed.

Lemma next_on_throws_at_once (Hno : no_error_handlers stack) fuel err st o l e :
  truthy err = false -> sent (res st) = false -> wire st = [] ->
  nth_error stack (idx st) = Some l ->
  throws_at_once e (fn_call (handler l) None) -> truthy e = true ->
  next_on refuses stack fuel err st = Some o ->
  sent (res (state_of o)) = true /\
  exists x, wire (state_of o) = [x] /\ is_server_error e x.
Proof.
  intros T S W N Ht He E. destruct fuel as [|fuel]; cbn [next_on] in E; rewrite N in E;
    [discriminate|].
  assert (Ll : isErrorHandler l = false).
  { unfold no_error_handlers in Hno. rewrite Forall_forall in Hno.
    apply Hno. apply list_elem_of_In. eapply nth_error_In; eauto. }
  rewrite T, Ll in E.
  destruct (exec_throws_at_once (next_on refuses stack fuel) e _ Ht
              (record (EvInvoke (idx st) err) (advance st))) as (s1 & E1 & W1 & L1).
  rewrite E1 in E. cbn [caught] in E. cbn in W1, L1.
  destruct (next_on_unwinds Hno e He fuel _ o E) as (R & Wo & _).
  cbn in R, Wo.
  assert (S1 : sent (res s1) = false) by congruence.
  destruct (renderError_unsent e (res s1) S1) as (x & Ex & Hx).
  destruct (writer_renderError e (res s1)) as (L & _).
  split; [now rewrite R|]. exists x. split; [|exact Hx]. rewrite Wo, Ex. 
  replace (wire s1) with (@nil Emitted) by congruence. reflexivity.
Qed.

(** *** A transport that takes every write *)

Lemma exec_on_accepting fuel :
  (forall err st, next_on accepting stack fuel err st =
                  option_map Returned (next stack fuel err st)) ->
  forall p st,
    caught (next_on accepting stack fuel)
           (exec_on accepting (next_on accepting stack fuel) p st) =
    option_map Returned (exec (next stack fuel) p st).
Proof.
  intros Hn. induction p; intros st; cbn [exec_on exec].
  - reflexivity.
  - cbn [caught]. apply Hn.
  - apply IHp.
  - apply IHp.
  - apply IHp.
  - rewrite conclude_send. unfold thrown_on, accepting.
    destruct (snd (send payload (res st))); apply IHp.
  - rewrite conclude_json. unfold thrown_on, accepting.
    destruct (snd (json payload (res st))); apply IHp.
  - apply IHp.
  - rewrite Hn. destruct (next stack fuel err st) as [st1|]; cbn [option_map]; [apply IHp|].
    reflexivity.
  - destruct (isSent (res st)); [apply IHp1|apply IHp2].
Qed.

Lemma next_on_accepting fuel : forall err st,
  next_on accepting stack fuel err st = option_map Returned (next stack fuel err st).
Proof.
  induction fuel as [|fuel IH]; intros err st; cbn [next_on next].
  - destruct (nth_error stack (idx st)); [reflexivity|]. cbn [option_map]. f_equal.
    unfold exhausted_on, exhausted. destruct (truthy err).
    + rewrite conclude_renderError. unfold thrown_on, accepting.
      now destruct (snd (renderError err _)).
    + destruct (negb _); [|reflexivity]. rewrite conclude_not_found.
      unfold thrown_on, accepting. now destruct (snd (respond_not_found _)).
  - destruct (nth_error stack (idx st)) as [layer|].
    + destruct (truthy err), (isErrorHandler layer).
      * apply (exec_on_accepting fuel IH).
      * rewrite IH. now destruct (next stack fuel err _).
      * rewrite IH. now destruct (next stack fuel VUndefined _).
      * apply (exec_on_accepting fuel IH).
    + cbn [option_map]. f_equal.
      unfold exhausted_on, exhausted. destruct (truthy err).
      * rewrite conclude_renderError. unfold thrown_on, accepting.
        now destruct (snd (renderError err _)).
      * destruct (negb _); [|reflexivity]. rewrite conclude_not_found.
        unfold thrown_on, accepting. now destruct (snd (respond_not_found _)).
Qed.

End RunOn.

(** *** Whole runs *)

(** A run on a transport composes the stack and calls [next()] with fuel
    enough to end. *)
Lemma runPipeline_on_runs refuses app req r :
  match runPipeline_on refuses app req r with
  | RunRejected _ => composeStack app req = ComposeThrows
  | RunSettled st =>
      exists stack ps, composeStack app req = ComposeStack stack ps /\
        next_on refuses stack (length stack) VUndefined
                (initial_state (with_params ps req) r) = Some (Returned st)
  | RunEscaped e st =>
      exists stack ps, composeStack app req = ComposeStack stack ps /\
        next_on refuses stack (length stack) VUndefined
                (initial_state (with_params ps req) r) = Some (Thrown e st)
  | RunOutOfFuel => False
  end.
Proof.
  unfold runPipeline_on. destruct (composeStack app req) as [|stack ps]; [reflexivity|].
  destruct (next_on_total refuses stack (length stack) VUndefined
              (initial_state (with_params ps req) r)) as ([st|e st] & E & _).
  { cbn. lia. }
  - rewrite E. eauto.
  - rewrite E. eauto.
Qed.

Lemma inv_initial stack m c o req :
  inv stack m (initial_state req (create m c o)).
Proof.
  split; [reflexivity|]. split; [|constructor].
  split; [reflexivity|]. intros x msg [].
Qed.

(** On a transport that takes every write, a run is the run of
    [runPipeline]. *)
Lemma runPipeline_on_accepting app req r :
  runPipeline_on accepting app req r =
  match runPipeline app req r with
  | Rejected message => RunRejected message
  | Settled st => RunSettled st
  | OutOfFuel => RunOutOfFuel
  end.
Proof.
  unfold runPipeline_on, runPipeline. destruct (composeStack app req) as [|stack ps];
    [reflexivity|].
  rewrite next_on_accepting. now destruct (next stack _ _ _).
Qed.

Lemma taken_one refuses x :
  taken refuses [x] = match refuses x with None => [x] | Some _ => [] end.
Proof. unfold taken. cbn. now destruct (refuses x). Qed.

Lemma taken_length refuses w : (length (taken refuses w) <= length w)%nat.
Proof.
  unfold taken. induction w as [|x w IH]; cbn; [lia|].
  destruct (refuses x); cbn; lia.
Qed.

End PlatformFacts.

(* ===================================================================== *)
(** ** Statements about the synthetic responses of the engine *)
(* ===================================================================== *)

Module RefusalProps.
Import ResponseFacts EngineFacts PlatformFacts.






End RefusalProps.

(* ===================================================================== *)
(** ** Statements about the server transport adapter *)
(* ===================================================================== *)

Module ServerProps.
Import EngineFacts.

Lemma includes_In l x : includes l x = true <-> In x l.
Proof.
  induction l as [|y l IH]; cbn.
  - split; [discriminate|intros []].
  - rewrite orb_true_iff, IH. split.
    + intros [H|H]; [left; now apply String.eqb_eq|now right].
    + intros [H|H]; [left; now apply String.eqb_eq|now right].
Qed.

(** C9. Whatever the configured allow-list, an upgrade request without an
    [Origin] header passes the origin check and, on the socket path, is
    accepted; the connection is destroyed for its origin only when the
    header is present (and not empty) and the origin is not allow-listed. *)
Theorem absent_origin_is_accepted (app : SockressApp) (pathname : string) :
  (forall allowed, isOriginAllowed None allowed = true) /\
  on_upgrade app pathname None <> DestroyedForOrigin /\
  (pathname = socket_path (opt_socket (config app)) ->
   on_upgrade app pathname None = UpgradeAccepted) /\
  (forall originHeader,
      on_upgrade app pathname originHeader = DestroyedForOrigin ->
      exists o, originHeader = Some o /\ o <> "" /\
                ~ allow_listed o (origin (opt_cors (config app)))).
Proof.
  split; [reflexivity|]. split; [|split].
  - unfold on_upgrade. destruct (negb _); discriminate.
  - intros ->. unfold on_upgrade. now rewrite String.eqb_refl.
  - intros [o|]; unfold on_upgrade.
    + destruct (negb (String.eqb pathname _)); [discriminate|].
      destruct (isOriginAllowed (Some o) _) eqn:A; [discriminate|]. intros _.
      exists o. split; [reflexivity|]. unfold isOriginAllowed in A.
      destruct (origin (opt_cors (config app))) as [a|l]; cbn.
      * destruct (String.eqb o "") eqn:Eo; [discriminate|].
        destruct (String.eqb a "*") eqn:Ea; [discriminate|]. cbn in A.
        apply String.eqb_neq in Eo, Ea, A. split; [exact Eo|]. intros [?|?]; contradiction.
      * destruct (String.eqb o "") eqn:Eo; [discriminate|].
        apply String.eqb_neq in Eo. split; [exact Eo|].
        intros Hin. apply includes_In in Hin. congruence.
    + destruct (negb (String.eqb pathname _)); discriminate.
Qed.

Lemma absent_origin_is_accepted_witness :
  on_upgrade app_one_origin "/sockress" None = UpgradeAccepted /\
  on_upgrade app_one_origin "/sockress" (Some "https://x.com") = DestroyedForOrigin /\
  ~ allow_listed "https://x.com" (origin (opt_cors (config app_one_origin))).
Proof.
  destruct (absent_origin_is_accepted app_one_origin "/sockress") as (_ & _ & A & D).
  split; [apply A; reflexivity|]. split; [reflexivity|].
  destruct (D (Some "https://x.com")) as (o & Ho & _ & Hn); [reflexivity|].
  injection Ho as <-. exact Hn.
Defined.

(** C10. A [request] envelope without an id is dispatched like any other.
    The request built from it has the generated id, the method of the
    envelope in capitals ([GET] when it names none), its path ([/] when it
    names none) and its body and files as any socket request has them; the
    response is created in socket mode under the generated id and the
    pipeline runs on that request. What is sent back is, item for item, what
    the same envelope carrying that id as its own would be answered, and
    every [response] envelope sent back carries the generated id. A client
    that has no pending entry under that id resolves nothing with it. *)
Theorem absent_id_gets_generated_id (app : SockressApp) (originHeader : option string)
    (nanoid : string) (payload : IncomingSocketMessage) :
  in_type payload = Some "request" -> in_id payload = None ->
  (req_id (socket_request payload nanoid) = nanoid /\
   req_method (socket_request payload nanoid) =
     toUpperCase (or_default (in_method payload) "GET") /\
   req_path (socket_request payload nanoid) = or_default (in_path payload) "/" /\
   req_body (socket_request payload nanoid) = body (normalizeBodyPayload (in_body payload)) /\
   req_files (socket_request payload nanoid) =
     files (normalizeBodyPayload (in_body payload)) /\
   req_type (socket_request payload nanoid) = KindSocket /\
   req_params (socket_request payload nanoid) = []) /\
  on_message app originHeader nanoid (FrameEnvelope payload) =
    match runPipeline app (socket_request payload nanoid)
            (create (ModeSocket nanoid) (opt_cors (config app))
                    (pickOrigin originHeader (origin (opt_cors (config app))))) with
    | Settled st => wire st
    | Rejected message => [EmitSocket (error_envelope message)]
    | OutOfFuel => []
    end /\
  (forall unused,
      on_message app originHeader nanoid (FrameEnvelope payload) =
      on_message app originHeader unused (FrameEnvelope (with_id nanoid payload))) /\
  (forall x m, In x (on_message app originHeader nanoid (FrameEnvelope payload)) ->
               emitted_message x = Some m -> msg_type m = MsgResponse ->
               msg_id m = Some nanoid) /\
  (forall c m, msg_type m = MsgResponse -> msg_id m = Some nanoid ->
               pending c !! nanoid = None ->
               handleSocketMessage (received m) c = c).
Proof.
  intros Ht Hi.
  assert (Hid : req_id (socket_request payload nanoid) = nanoid).
  { unfold socket_request. cbn. now rewrite Hi. }
  assert (Hrun : on_message app originHeader nanoid (FrameEnvelope payload) =
    match runPipeline app (socket_request payload nanoid)
            (create (ModeSocket nanoid) (opt_cors (config app))
                    (pickOrigin originHeader (origin (opt_cors (config app))))) with
    | Settled st => wire st
    | Rejected message => [EmitSocket (error_envelope message)]
    | OutOfFuel => []
    end).
  { unfold on_message. rewrite Ht, Hid. reflexivity. }
  split; [|split; [exact Hrun|split; [|split]]].
  - split; [exact Hid|]. repeat split.
  - intros unused. unfold on_message. cbn [with_id in_type]. rewrite Ht.
    assert (E : socket_request (with_id nanoid payload) unused =
                socket_request payload nanoid).
    { unfold socket_request. cbn [with_id in_id in_method in_path in_body nullish].
      now rewrite Hi. }
    now rewrite E.
  - intros x m. rewrite Hrun.
    pose proof (runPipeline_inv app (socket_request payload nanoid) (ModeSocket nanoid)
                  (opt_cors (config app))
                  (pickOrigin originHeader (origin (opt_cors (config app))))) as H.
    destruct (runPipeline _ _ _) as [msg|st|]; [| |contradiction].
    + intros [<-|[]] [= <-]. discriminate.
    + destruct H as (stack & ps & _ & _ & (_ & T) & _).
      intros Hin Hm _. destruct (T x m Hin Hm) as (_ & rid & [= <-] & Hr). exact Hr.
  - intros c m Hty Hmid Hp. unfold handleSocketMessage, received. cbn.
    rewrite Hty, Hmid. cbn. rewrite andb_false_r. cbn. now rewrite Hp.
Qed.

Lemma absent_id_gets_generated_id_witness :
  (exists m,
      on_message api_app None "V1StGXR8" (FrameEnvelope get_user_without_id) = [EmitSocket m] /\
      msg_status m = Some 200%Z /\ msg_body m = VObject [("ok", VBool true)] /\
      msg_id m = Some "V1StGXR8" /\
      handleSocketMessage (received m) waiting_client = waiting_client) /\
  (exists m,
      on_message api_app None "V1StGXR8" (FrameEnvelope post_user_without_id) = [EmitSocket m] /\
      msg_status m = Some 404%Z /\ msg_id m = Some "V1StGXR8") /\
  (exists m,
      on_message empty_app None "V1StGXR8" (FrameEnvelope ping_without_id) = [EmitSocket m] /\
      msg_status m = Some 404%Z /\ msg_id m = Some "V1StGXR8") /\
  req_method (socket_request get_user_without_id "V1StGXR8") = "GET" /\
  req_path (socket_request get_user_without_id "V1StGXR8") = "/api/users/7".
Proof.
  destruct (absent_id_gets_generated_id api_app None "V1StGXR8" get_user_without_id)
    as ((_ & Gm & Gp & _) & _ & _ & G & D); [reflexivity|reflexivity|].
  destruct (absent_id_gets_generated_id api_app None "V1StGXR8" post_user_without_id)
    as (_ & _ & _ & P & _); [reflexivity|reflexivity|].
  destruct (absent_id_gets_generated_id empty_app None "V1StGXR8" ping_without_id)
    as (_ & _ & _ & H & _); [reflexivity|reflexivity|].
  split; [|split; [|split; [|split; [exact Gm|exact Gp]]]].
  - remember (on_message api_app None "V1StGXR8" (FrameEnvelope get_user_without_id))
      as out eqn:E.
    vm_compute in E. subst out.
    eexists. split; [reflexivity|]. split; [reflexivity|]. split; [reflexivity|]. split.
    + eapply G; [left; reflexivity|reflexivity|reflexivity].
    + apply D; reflexivity.
  - remember (on_message api_app None "V1StGXR8" (FrameEnvelope post_user_without_id))
      as out eqn:E.
    vm_compute in E. subst out.
    eexists. split; [reflexivity|]. split; [reflexivity|].
    eapply P; [left; reflexivity|reflexivity|reflexivity].
  - remember (on_message empty_app None "V1StGXR8" (FrameEnvelope ping_without_id))
      as out eqn:E.
    vm_compute in E. subst out.
    eexists. split; [reflexivity|]. split; [reflexivity|].
    eapply H; [left; reflexivity|reflexivity|reflexivity].
Defined.

End ServerProps.

(* ===================================================================== *)
(** ** Statements about the path matcher *)
(* ===================================================================== *)

Module MatcherProps.

Lemma append_nil_l (b : string) : "" +:+ b = b.
Proof. reflexivity. Qed.

(** *** Percent-decoding *)

Lemma take_escape_length s b r :
  take_escape s = Some (b, r) -> (String.length s = String.length r + 3)%nat.
Proof.
  unfold take_escape. destruct s as [|c [|h [|l t]]]; try discriminate.
  destruct (Ascii.eqb c "%"); [|discriminate].
  destruct (hex_value h), (hex_value l); try discriminate.
  intros [= _ <-]. cbn. lia.
Qed.

Lemma take_continuations_length n : forall lo hi s bs r,
  take_continuations n lo hi s = Some (bs, r) -> (String.length r <= String.length s)%nat.
Proof.
  induction n as [|n IH]; intros lo hi s bs r; cbn [take_continuations].
  - intros [= _ <-]. lia.
  - destruct (take_escape s) as [[b t]|] eqn:E; [|discriminate].
    destruct (_ && _); [|discriminate].
    destruct (take_continuations n 128 191 t) as [[bs' r']|] eqn:C; [|discriminate].
    intros [= _ <-]. apply take_escape_length in E. apply IH in C. lia.
Qed.

(** The decoding loop never runs out of fuel: [None] is an error of the
    text, whatever fuel at least the length of the text is given. *)
Lemma decode_loop_fuel fuel : forall s extra,
  (String.length s <= fuel)%nat ->
  decode_loop (fuel + extra) s = decode_loop fuel s.
Proof.
  induction fuel as [|fuel IH]; intros s extra H.
  - destruct s; [now destruct extra|cbn in H; lia].
  - destruct s as [|c r]; [reflexivity|]. cbn [Nat.add decode_loop].
    destruct (Ascii.eqb c "%").
    + destruct (take_escape (String c r)) as [[lead r1]|] eqn:E; [|reflexivity].
      destruct (continuation_count lead) as [n|]; [|reflexivity].
      destruct (take_continuations n _ _ r1) as [[bs r2]|] eqn:C; [|reflexivity].
      apply take_escape_length in E. apply take_continuations_length in C.
      rewrite IH; [reflexivity|]. cbn in H, E. lia.
    + rewrite IH; [reflexivity|]. cbn in H. lia.
Qed.

Lemma append_cons (c : ascii) (a b : string) : String c a +:+ b = String c (a +:+ b).
Proof. reflexivity. Qed.

Lemma append_nil_r (a : string) : a +:+ "" = a.
Proof. induction a as [|x a IH]; [reflexivity|]. now rewrite append_cons, IH. Qed.

Lemma append_assoc (a b c : string) : (a +:+ b) +:+ c = a +:+ (b +:+ c).
Proof.
  induction a as [|x a IH]; [reflexivity|]. now rewrite !append_cons, IH.
Qed.

Lemma eqb_append_l (p a b : string) : String.eqb (p +:+ a) (p +:+ b) = String.eqb a b.
Proof.
  induction p as [|x p IH]; [reflexivity|].
  rewrite !append_cons. cbn. now rewrite Ascii.eqb_refl.
Qed.

Lemma strip_prefix_Some p : forall s rest, strip_prefix p s = Some rest -> s = p +:+ rest.
Proof.
  induction p as [|a p IH]; intros s rest H; cbn in H.
  - now injection H as ->.
  - destruct s as [|b s]; [discriminate|].
    destruct (Ascii.eqb a b) eqn:E; [|discriminate].
    apply Ascii.eqb_eq in E as ->. now rewrite append_cons, (IH _ _ H).
Qed.

Lemma strip_prefix_None p : forall s rest,
  strip_prefix p s = None -> String.eqb s (p +:+ rest) = false.
Proof.
  induction p as [|a p IH]; intros s rest H; cbn in H; [discriminate|].
  rewrite append_cons. destruct s as [|b s]; [reflexivity|]. cbn.
  rewrite (eqb_sym b a). destruct (Ascii.eqb a b); [now apply IH|reflexivity].
Qed.

(** A pattern of literal pieces matches the text it spells, with or without
    a trailing slash, and nothing else. *)
Lemma match_literals segs : forall input,
  match_pieces (map PLit segs) input =
  if String.eqb input (join_path segs) || String.eqb input (join_path segs +:+ "/")
  then Some [] else None.
Proof.
  induction segs as [|seg segs IH]; intros input; cbn [map match_pieces join_path].
  - reflexivity.
  - destruct (strip_prefix (String slash seg) input) as [rest|] eqn:E.
    + apply strip_prefix_Some in E as ->. rewrite IH.
      rewrite append_assoc, !eqb_append_l. reflexivity.
    + rewrite append_assoc.
      now rewrite !(strip_prefix_None _ _ _ E).
Qed.

Lemma split_aux_run s : forall cur rest,
  all_chars not_slash s = true ->
  split_slash_aux cur (s +:+ rest) = split_slash_aux (cur +:+ s) rest.
Proof.
  induction s as [|c s IH]; intros cur rest H.
  - now rewrite append_nil_l, append_nil_r.
  - cbn in H. apply andb_true_iff in H as [Hc Hs]. unfold not_slash in Hc.
    apply negb_true_iff in Hc. rewrite append_cons. cbn [split_slash_aux].
    rewrite Hc, (IH _ _ Hs). f_equal.
    now rewrite append_assoc, append_cons, append_nil_l.
Qed.

Lemma literal_no_slash seg : is_literal_segment seg = true -> all_chars not_slash seg = true.
Proof.
  destruct seg; [discriminate|]. unfold is_literal_segment.
  intros H. now apply andb_true_iff in H as [_ H].
Qed.

Lemma split_join segs : forall cur,
  Forall (fun seg => is_literal_segment seg = true) segs ->
  split_slash_aux cur (join_path segs) =
  match segs with [] => [cur] | _ :: _ => cur :: segs end.
Proof.
  induction segs as [|seg segs IH]; intros cur H; [reflexivity|].
  apply Forall_cons in H as [Hs H]. cbn [join_path].
  rewrite append_cons. cbn [split_slash_aux].
  rewrite Ascii.eqb_refl. f_equal.
  rewrite (split_aux_run seg "" _ (literal_no_slash _ Hs)), append_nil_l.
  rewrite (IH seg H). destruct segs; reflexivity.
Qed.

Lemma compile_literals segs :
  Forall (fun seg => is_literal_segment seg = true) segs ->
  compile_segments segs = (map PLit segs, []).
Proof.
  induction 1 as [|seg segs Hs _ IH]; [reflexivity|]. cbn [compile_segments map].
  rewrite IH. destruct seg as [|c r]; [discriminate|].
  unfold is_literal_segment in Hs.
  apply andb_true_iff in Hs as [Hs _]. apply andb_true_iff in Hs as [Hc Hstar].
  apply negb_true_iff in Hc, Hstar. unfold compile_segment. now rewrite Hc, Hstar.
Qed.

Lemma compile_empty_head segs : compile_segments ("" :: segs) = compile_segments segs.
Proof. cbn. now destruct (compile_segments segs). Qed.

(** C8 as stated fails: the literal pattern [/users] does not match the
    path [/%75sers], whose segment decodes to the same text. *)
Lemma encoded_literal_counterexample :
  ~ (forall lit seg d,
        is_literal_segment lit = true ->
        decodeURIComponent seg = Some d -> decodeURIComponent lit = Some d ->
        match_path (buildMatcher (String slash lit)) (String slash seg) <> MatchNull).
Proof.
  intros H. apply (H "users" "%75sers" "users"); reflexivity.
Qed.

(** C8, amended. A pattern made of literal segments matches exactly the
    paths that spell the same text, compared as raw strings (case-sensitive,
    nothing percent-decoded on either side), with or without a trailing
    slash; capture values are the only text that is percent-decoded. *)
Theorem literal_segments_match_raw (seg : string) (segs : list string) (incoming : string) :
  Forall (fun s => is_literal_segment s = true) (seg :: segs) ->
  match_path (buildMatcher (join_path (seg :: segs))) incoming =
  if String.eqb incoming (join_path (seg :: segs)) ||
     String.eqb incoming (join_path (seg :: segs) +:+ "/")
  then MatchParams [] else MatchNull.
Proof.
  intros H. pose proof H as H'. apply Forall_cons in H' as [Hs _].
  unfold buildMatcher.
  assert (E1 : String.eqb (join_path (seg :: segs)) "*" = false).
  { cbn [join_path]. rewrite append_cons. reflexivity. }
  assert (E2 : String.eqb (join_path (seg :: segs)) "/*" = false).
  { cbn [join_path]. rewrite append_cons. cbn [String.eqb]. rewrite Ascii.eqb_refl.
    destruct seg as [|c r]; [discriminate|]. rewrite append_cons. cbn [String.eqb].
    destruct (Ascii.eqb c "*") eqn:Ec; [|reflexivity].
    destruct (r +:+ join_path segs) eqn:Er; [|reflexivity].
    destruct r; [|discriminate]. apply Ascii.eqb_eq in Ec as ->. discriminate. }
  rewrite E1, E2. cbn [orb]. unfold split_slash.
  rewrite (split_join (seg :: segs) "" H), compile_empty_head.
  rewrite (compile_literals _ H). cbn [map]. unfold match_path. cbn [always pieces keys].
  change (PLit seg :: map PLit segs) with (map PLit (seg :: segs)).
  rewrite match_literals.
  destruct (String.eqb incoming "") eqn:E0.
  - apply String.eqb_eq in E0 as ->.
    destruct seg as [|c r]; [discriminate|]. reflexivity.
  - destruct (_ || _); reflexivity.
Qed.

Lemma literal_segments_match_raw_witness :
  match_path (buildMatcher "/api/users") "/api/users/" = MatchParams [] /\
  match_path (buildMatcher "/api/users") "/api/%75sers" = MatchNull /\
  match_path (buildMatcher "/api/users") "/api/Users" = MatchNull.
Proof.
  pose proof (literal_segments_match_raw "api" ["users"]) as H.
  split; [|split].
  - exact (H "/api/users/" ltac:(repeat constructor)).
  - exact (H "/api/%75sers" ltac:(repeat constructor)).
  - exact (H "/api/Users" ltac:(repeat constructor)).
Defined.

End MatcherProps.

(* ===================================================================== *)
(** ** Statements about the socket multipart codec *)
(* ===================================================================== *)

Module CodecProps.
Import Base64.

Lemma sextet_ok n :
  (n < 64)%nat ->
  char_sextet (sextet_char n) = Some n /\ Ascii.eqb (sextet_char n) "=" = false.
Proof.
  intros H. do 64 (destruct n as [|n]; [split; reflexivity|]). lia.
Qed.

Lemma sextets_cons n r : (n < 64)%nat -> sextets (String (sextet_char n) r) = n :: sextets r.
Proof.
  intros H. destruct (sextet_ok n H) as [C E]. cbn [sextets]. now rewrite E, C.
Qed.

Lemma byte_of_to_nat (b : Byte.byte) (n : nat) : n = Byte.to_nat b -> byte_of_nat n = b.
Proof.
  intros ->. unfold byte_of_nat.
  pose proof (Byte.to_nat_bounded b) as B.
  rewrite Nat.mod_small by lia. now rewrite Byte.of_to_nat.
Qed.

Lemma list_ind3 {A} (P : list A -> Prop) :
  P [] -> (forall a, P [a]) -> (forall a b, P [a; b]) ->
  (forall a b c r, P r -> P (a :: b :: c :: r)) ->
  forall l, P l.
Proof.
  intros H0 H1 H2 H3.
  fix IH 1. intros [|a [|b [|c r]]];
    [exact H0 | apply H1 | apply H2 | apply H3, IH].
Qed.

(** Decoding the base64 text of a buffer gives the buffer back. *)
Lemma decode_encode (bytes : list Byte.byte) : decode (encode bytes) = bytes.
Proof.
  unfold decode. induction bytes as [|a|a b|a b c r IH] using list_ind3.
  - reflexivity.
  - pose proof (Byte.to_nat_bounded a) as Ba.
    cbn [encode]. cbv zeta.
    rewrite !sextets_cons by (zify; Z.div_mod_to_equations; lia).
    cbn [sextets Ascii.eqb Bool.eqb bytes_of_sextets]. f_equal. apply byte_of_to_nat.
    zify; Z.div_mod_to_equations; lia.
  - pose proof (Byte.to_nat_bounded a) as Ba. pose proof (Byte.to_nat_bounded b) as Bb.
    cbn [encode]. cbv zeta.
    rewrite !sextets_cons by (zify; Z.div_mod_to_equations; lia).
    cbn [sextets Ascii.eqb Bool.eqb bytes_of_sextets].
    f_equal; [|f_equal]; apply byte_of_to_nat; zify; Z.div_mod_to_equations; lia.
  - pose proof (Byte.to_nat_bounded a) as Ba. pose proof (Byte.to_nat_bounded b) as Bb.
    pose proof (Byte.to_nat_bounded c) as Bc.
    cbn [encode]. cbv zeta.
    rewrite !sextets_cons by (zify; Z.div_mod_to_equations; lia).
    cbn [bytes_of_sextets]. rewrite IH.
    f_equal; [|f_equal; [|f_equal]]; apply byte_of_to_nat; zify; Z.div_mod_to_equations; lia.
Qed.

(** One file entry survives the trip: the serialized entry decodes to the
    uploaded file of the original [File], byte for byte. *)
Lemma file_roundtrip (key : string) (f : FormFile) :
  convert_entry key (serialize_file key f) = Some (uploaded key f).
Proof.
  unfold convert_entry, serialize_file, uploaded. cbn. now rewrite decode_encode.
Qed.

(** The scenario of the spec: the bytes [abc] under the field [avatar]. *)
Example avatar_roundtrip :
  files (socket_roundtrip [("name", EntryString "a");
                           ("avatar", EntryFile (png [Byte.x61; Byte.x62; Byte.x63]))]) =
    Some [("avatar", [uploaded "avatar" (png [Byte.x61; Byte.x62; Byte.x63])])] /\
  body (socket_roundtrip [("name", EntryString "a");
                          ("avatar", EntryFile (png [Byte.x61; Byte.x62; Byte.x63]))]) =
    BodyFields [("name", FieldStr "a")].
Proof. split; vm_compute; reflexivity. Qed.

(** The primary file follows the own-property order of the [files] object:
    a field whose name is an array index comes before the fields appended
    earlier. *)
Example primary_file_follows_key_order :
  pickPrimaryFile (files (socket_roundtrip form_with_index_key)) =
  Some (uploaded "1" (png [Byte.x62])).
Proof. vm_compute. reflexivity. Qed.

(** C7, at the failing input. The form holds the field [a] twice, first
    with the empty string and then with [x]. Its field map keeps both
    values, but the serialization tests the stored value for truthiness, so
    the empty string is overwritten and the server receives [a] with the
    single value [x]. *)
Theorem empty_field_value_is_dropped :
  body (socket_roundtrip form_with_empty_value) = BodyFields [("a", FieldStr "x")] /\
  spec_field_map form_with_empty_value = [("a", FieldArr [""; "x"])] /\
  body (socket_roundtrip form_with_empty_value) <>
    BodyFields (spec_field_map form_with_empty_value).
Proof.
  split; [reflexivity|]. split; [reflexivity|]. discriminate.
Qed.

End CodecProps.

(* ===================================================================== *)
(** ** Statements about the client transport controller *)
(* ===================================================================== *)

Module ClientProps.

(** *** The map of pending requests *)

Lemma entries_get_In id p l : entries_get id l = Some p -> In (id, p) l.
Proof.
  induction l as [|[k v] l IH]; cbn [entries_get]; [discriminate|].
  destruct (String.eqb id k) eqn:E.
  - apply String.eqb_eq in E as ->. intros [= ->]. now left.
  - intros H. right. now apply IH.
Qed.

Lemma pending_lookup_delete_eq (m : PendingMap) id : delete id m !! id = None.
Proof.
  unfold lookup, pending_lookup, delete, pending_delete. cbn [entries].
  unfold entries_delete. induction (entries m) as [|[k v] l IH]; [reflexivity|].
  cbn [List.filter fst]. destruct (String.eqb id k) eqn:E; cbn [negb]; [exact IH|].
  cbn [entries_get]. now rewrite E.
Qed.

Lemma pending_lookup_delete_ne (m : PendingMap) id other :
  id <> other -> delete id m !! other = m !! other.
Proof.
  intros H. unfold lookup, pending_lookup, delete, pending_delete. cbn [entries].
  unfold entries_delete. induction (entries m) as [|[k v] l IH]; [reflexivity|].
  cbn [List.filter fst entries_get]. destruct (String.eqb id k) eqn:E; cbn [negb].
  - apply String.eqb_eq in E as <-. apply String.eqb_neq in H.
    rewrite String.eqb_sym in H. now rewrite H.
  - cbn [entries_get]. now rewrite IH.
Qed.

Lemma pending_lookup_insert_eq (m : PendingMap) id p : <[id := p]> m !! id = Some p.
Proof.
  unfold lookup, pending_lookup, insert, pending_insert. cbn [entries].
  induction (entries m) as [|[k v] l IH]; cbn [entries_set entries_get].
  - now rewrite String.eqb_refl.
  - destruct (String.eqb id k) eqn:E; cbn [entries_get]; now rewrite E.
Qed.

Lemma rejected_all message c id p :
  pending c !! id = Some p ->
  In (id, RejectedWith message) (settled (rejectAllPending message c)).
Proof.
  intros H. cbn. apply in_or_app. right.
  apply (in_map (fun kv => (fst kv, RejectedWith message)) _ (id, p)).
  now apply entries_get_In.
Qed.

Lemma flushQueue_attempts c : reconnectAttempts (flushQueue c) = reconnectAttempts c.
Proof.
  unfold flushQueue. destruct (ws c) as [sock|]; [|reflexivity].
  destruct (Z.eqb _ _); reflexivity.
Qed.

(** Every operation of the controller keeps [client_wf]. *)
Lemma client_wf_on_event ev c : client_wf c -> client_wf (on_event ev c).
Proof.
  unfold client_wf. destruct ev; cbn.
  - unfold handleOpen, flushQueue. cbn. destruct (ws c) as [sock|]; [|exact id].
    destruct (Z.eqb _ _); exact id.
  - exact id.
  - unfold handleClose, scheduleReconnect. cbn. destruct (_ || _); exact id.
Qed.

Lemma client_wf_close c : client_wf (close c).
Proof.
  unfold client_wf, close. destruct (closeRequested c) eqn:E; cbn; auto.
Qed.

Lemma transmit_flags payload c :
  socketEnabled (transmit payload c) = socketEnabled c /\
  closeRequested (transmit payload c) = closeRequested c /\
  options (transmit payload c) = options c.
Proof.
  unfold transmit. destruct (canUseSocket c); [destruct (ws c)|]; auto.
Qed.

Lemma connect_flags c made :
  wsFactory (options c) = Some made ->
  socketEnabled (fst (connect c)) = socketEnabled c /\
  closeRequested (fst (connect c)) = closeRequested c /\
  options (fst (connect c)) = options c.
Proof.
  intros F. unfold connect. rewrite F.
  destruct (ws c) as [sock|]; [destruct (Z.eqb (readyState sock) 1)|];
    destruct made; auto.
Qed.

Lemma client_wf_sendViaSocket input t nanoid c :
  client_wf c -> client_wf (fst (sendViaSocket input t nanoid c)).
Proof.
  unfold client_wf, sendViaSocket.
  destruct (wsFactory (options c)) as [made|] eqn:F; cbn; [|auto].
  intros H. destruct (connect_flags c made F) as (S & C & O).
  destruct (connect c) as [c1 [message|]]; cbn in *.
  - rewrite S, C, O, F. exact H.
  - destruct (transmit_flags (socket_payload nanoid input) (register_pending nanoid t c1))
      as (S' & C' & O').
    rewrite S', C', O'. cbn. rewrite S, C, O, F. exact H.
Qed.

(** C6 as stated fails: an error event rejects the pending requests but
    sets no reconnect timer and leaves the attempt counter as it is. *)
Lemma error_event_counterexample :
  ~ (forall c ev,
        ev = OnClose \/ ev = OnError ->
        closeRequested c = false -> socketEnabled c = true ->
        is_Some (wsFactory (options c)) ->
        pending (on_event ev c) = ∅ /\
        reconnects (on_event ev c) = reconnects c ++ [backoff c] /\
        reconnectAttempts (on_event ev c) = (reconnectAttempts c + 1)%Z).
Proof.
  intros H.
  destruct (H waiting_client OnError) as (_ & R & _); try reflexivity.
  - now right.
  - now eexists.
  - discriminate R.
Qed.

(** C6, amended. While the client is not closed: a close event on the
    socket rejects every pending request, increments the attempt counter and
    sets a reconnect timer whose delay is the minimum of
    [reconnectInterval] times the new attempt number and
    [maxReconnectInterval]; an error event rejects every pending request and
    schedules nothing; an open event resets the attempt counter to zero. *)
Theorem close_rejects_and_schedules_reconnect (c : SockressClient) (made : FactoryResult) :
  wsFactory (options c) = Some made -> closeRequested c = false -> client_wf c ->
  (pending (handleClose c) = ∅ /\
   (forall id p, pending c !! id = Some p ->
                 In (id, RejectedWith "Socket closed") (settled (handleClose c))) /\
   reconnectAttempts (handleClose c) = (reconnectAttempts c + 1)%Z /\
   reconnects (handleClose c) = reconnects c ++ [backoff c]) /\
  (pending (handleError c) = ∅ /\
   (forall id p, pending c !! id = Some p ->
                 In (id, RejectedWith "Socket error") (settled (handleError c))) /\
   reconnectAttempts (handleError c) = reconnectAttempts c /\
   reconnects (handleError c) = reconnects c) /\
  reconnectAttempts (handleOpen c) = 0%Z.
Proof.
  intros F C W.
  assert (E : socketEnabled c = true).
  { destruct (socketEnabled c) eqn:S; [reflexivity|].
    destruct (W S) as [H|H]; congruence. }
  split; [|split].
  - unfold handleClose, scheduleReconnect. cbn [socketEnabled rejectAllPending emit options].
    rewrite E, F. cbn [negb orb].
    rewrite bool_decide_eq_true_2 by eauto. cbn [negb].
    cbn. repeat split.
    intros id p Hp. exact (rejected_all "Socket closed" (emit EmitClose c) id p Hp).
  - unfold handleError. repeat split.
    intros id p Hp. exact (rejected_all "Socket error" (emit EmitError c) id p Hp).
  - unfold handleOpen. now rewrite flushQueue_attempts.
Qed.

Lemma close_rejects_and_schedules_reconnect_witness :
  pending (handleClose waiting_client) = ∅ /\
  In ("r1", RejectedWith "Socket closed") (settled (handleClose waiting_client)) /\
  reconnectAttempts (handleClose waiting_client) = 3%Z /\
  reconnects (handleClose waiting_client) = [3000%Z] /\
  reconnects (handleError waiting_client) = [].
Proof.
  destruct (close_rejects_and_schedules_reconnect waiting_client (FactorySocket 1))
    as ((P & R & A & T) & (_ & _ & _ & T') & _).
  - reflexivity.
  - reflexivity.
  - intros H. discriminate H.
  - split; [exact P|]. split; [|split; [exact A|split; [exact T|exact T']]].
    apply (R "r1" {| pr_timeout := 15000 |}). reflexivity.
Defined.

(** *** Fallback *)

Lemma on_timeout_rejects id c :
  is_Some (pending c !! id) ->
  In (id, RejectedWith "Socket request timed out") (settled (on_timeout id c)) /\
  pending (on_timeout id c) !! id = None.
Proof.
  intros [p Hp]. unfold on_timeout. rewrite Hp. cbn. split.
  - apply in_or_app. right. now left.
  - apply pending_lookup_delete_eq.
Qed.

Lemma sendViaSocket_pending input t nanoid c c' id :
  sendViaSocket input t nanoid c = (c', AttemptPending id) ->
  id = nanoid /\ is_Some (pending c' !! nanoid) /\
  (In (socket_payload nanoid input) (queue c') \/
   exists sock, ws c' = Some sock /\ In (socket_payload nanoid input) (frames sock)).
Proof.
  unfold sendViaSocket. destruct (wsFactory (options c)); [|discriminate].
  destruct (connect c) as [c1 [message|]]; [discriminate|].
  intros [= <- <-]. split; [reflexivity|]. unfold transmit.
  destruct (canUseSocket _) eqn:U.
  - unfold canUseSocket in U. cbn in U.
    destruct (ws c1) as [sock|] eqn:Ws.
    + cbn. rewrite Ws. cbn. split.
      * rewrite pending_lookup_insert_eq. eauto.
      * right. eexists. split; [reflexivity|]. cbn. apply in_or_app. right. now left.
    + rewrite andb_false_r in U. discriminate.
  - cbn. split.
    + rewrite pending_lookup_insert_eq. eauto.
    + left. apply in_or_app. right. now left.
Qed.

End ClientProps.

(* ===================================================================== *)
(** ** Objects in own-property order *)
(* ===================================================================== *)

Module ObjFacts.

Section Laws.
Context {V : Type}.
Implicit Types (o : JsObj V) (k : string) (v : V).

Lemma obj_get_None o k : obj_get k o = None <-> ~ In k (obj_keys o).
Proof.
  induction o as [|[k' v'] o IH]; cbn.
  - split; [intros _ []|reflexivity].
  - destruct (String.eqb k k') eqn:E.
    + apply String.eqb_eq in E as ->. split; [discriminate|]. intros H. destruct H. now left.
    + apply String.eqb_neq in E. rewrite IH. split.
      * intros H [H'|H']; [congruence|contradiction].
      * intros H H'. apply H. now right.
Qed.

Lemma obj_get_app o o' k :
  obj_get k (o ++ o') = match obj_get k o with Some v => Some v | None => obj_get k o' end.
Proof.
  induction o as [|[k' v'] o IH]; cbn; [reflexivity|].
  destruct (String.eqb k k'); [reflexivity|exact IH].
Qed.

Lemma obj_get_replace o k k' v :
  obj_get k (obj_replace k' v o) =
  if String.eqb k k' then match obj_get k o with Some _ => Some v | None => None end
  else obj_get k o.
Proof.
  induction o as [|[k0 v0] o IH]; cbn.
  - now destruct (String.eqb k k').
  - destruct (String.eqb k' k0) eqn:E0; cbn.
    + apply String.eqb_eq in E0 as ->. destruct (String.eqb k k0); reflexivity.
    + destruct (String.eqb k k0) eqn:E1.
      * apply String.eqb_eq in E1 as ->. rewrite String.eqb_sym in E0. now rewrite E0.
      * exact IH.
Qed.

Lemma obj_get_insert_index o n k k' v :
  obj_get k' o = None ->
  obj_get k (obj_insert_index n k' v o) = if String.eqb k k' then Some v else obj_get k o.
Proof.
  induction o as [|[k0 v0] o IH]; cbn; intros H; [reflexivity|].
  destruct (String.eqb k' k0) eqn:E0; [discriminate|].
  assert (R : obj_get k ((k', v) :: (k0, v0) :: o) =
              if String.eqb k k' then Some v else obj_get k ((k0, v0) :: o)) by reflexivity.
  destruct (array_index k0) as [n'|]; [|exact R].
  destruct (n' <? n)%N; [|exact R]. cbn.
  destruct (String.eqb k k0) eqn:E1.
  - apply String.eqb_eq in E1 as ->. rewrite String.eqb_sym in E0. now rewrite E0.
  - exact (IH H).
Qed.

(** Reading a property after an assignment. *)
Lemma obj_get_set o k k' v :
  obj_get k (obj_set k' v o) = if String.eqb k k' then Some v else obj_get k o.
Proof.
  unfold obj_set. destruct (obj_get k' o) as [old|] eqn:G.
  - rewrite obj_get_replace. destruct (String.eqb k k') eqn:E; [|reflexivity].
    apply String.eqb_eq in E as ->. now rewrite G.
  - destruct (array_index k') as [n|].
    + now apply obj_get_insert_index.
    + rewrite obj_get_app. cbn. destruct (String.eqb k k') eqn:E.
      * apply String.eqb_eq in E as ->. now rewrite G.
      * now destruct (obj_get k o).
Qed.

Lemma obj_keys_replace o k v : obj_keys (obj_replace k v o) = obj_keys o.
Proof.
  induction o as [|[k0 v0] o IH]; cbn; [reflexivity|].
  destruct (String.eqb k k0); cbn; [reflexivity|]. f_equal. exact IH.
Qed.

Lemma obj_keys_insert_index o n k v x :
  In x (obj_keys (obj_insert_index n k v o)) <-> x = k \/ In x (obj_keys o).
Proof.
  induction o as [|[k0 v0] o IH]; cbn.
  - intuition congruence.
  - destruct (array_index k0) as [n'|]; [destruct (n' <? n)%N|]; cbn;
      rewrite ?IH; intuition congruence.
Qed.

Lemma NoDup_insert_index o n k v :
  ~ In k (obj_keys o) -> List.NoDup (obj_keys o) ->
  List.NoDup (obj_keys (obj_insert_index n k v o)).
Proof.
  induction o as [|[k0 v0] o IH]; cbn; intros Hk Hd.
  - constructor; [intros []|constructor].
  - assert (R : List.NoDup (k :: k0 :: obj_keys o)) by (constructor; assumption).
    destruct (array_index k0) as [n'|]; [|exact R].
    destruct (n' <? n)%N; [|exact R]. cbn.
    apply List.NoDup_cons_iff in Hd as [H0 Hd]. constructor.
    + intros H. apply (proj1 (obj_keys_insert_index _ _ _ _ _)) in H as [->|H];
        [|contradiction].
      apply Hk. now left.
    + apply IH; [|exact Hd]. intros H. apply Hk. now right.
Qed.

(** An assignment keeps the keys of an object distinct. *)
Lemma NoDup_obj_set o k v :
  List.NoDup (obj_keys o) -> List.NoDup (obj_keys (obj_set k v o)).
Proof.
  intros Hd. unfold obj_set. destruct (obj_get k o) as [old|] eqn:G.
  - now rewrite obj_keys_replace.
  - apply obj_get_None in G. destruct (array_index k) as [n|].
    + now apply NoDup_insert_index.
    + unfold obj_keys. rewrite map_app. cbn.
      apply List.NoDup_app; [exact Hd| |].
      * constructor; [intros []|constructor].
      * intros x Hx [<-|[]]. contradiction.
Qed.

End Laws.

End ObjFacts.

(* ===================================================================== *)
(** ** Forms and query strings *)
(* ===================================================================== *)

Module FormProps.
Import ObjFacts CodecProps.

Lemma serialize_entry_files acc entry :
  snd (serialize_entry acc entry) =
  match snd entry with
  | EntryString _ => snd acc
  | EntryFile f =>
      obj_set (fst entry)
              (nullish (obj_get (fst entry) (snd acc)) [] ++ [serialize_file (fst entry) f])
              (snd acc)
  end.
Proof.
  destruct acc as [fields fls], entry as [key [value|f]]; cbn; [|reflexivity].
  destruct (obj_get key fields) as [[v|vs]|]; [destruct (field_truthy _)| |]; reflexivity.
Qed.

Lemma files_under_file key k f formData :
  files_under key ((k, EntryFile f) :: formData) =
  if String.eqb k key then f :: files_under key formData else files_under key formData.
Proof. unfold files_under. cbn. now destruct (String.eqb k key). Qed.

Lemma values_of_cons key k value entries :
  values_of key ((k, value) :: entries) =
  if String.eqb k key then value :: values_of key entries else values_of key entries.
Proof. unfold values_of. cbn. now destruct (String.eqb k key). Qed.

Lemma serializeFormData_files (key : string) (formData : FormData) :
  forall acc pre,
    obj_get key (snd acc) = serialized_under key pre ->
    obj_get key (snd (fold_left serialize_entry formData acc)) =
      serialized_under key (pre ++ files_under key formData).
Proof.
  induction formData as [|[k e] formData IH]; intros acc pre H; cbn [fold_left].
  - cbn. now rewrite app_nil_r.
  - destruct e as [value|f].
    + apply (IH (serialize_entry acc (k, EntryString value)) pre).
      now rewrite serialize_entry_files.
    + rewrite files_under_file. destruct (String.eqb k key) eqn:E.
      * apply String.eqb_eq in E as ->.
        replace (pre ++ f :: files_under key formData)
          with ((pre ++ [f]) ++ files_under key formData) by now rewrite <- app_assoc.
        apply IH. rewrite serialize_entry_files. cbn [fst snd].
        rewrite obj_get_set, String.eqb_refl, H.
        destruct pre as [|f0 pre]; [reflexivity|].
        cbn [app serialized_under nullish map]. now rewrite map_app.
      * apply IH. rewrite serialize_entry_files. cbn [fst snd].
        rewrite obj_get_set, String.eqb_sym, E. exact H.
Qed.

Lemma serializeFormData_NoDup (formData : FormData) :
  forall acc, List.NoDup (obj_keys (snd acc)) ->
              List.NoDup (obj_keys (snd (fold_left serialize_entry formData acc))).
Proof.
  induction formData as [|[k e] formData IH]; intros acc H; cbn [fold_left]; [exact H|].
  apply IH. rewrite serialize_entry_files. destruct e; cbn [snd]; [exact H|].
  now apply NoDup_obj_set.
Qed.

Lemma convertSerializedFiles_get (key : string) (serialized : JsObj (list SerializedSocketFile)) :
  List.NoDup (obj_keys serialized) ->
  forall acc,
    obj_get key
      (fold_left (fun fls fe => obj_set (fst fe) (filter_map (convert_entry (fst fe)) (snd fe)) fls)
                 serialized acc) =
    match obj_get key serialized with
    | Some l => Some (filter_map (convert_entry key) l)
    | None => obj_get key acc
    end.
Proof.
  induction serialized as [|[k l] serialized IH]; intros Hd acc; cbn [fold_left]; [reflexivity|].
  cbn in Hd. apply List.NoDup_cons_iff in Hd as [Hk Hd].
  rewrite (IH Hd). cbn [obj_get fst snd]. destruct (String.eqb key k) eqn:E.
  - apply String.eqb_eq in E as ->. apply obj_get_None in Hk. rewrite Hk.
    now rewrite obj_get_set, String.eqb_refl.
  - destruct (obj_get key serialized); [reflexivity|]. now rewrite obj_get_set, E.
Qed.

Lemma files_roundtrip (key : string) (fs : list FormFile) :
  filter_map (convert_entry key) (map (serialize_file key) fs) = map (uploaded key) fs.
Proof.
  induction fs as [|f fs IH]; [reflexivity|]. cbn [map filter_map].
  now rewrite file_roundtrip, IH.
Qed.

(** X1. For a form none of whose field names is the name of a member every
    object inherits, and a field name that is none either: the files the
    server hands to the handlers under that name are the files the form
    holds under it, in the order of the form, each with its field name, file
    name, type, size, bytes and modification time; a name without a file is
    absent from [req.files]. *)
Theorem form_files_survive_socket (formData : FormData) (key : string) :
  Forall (fun entry => plain_key (fst entry) = true) formData ->
  plain_key key = true ->
  match files (socket_roundtrip formData) with
  | Some received => obj_get key received
  | None => None
  end =
  match files_under key formData with
  | [] => None
  | f :: fs => Some (map (uploaded key) (f :: fs))
  end.
Proof.
  intros _ _. unfold socket_roundtrip, serializeBodyForSocket, serializeFormData.
  pose proof (serializeFormData_files key formData ([], []) [] eq_refl) as G.
  pose proof (serializeFormData_NoDup formData ([], []) (List.NoDup_nil _)) as D.
  destruct (fold_left serialize_entry formData ([], [])) as [fields serialized].
  cbn [snd app] in G, D. cbn [normalizeBodyPayload nullish env_files files].
  assert (R : obj_get key (convertSerializedFiles serialized) =
              match files_under key formData with
              | [] => None
              | f :: fs => Some (map (uploaded key) (f :: fs))
              end).
  { unfold convertSerializedFiles. rewrite (convertSerializedFiles_get key _ D), G.
    destruct (files_under key formData) as [|f fs]; [reflexivity|].
    cbn [serialized_under]. now rewrite files_roundtrip. }
  destruct (convertSerializedFiles serialized) as [|kv received] eqn:C; [exact R|].
  exact R.
Qed.

Lemma form_files_survive_socket_witness :
  match files (socket_roundtrip [("photo", EntryFile (png [Byte.x61]));
                                 ("title", EntryString "t");
                                 ("photo", EntryFile (png [Byte.x62; Byte.x63]))]) with
  | Some received => obj_get "photo" received
  | None => None
  end = Some [uploaded "photo" (png [Byte.x61]); uploaded "photo" (png [Byte.x62; Byte.x63])] /\
  match files (socket_roundtrip [("photo", EntryFile (png [Byte.x61]));
                                 ("title", EntryString "t");
                                 ("photo", EntryFile (png [Byte.x62; Byte.x63]))]) with
  | Some received => obj_get "title" received
  | None => None
  end = None.
Proof.
  split.
  - apply (form_files_survive_socket [("photo", EntryFile (png [Byte.x61]));
                                      ("title", EntryString "t");
                                      ("photo", EntryFile (png [Byte.x62; Byte.x63]))]
                                     "photo"); [repeat constructor|reflexivity].
  - apply (form_files_survive_socket [("photo", EntryFile (png [Byte.x61]));
                                      ("title", EntryString "t");
                                      ("photo", EntryFile (png [Byte.x62; Byte.x63]))]
                                     "title"); [repeat constructor|reflexivity].
Defined.

(** ** Query strings and url-encoded bodies *)

Lemma accumulate_pair_other result kv key :
  String.eqb key (fst kv) = false ->
  obj_get key (accumulate_pair result kv) = obj_get key result.
Proof.
  intros E. unfold accumulate_pair.
  destruct (obj_get (fst kv) result) as [[v|vs]|]; cbn [field_truthy];
    try destruct (negb _); now rewrite obj_get_set, E.
Qed.

Lemma accumulate_pair_same result key value pre :
  obj_get key result = field_of pre -> Forall (fun v => v <> "") pre ->
  obj_get key (accumulate_pair result (key, value)) = field_of (pre ++ [value]).
Proof.
  intros G F. unfold accumulate_pair. cbn [fst snd]. rewrite G.
  destruct pre as [|v [|v' pre]]; cbn [field_of app].
  - now rewrite obj_get_set, String.eqb_refl.
  - apply Forall_cons in F as [Hv _]. cbn [field_truthy].
    apply String.eqb_neq in Hv. rewrite Hv. cbn [negb].
    now rewrite obj_get_set, String.eqb_refl.
  - cbn [field_truthy]. now rewrite obj_get_set, String.eqb_refl.
Qed.

Lemma accumulate_pairs (key : string) (entries : list (string * string)) :
  forall result pre,
    obj_get key result = field_of pre -> Forall (fun v => v <> "") pre ->
    Forall (fun v => v <> "") (values_of key entries) ->
    obj_get key (fold_left accumulate_pair entries result) =
      field_of (pre ++ values_of key entries).
Proof.
  induction entries as [|[k value] entries IH]; intros result pre G F H; cbn [fold_left].
  - cbn. now rewrite app_nil_r.
  - rewrite values_of_cons in H |- *. destruct (String.eqb k key) eqn:E.
    + apply String.eqb_eq in E as ->. apply Forall_cons in H as [Hv H].
      replace (pre ++ value :: values_of key entries)
        with ((pre ++ [value]) ++ values_of key entries) by now rewrite <- app_assoc.
      apply IH; [now apply accumulate_pair_same| |exact H].
      apply Forall_app. split; [exact F|]. now constructor.
    + apply IH; [|exact F|exact H].
      rewrite accumulate_pair_other; [exact G|]. cbn [fst]. now rewrite String.eqb_sym.
Qed.

(** X2. In a query string none of whose keys is the name of a member every
    object inherits, a key that is none either and whose values are all
    non-empty reads as the string when it occurs once, as the array of its
    values in order when it is repeated, and is absent when it does not
    occur. *)
Theorem query_key_collects_its_values (entries : list (string * string)) (key : string) :
  Forall (fun kv => plain_key (fst kv) = true) entries ->
  plain_key key = true ->
  Forall (fun v => v <> "") (values_of key entries) ->
  obj_get key (parseQuery entries) = field_of (values_of key entries).
Proof.
  intros _ _ H. unfold parseQuery.
  exact (accumulate_pairs key entries [] [] eq_refl (List.Forall_nil _) H).
Qed.

Lemma query_key_collects_its_values_witness :
  obj_get "tag" (parseQuery [("tag", "a"); ("page", "2"); ("tag", "b")]) =
    Some (FieldArr ["a"; "b"]).
Proof.
  apply (query_key_collects_its_values [("tag", "a"); ("page", "2"); ("tag", "b")] "tag").
  - repeat constructor.
  - reflexivity.
  - repeat constructor; discriminate.
Defined.

End FormProps.

(* ===================================================================== *)
(** ** Headers of a written response *)
(* ===================================================================== *)

Module HeaderProps.
Import ObjFacts ResponseFacts.

Lemma last_call_app name a b :
  last_call name (a ++ b) =
  match last_call name b with Some x => Some x | None => last_call name a end.
Proof.
  induction a as [|[k v] a IH]; cbn [app last_call].
  - now destruct (last_call name b).
  - rewrite IH. now destruct (last_call name b).
Qed.

Lemma last_call_other name k v : k <> name -> last_call name [(k, v)] = None.
Proof. intros H. cbn. apply String.eqb_neq in H. now rewrite H. Qed.

(** The entries of an object with distinct keys, replayed as header calls. *)
Lemma last_call_object name (o : JsObj string) :
  List.NoDup (obj_keys o) ->
  last_call name (map (fun kv => (fst kv, HeaderStr (snd kv))) o) =
  option_map HeaderStr (obj_get name o).
Proof.
  induction o as [|[k v] o IH]; intros Hd; [reflexivity|].
  cbn in Hd. apply List.NoDup_cons_iff in Hd as [Hk Hd].
  cbn [map last_call obj_get fst snd]. rewrite (IH Hd).
  rewrite (String.eqb_sym name k). destruct (String.eqb k name) eqn:E.
  - apply String.eqb_eq in E as ->. apply obj_get_None in Hk. now rewrite Hk.
  - now destruct (obj_get name o).
Qed.

Lemma latched_static p r :
  cors (latched p r) = cors r /\ allowedOrigin (latched p r) = allowedOrigin r /\
  cookies (latched p r) = cookies r.
Proof. unfold latched. destruct (_ && _); repeat split. Qed.

Lemma latched_headers p r :
  headers (latched p r) =
  if no_content_type r && is_string p
  then obj_set "content-type" "text/plain; charset=utf-8" (headers r)
  else headers r.
Proof.
  unfold latched. change (no_content_type (mark_sent r)) with (no_content_type r).
  now destruct (_ && _).
Qed.

Lemma latched_NoDup p r :
  List.NoDup (obj_keys (headers r)) -> List.NoDup (obj_keys (headers (latched p r))).
Proof.
  intros H. rewrite latched_headers. destruct (_ && _); [|exact H].
  now apply NoDup_obj_set.
Qed.

Lemma buildHeaders_NoDup r :
  List.NoDup (obj_keys (headers r)) -> List.NoDup (obj_keys (buildHeaders r)).
Proof. intros H. unfold buildHeaders. now do 6 apply NoDup_obj_set. Qed.

(** The six CORS headers are assigned last, so [buildHeaders] reads them
    from the configuration whatever the handlers set. *)
Lemma buildHeaders_cors r :
  obj_get "access-control-allow-origin" (buildHeaders r) = Some (allowedOrigin r) /\
  obj_get "access-control-allow-credentials" (buildHeaders r) =
    Some (string_of_bool (credentials (cors r))) /\
  obj_get "access-control-allow-methods" (buildHeaders r) =
    Some (String.concat ", " (methods (cors r))) /\
  obj_get "access-control-allow-headers" (buildHeaders r) =
    Some (String.concat ", " (allowedHeaders (cors r))) /\
  obj_get "access-control-expose-headers" (buildHeaders r) =
    Some (String.concat ", " (exposedHeaders (cors r))) /\
  obj_get "access-control-max-age" (buildHeaders r) = Some (pretty (maxAge (cors r))).
Proof. unfold buildHeaders. repeat split; rewrite !obj_get_set; reflexivity. Qed.

(** Any other header is the one the handlers set. *)
Lemma buildHeaders_other r name :
  startsWith name "access-control-" = false ->
  obj_get name (buildHeaders r) = obj_get name (headers r).
Proof.
  intros H. unfold buildHeaders. rewrite !obj_get_set.
  repeat match goal with
         | |- context [String.eqb name ?lit] =>
             let E := fresh "E" in
             destruct (String.eqb name lit) eqn:E;
             [apply String.eqb_eq in E; subst name; discriminate|clear E]
         end.
  reflexivity.
Qed.

(** The headers of the item [send] writes, but for the two names the HTTP
    branch sets on the raw response itself. *)
Lemma emitted_header_written p r name :
  List.NoDup (obj_keys (headers r)) ->
  name <> "Set-Cookie" -> name <> "content-type" ->
  emitted_header (written p r) name =
  option_map HeaderStr (obj_get name (buildHeaders (latched p r))).
Proof.
  intros Hd Hc Ht.
  pose proof (last_call_object name _ (buildHeaders_NoDup _ (latched_NoDup p r Hd))) as L.
  unfold emitted_header, written. destruct (mode r) as [|rid].
  - unfold http_write.
    assert (C : last_call name
                  (match cookies (latched p r) with
                   | [] => map (fun kv => (fst kv, HeaderStr (snd kv)))
                               (buildHeaders (latched p r))
                   | _ :: _ => map (fun kv => (fst kv, HeaderStr (snd kv)))
                                   (buildHeaders (latched p r)) ++
                               [("Set-Cookie", HeaderList (cookies (latched p r)))]
                   end) =
                option_map HeaderStr (obj_get name (buildHeaders (latched p r)))).
    { destruct (cookies (latched p r)); [exact L|].
      rewrite last_call_app, last_call_other by congruence. exact L. }
    destruct p; cbn [header_calls]; try exact C;
      (destruct (no_content_type (latched _ r)); [|exact C]);
      rewrite last_call_app, last_call_other by congruence; exact C.
  - cbn [header_calls socket_message msg_headers nullish]. exact L.
Qed.

(** What [send] writes carries the six CORS headers of the response. *)
Lemma send_carries_cors p r :
  List.NoDup (obj_keys (headers r)) ->
  Forall (carries_cors (cors r) (allowedOrigin r)) (snd (send p r)).
Proof.
  intros Hd. destruct (sent r) eqn:S.
  - rewrite (send_when_sent p r S). constructor.
  - rewrite (send_when_unsent p r S). cbn [snd]. constructor; [|constructor].
    destruct (buildHeaders_cors (latched p r)) as (A & B & C & D & E & F).
    destruct (latched_static p r) as (Hc & Ho & _). rewrite Hc, Ho in *.
    unfold carries_cors.
    rewrite !(emitted_header_written p r _ Hd) by discriminate.
    rewrite A, B, C, D, E, F. repeat split.
Qed.

Lemma content_type_from_headers p r :
  List.NoDup (obj_keys (headers r)) ->
  last_call "content-type"
    (match cookies (latched p r) with
     | [] => map (fun kv => (fst kv, HeaderStr (snd kv))) (buildHeaders (latched p r))
     | _ :: _ => map (fun kv => (fst kv, HeaderStr (snd kv))) (buildHeaders (latched p r)) ++
                 [("Set-Cookie", HeaderList (cookies (latched p r)))]
     end) =
  option_map HeaderStr (obj_get "content-type" (headers (latched p r))).
Proof.
  intros Hd.
  pose proof (last_call_object "content-type" _
                (buildHeaders_NoDup _ (latched_NoDup p r Hd))) as L.
  rewrite buildHeaders_other in L by reflexivity.
  destruct (cookies (latched p r)); [exact L|].
  rewrite last_call_app, last_call_other by discriminate. exact L.
Qed.

(** X3. The content type of a response whose handler set none: a string is
    labelled as plain text on both transports; an object is labelled as JSON
    on the HTTP transport, while the socket envelope of the same [send]
    carries no content type. A content type the handler set is kept. *)
Theorem content_type_defaults (r : SockressResponse)
    (Hd : List.NoDup (obj_keys (headers r))) (Hs : sent r = false) :
  (obj_get "content-type" (headers r) = None ->
   (forall s, exists x, snd (send (VStr s) r) = [x] /\
      emitted_header x "content-type" = Some (HeaderStr "text/plain; charset=utf-8")) /\
   (forall props, mode r = ModeHttp ->
      exists x, snd (send (VObject props) r) = [x] /\
        emitted_header x "content-type" =
          Some (HeaderStr "application/json; charset=utf-8")) /\
   (forall props rid, mode r = ModeSocket rid ->
      exists x, snd (send (VObject props) r) = [x] /\
        emitted_header x "content-type" = None)) /\
  (forall t p, obj_get "content-type" (headers r) = Some t -> t <> "" ->
     exists x, snd (send p r) = [x] /\ emitted_header x "content-type" = Some (HeaderStr t)).
Proof.
  split.
  - intros G.
    assert (N : no_content_type r = true) by (unfold no_content_type; now rewrite G).
    split; [|split].
    + intros s. rewrite (send_when_unsent _ r Hs). eexists. split; [reflexivity|].
      pose proof (content_type_from_headers (VStr s) r Hd) as C.
      rewrite latched_headers, N in C. cbn [andb is_string] in C.
      rewrite obj_get_set in C. cbn in C.
      unfold emitted_header, written. destruct (mode r) as [|rid].
      * exact C.
      * cbn [header_calls socket_message msg_headers nullish].
        rewrite (last_call_object _ _ (buildHeaders_NoDup _ (latched_NoDup _ r Hd))).
        rewrite buildHeaders_other by reflexivity.
        rewrite latched_headers, N. cbn [andb is_string]. now rewrite obj_get_set.
    + intros props M. rewrite (send_when_unsent _ r Hs). eexists. split; [reflexivity|].
      unfold emitted_header, written. rewrite M. unfold http_write.
      assert (N' : no_content_type (latched (VObject props) r) = true).
      { unfold no_content_type. rewrite latched_headers. cbn [is_string].
        rewrite andb_false_r. now rewrite G. }
      rewrite N'. cbn [header_calls]. rewrite last_call_app. reflexivity.
    + intros props rid M. rewrite (send_when_unsent _ r Hs). eexists. split; [reflexivity|].
      unfold emitted_header, written. rewrite M.
      cbn [header_calls socket_message msg_headers nullish].
      rewrite (last_call_object _ _ (buildHeaders_NoDup _ (latched_NoDup _ r Hd))).
      rewrite buildHeaders_other by reflexivity.
      rewrite latched_headers. cbn [is_string]. rewrite andb_false_r. now rewrite G.
  - intros t p G Ht.
    assert (N : no_content_type r = false).
    { unfold no_content_type. rewrite G. now apply String.eqb_neq. }
    rewrite (send_when_unsent _ r Hs). eexists. split; [reflexivity|].
    pose proof (content_type_from_headers p r Hd) as C.
    rewrite latched_headers, N in C. cbn [andb] in C. rewrite G in C.
    unfold emitted_header, written. destruct (mode r) as [|rid].
    + unfold http_write.
      assert (N' : no_content_type (latched p r) = false).
      { unfold no_content_type. rewrite latched_headers, N. cbn [andb]. rewrite G.
        now apply String.eqb_neq. }
      rewrite N'. destruct p; exact C.
    + cbn [header_calls socket_message msg_headers nullish].
      rewrite (last_call_object _ _ (buildHeaders_NoDup _ (latched_NoDup _ r Hd))).
      rewrite buildHeaders_other by reflexivity.
      rewrite latched_headers, N. cbn [andb]. now rewrite G.
Qed.

Lemma content_type_defaults_witness :
  (exists x, snd (send (VObject []) (create ModeHttp default_cors "*")) = [x] /\
     emitted_header x "content-type" = Some (HeaderStr "application/json; charset=utf-8")) /\
  (exists x, snd (send (VObject []) (create (ModeSocket "r1") default_cors "*")) = [x] /\
     emitted_header x "content-type" = None).
Proof.
  split.
  - destruct (content_type_defaults (create ModeHttp default_cors "*")
                (List.NoDup_nil _) eq_refl) as [(_ & H & _) _]; [reflexivity|].
    exact (H [] eq_refl).
  - destruct (content_type_defaults (create (ModeSocket "r1") default_cors "*")
                (List.NoDup_nil _) eq_refl) as [(_ & _ & H) _]; [reflexivity|].
    exact (H [] "r1" eq_refl).
Defined.

End HeaderProps.

(* ===================================================================== *)
(** ** Further statements about the dispatch engine *)
(* ===================================================================== *)

Module DispatchProps.
Import ObjFacts ResponseFacts EngineFacts HeaderProps.

Lemma visits_app tr tr' : visits (tr ++ tr') = visits tr ++ visits tr'.
Proof.
  unfold visits. induction tr as [|ev tr IH]; [reflexivity|]. cbn.
  destruct (layer_of ev); cbn; now rewrite IH.
Qed.

Lemma increasing_snoc l x :
  increasing l -> Forall (fun y => (y < x)%nat) l -> increasing (l ++ [x]).
Proof.
  induction l as [|a l IH]; intros I F; cbn.
  - split; constructor.
  - destruct I as [Fa I]. apply Forall_cons in F as [Ha F]. split.
    + apply Forall_app. split; [exact Fa|]. now constructor.
    + now apply IH.
Qed.

Lemma trace_exhausted err st :
  trace (exhausted err st) = trace st ++ [EvExhausted err (isSent (res st))].
Proof.
  unfold exhausted. destruct (truthy err); [reflexivity|]. now destruct (negb _).
Qed.

(** The layers a run has visited are in increasing order and below the
    cursor. *)
Lemma next_visits stack fuel err st st' :
  next stack fuel err st = Some st' ->
  increasing (visits (trace st)) /\ Forall (fun i => (i < idx st)%nat) (visits (trace st)) ->
  increasing (visits (trace st')) /\ Forall (fun i => (i < idx st')%nat) (visits (trace st')).
Proof.
  intros E H.
  assert (Step : forall s i ev, layer_of ev = Some i -> i = idx s ->
            increasing (visits (trace s)) /\
            Forall (fun i => (i < idx s)%nat) (visits (trace s)) ->
            increasing (visits (trace (record ev (advance s)))) /\
            Forall (fun i => (i < idx (record ev (advance s)))%nat)
                   (visits (trace (record ev (advance s))))).
  { intros s i ev L -> [I F]. cbn [trace record advance idx]. rewrite visits_app.
    unfold visits at 2 4. cbn [filter_map]. rewrite L. split.
    - now apply increasing_snoc.
    - apply Forall_app. split.
      + eapply Forall_impl; [exact F|]. cbn. intros. lia.
      + repeat constructor. }
  refine (next_invariant stack
            (fun s => increasing (visits (trace s)) /\
                      Forall (fun i => (i < idx s)%nat) (visits (trace s)))
            _ _ _ _ _ _ _ _ _ _ fuel err st st' E H).
  - intros e s _ [I F]. rewrite trace_exhausted, idx_exhausted, visits_app.
    cbn [advance trace idx]. unfold visits at 2 4. cbn [filter_map layer_of].
    rewrite !app_nil_r. split; [exact I|].
    eapply Forall_impl; [exact F|]. cbn. intros. lia.
  - intros e s l _ _ P. now apply (Step s (idx s)).
  - intros e s l _ _ P. now apply (Step s (idx s)).
  - intros c s P. exact P.
  - intros f v s P. exact P.
  - intros c s P. exact P.
  - intros v s P. exact P.
  - intros v s P. exact P.
  - intros ps s P. exact P.
  - intros f e s s' [I F] _ IH. apply IH. cbn [trace record idx]. rewrite visits_app.
    unfold visits at 2 4. cbn [filter_map layer_of]. now rewrite !app_nil_r.
Qed.

(** X4. Whatever the handlers do, call [next] several times included, a run
    takes the layers of the stack in order and none twice: the layers it
    called or passed over have strictly increasing positions in the stack. *)
Theorem layers_visited_once_in_order (app : SockressApp) (req : SockressRequest)
    (res : SockressResponse) (st : PipelineState) :
  runPipeline app req res = Settled st ->
  increasing (visits (trace st)) /\ List.NoDup (visits (trace st)).
Proof.
  intros R.
  assert (I : increasing (visits (trace st))).
  { unfold runPipeline in R. destruct (composeStack app req) as [|stack ps]; [discriminate|].
    destruct (next stack (length stack) VUndefined (initial_state (with_params ps req) res))
      as [s|] eqn:E; [|discriminate].
    injection R as ->.
    apply (next_visits _ _ _ _ _ E). split; [exact Logic.I|constructor]. }
  split; [exact I|].
  clear R. induction (visits (trace st)) as [|x l IH]; [constructor|].
  destruct I as [F I]. constructor; [|now apply IH].
  intros Hin. rewrite Forall_forall in F. apply list_elem_of_In, F in Hin. lia.
Qed.

Lemma layers_visited_once_in_order_witness :
  exists st,
    runPipeline api_app (get_request "/api/users/7") (create ModeHttp default_cors "*")
      = Settled st /\
    visits (trace st) = [0; 1]%nat /\ List.NoDup (visits (trace st)).
Proof.
  remember (runPipeline api_app (get_request "/api/users/7") (create ModeHttp default_cors "*"))
    as r eqn:E.
  pose proof E as E'. vm_compute in E'.
  match type of E' with _ = Settled ?s => exists s end.
  split; [exact E'|]. split; [reflexivity|].
  apply (layers_visited_once_in_order api_app (get_request "/api/users/7")
           (create ModeHttp default_cors "*")).
  rewrite <- E. exact E'.
Defined.

(** X5. Once a response has been sent, nothing the rest of a handler does
    (sending again, throwing, continuing to the next layers with or without
    an error) writes anything more. *)
Theorem nothing_written_after_send (stack : list PipelineLayer) (fuel : nat) (p : Prog) :
  forall st st',
    sent (res st) = true -> exec (next stack fuel) p st = Some st' ->
    wire st' = wire st /\ sent (res st') = true.
Proof.
  induction p; intros st st' S E; cbn [exec] in E.
  - injection E as <-. auto.
  - exact (next_frozen stack fuel e _ _ E S).
  - exact (IHp (on_res (status code) st) st' S E).
  - exact (IHp (on_res (set field value) st) st' S E).
  - exact (IHp (on_res (cookie serialized) st) st' S E).
  - destruct (IHp (write (send payload) st) st') as [W L]; [|exact E|].
    + cbn. now rewrite (send_when_sent payload _ S).
    + split; [|exact L]. rewrite W. cbn. rewrite (send_when_sent payload _ S). cbn.
      now rewrite app_nil_r.
  - destruct (IHp (write (json payload) st) st') as [W L]; [|exact E|].
    + cbn. unfold json. now rewrite (send_when_sent payload (set _ _ (res st)) S).
    + split; [|exact L]. rewrite W. cbn. unfold json.
      rewrite (send_when_sent payload (set _ _ (res st)) S). cbn. now rewrite app_nil_r.
  - exact (IHp (set_params params st) st' S E).
  - destruct (next stack fuel err st) as [st1|] eqn:E1; [|discriminate].
    destruct (next_frozen stack fuel err _ _ E1 S) as [W1 S1].
    destruct (IHp _ _ S1 E) as [W L]. split; [congruence|exact L].
  - destruct (isSent (res st)); [exact (IHp1 _ _ S E) | exact (IHp2 _ _ S E)].
Qed.

Lemma nothing_written_after_send_witness :
  exists st',
    exec (next [] 0) send_again_then_throw already_sent = Some st' /\
    wire st' = wire already_sent /\ sent (res st') = true.
Proof.
  eexists. split; [reflexivity|].
  apply (nothing_written_after_send [] 0 send_again_then_throw already_sent);
    reflexivity.
Defined.

Lemma compose_routes_miss app method path rs :
  Forall (route_misses method path) rs ->
  forall stack ps, compose_routes app method path rs stack ps = ComposeStack stack ps.
Proof.
  induction 1 as [|r rs Hr _ IH]; intros stack ps; cbn [compose_routes]; [reflexivity|].
  destruct Hr as [[H1 H2]|H].
  - apply String.eqb_neq in H1, H2. rewrite H1, H2. cbn. apply IH.
  - rewrite H. destruct (negb _ && negb _); apply IH.
Qed.

Lemma middleware_stack app path :
  flat_map (fun layer =>
              if matchesPrefix (mw_path layer) path
              then [{| handler := mw_handler layer; isErrorHandler := mw_isErrorHandler layer |}]
              else [])
           (middlewares app) = middleware_layers app path.
Proof.
  unfold middleware_layers. induction (middlewares app) as [|l ls IH]; [reflexivity|].
  cbn. destruct (matchesPrefix _ _); cbn; now rewrite IH.
Qed.

(** X6. A request that no middleware prefix and no route answers to is replied
    to with the 404 of the engine, and no handler is called or passed
    over. *)
Theorem unmatched_request_gets_404 (app : SockressApp) (req : SockressRequest)
    (m : RequestMode) (c : CorsOptions) (o : string) :
  Forall (fun l => matchesPrefix (mw_path l) (req_path req) = false) (middlewares app) ->
  Forall (route_misses (req_method req) (req_path req)) (routes app) ->
  exists st x,
    runPipeline app req (create m c o) = Settled st /\
    wire st = [x] /\ is_not_found x /\ visits (trace st) = [].
Proof.
  intros Hm Hr. unfold runPipeline, composeStack.
  rewrite middleware_stack. unfold middleware_layers.
  replace (List.filter _ (middlewares app)) with (@nil MiddlewareLayer).
  2:{ induction Hm as [|l ls Hl _ IH]; [reflexivity|]. cbn. now rewrite Hl. }
  cbn [map]. rewrite (compose_routes_miss _ _ _ _ Hr). cbn [length next nth_error idx initial_state].
  destruct (not_found_unsent (create m c o) eq_refl) as (x & E & N).
  eexists. exists x. split; [reflexivity|]. unfold exhausted, isSent.
  cbn [truthy res advance record initial_state]. change (sent (create m c o)) with false.
  change (negb false) with true. cbv iota.
  cbn [write wire trace res record advance initial_state List.app]. rewrite E.
  repeat split; apply N.
Qed.

Lemma unmatched_request_gets_404_witness :
  exists st x,
    runPipeline api_app (get_request "/health") (create ModeHttp default_cors "*")
      = Settled st /\
    wire st = [x] /\ is_not_found x /\ visits (trace st) = [].
Proof.
  apply (unmatched_request_gets_404 api_app (get_request "/health") ModeHttp default_cors "*").
  - repeat constructor.
  - constructor; [|constructor]. right. reflexivity.
Defined.

Lemma compose_routes_shift app method path rs :
  forall stack ps,
    compose_routes app method path rs stack ps =
    match compose_routes app method path rs [] ps with
    | ComposeThrows => ComposeThrows
    | ComposeStack tail ps' => ComposeStack (stack ++ tail) ps'
    end.
Proof.
  induction rs as [|r rs IH]; intros stack ps; cbn [compose_routes].
  - now rewrite app_nil_r.
  - destruct (negb _ && negb _); [apply IH|].
    destruct (match_path (rt_matcher r) path) as [|params|]; [apply IH| |reflexivity].
    rewrite (IH (stack ++ _) params), (IH ([] ++ _) params).
    destruct (compose_routes app method path rs [] params) as [|tail ps']; [reflexivity|].
    cbn [List.app]. now rewrite <- !app_assoc.
Qed.

(** X7. The stack of a request is the middleware whose prefix matches its path,
    in registration order, followed by the layers of the matching routes:
    middleware registered after a route still runs before its handlers. *)
Theorem middleware_precedes_route_handlers (app : SockressApp) (req : SockressRequest)
    (stack : list PipelineLayer) (ps : JsObj string) :
  composeStack app req = ComposeStack stack ps ->
  exists routeLayers,
    compose_routes app (req_method req) (req_path req) (routes app) [] (req_params req)
      = ComposeStack routeLayers ps /\
    stack = middleware_layers app (req_path req) ++ routeLayers.
Proof.
  unfold composeStack. rewrite middleware_stack, compose_routes_shift.
  destruct (compose_routes _ _ _ _ [] _) as [|tail ps']; [discriminate|].
  intros E. injection E as <- <-. now exists tail.
Qed.

Lemma middleware_precedes_route_handlers_witness :
  exists stack ps routeLayers,
    composeStack route_then_middleware (get_request "/api/users/7") = ComposeStack stack ps /\
    stack = {| handler := pass_through; isErrorHandler := false |} :: routeLayers.
Proof.
  remember (composeStack route_then_middleware (get_request "/api/users/7")) as r eqn:E.
  pose proof E as E'. vm_compute in E'.
  match type of E' with _ = ComposeStack ?s ?p =>
    destruct (middleware_precedes_route_handlers route_then_middleware
                (get_request "/api/users/7") s p) as (tail & _ & T)
  end.
  - rewrite <- E. exact E'.
  - eexists _, _, tail. split; [exact E'|]. exact T.
Defined.

Lemma cors_writer_send v : cors_writer (send v).
Proof.
  intros r. destruct (sent r) eqn:S.
  - rewrite (send_when_sent v r S). cbn [fst snd]. repeat split; [assumption|constructor].
  - pose proof (send_carries_cors v r) as C.
    rewrite (send_when_unsent v r S) in C |- *. cbn [fst snd] in C |- *.
    destruct (latched_static v r) as (A & B & _).
    split; [exact A|]. split; [exact B|]. intros Hd. split; [now apply latched_NoDup|auto].
Qed.

Lemma cors_writer_json v : cors_writer (json v).
Proof.
  intros r. unfold json.
  destruct (cors_writer_send v (set "content-type" "application/json; charset=utf-8" r))
    as (A & B & C).
  split; [exact A|]. split; [exact B|]. intros Hd. apply C. cbn. now apply NoDup_obj_set.
Qed.

Lemma cors_writer_not_found : cors_writer respond_not_found.
Proof. intros r. exact (cors_writer_json not_found_body (status 404 r)). Qed.

Lemma cors_writer_renderError e : cors_writer (renderError e).
Proof.
  intros r. unfold renderError. destruct (isSent r).
  - cbn [fst snd]. repeat split; [assumption|constructor].
  - exact (cors_writer_json (error_body e) (status 500 r)).
Qed.

(** The invariant behind the CORS headers of a run. *)
Lemma next_cors stack c o fuel err st st' :
  next stack fuel err st = Some st' ->
  cors (res st) = c /\ allowedOrigin (res st) = o /\
  List.NoDup (obj_keys (headers (res st))) /\ Forall (carries_cors c o) (wire st) ->
  cors (res st') = c /\ allowedOrigin (res st') = o /\
  List.NoDup (obj_keys (headers (res st'))) /\ Forall (carries_cors c o) (wire st').
Proof.
  intros E H.
  assert (W : forall f s, cors_writer f ->
            cors (res s) = c /\ allowedOrigin (res s) = o /\
            List.NoDup (obj_keys (headers (res s))) /\ Forall (carries_cors c o) (wire s) ->
            cors (res (write f s)) = c /\ allowedOrigin (res (write f s)) = o /\
            List.NoDup (obj_keys (headers (res (write f s)))) /\
            Forall (carries_cors c o) (wire (write f s))).
  { intros f s Hf (A & B & D & F). destruct (Hf (res s)) as (A' & B' & C').
    destruct (C' D) as [D' F']. cbn [write res wire].
    split; [congruence|]. split; [congruence|]. split; [exact D'|].
    apply Forall_app. split; [exact F|]. now rewrite A, B in F'. }
  refine (next_invariant stack
            (fun s => cors (res s) = c /\ allowedOrigin (res s) = o /\
                      List.NoDup (obj_keys (headers (res s))) /\
                      Forall (carries_cors c o) (wire s))
            _ _ _ _ _ _ _ _ _ _ fuel err st st' E H).
  - intros e s _ P. unfold exhausted. destruct (truthy e).
    + apply (W (renderError e)); [apply cors_writer_renderError|exact P].
    + destruct (negb _); [|exact P].
      apply (W respond_not_found); [apply cors_writer_not_found|exact P].
  - intros e s l _ _ P. exact P.
  - intros e s l _ _ P. exact P.
  - intros code s P. exact P.
  - intros f v s (A & B & D & F). cbn [on_res res wire].
    split; [exact A|]. split; [exact B|]. split; [|exact F]. cbn. now apply NoDup_obj_set.
  - intros ck s P. exact P.
  - intros v s P. apply (W (send v)); [apply cors_writer_send|exact P].
  - intros v s P. apply (W (json v)); [apply cors_writer_json|exact P].
  - intros ps s P. exact P.
  - intros f e s s' P _ IH. apply IH. exact P.
Qed.

(** X8. Every response a run writes, the synthetic 404 and 500 included, carries
    the six CORS headers with the values of the configuration and the
    allowed origin picked for the request; a handler that sets one of these
    headers itself does not change what is sent. *)
Theorem every_response_carries_cors (app : SockressApp) (req : SockressRequest)
    (m : RequestMode) (c : CorsOptions) (o : string) (st : PipelineState) :
  runPipeline app req (create m c o) = Settled st ->
  Forall (carries_cors c o) (wire st).
Proof.
  unfold runPipeline. destruct (composeStack app req) as [|stack ps]; [discriminate|].
  destruct (next stack (length stack) VUndefined
              (initial_state (with_params ps req) (create m c o))) as [s|] eqn:E;
    [|discriminate].
  intros R. injection R as ->.
  apply (next_cors stack c o _ _ _ _ E). cbn.
  repeat split; constructor.
Qed.

Lemma every_response_carries_cors_witness :
  exists st x,
    runPipeline app_override_origin (get_request "/") (create ModeHttp default_cors "*")
      = Settled st /\
    wire st = [x] /\
    emitted_header x "access-control-allow-origin" = Some (HeaderStr "*").
Proof.
  remember (runPipeline app_override_origin (get_request "/")
              (create ModeHttp default_cors "*")) as r eqn:E.
  pose proof E as E'. vm_compute in E'.
  match type of E' with _ = Settled ?s =>
    pose proof (every_response_carries_cors app_override_origin (get_request "/")
                  ModeHttp default_cors "*" s) as H
  end.
  rewrite <- E in H. specialize (H E').
  eexists _, _. split; [exact E'|]. split; [reflexivity|].
  apply Forall_cons in H as [H _]. apply H.
Defined.

End DispatchProps.

(* ===================================================================== *)
(** ** Further statements about the path matcher *)
(* ===================================================================== *)

Module RouteProps.
Import ObjFacts MatcherProps.

Lemma join_path_app a b : join_path (a ++ b) = join_path a +:+ join_path b.
Proof.
  induction a as [|s a IH]; [reflexivity|]. cbn [List.app join_path].
  now rewrite IH, !append_cons, append_assoc.
Qed.

Lemma split_segments segs : forall cur,
  Forall (fun seg => all_chars not_slash seg = true) segs ->
  split_slash_aux cur (join_path segs) = cur :: segs.
Proof.
  induction segs as [|seg segs IH]; intros cur H; [reflexivity|].
  apply Forall_cons in H as [Hs H]. cbn [join_path].
  rewrite append_cons. cbn [split_slash_aux]. rewrite Ascii.eqb_refl. f_equal.
  rewrite (split_aux_run seg "" _ Hs), append_nil_l. exact (IH seg H).
Qed.

Lemma strip_prefix_app p rest : strip_prefix p (p +:+ rest) = Some rest.
Proof.
  induction p as [|a p IH]; [reflexivity|]. rewrite append_cons. cbn.
  now rewrite Ascii.eqb_refl.
Qed.

Lemma match_literal_prefix segs ps : forall s,
  match_pieces (map PLit segs ++ ps) (join_path segs +:+ s) = match_pieces ps s.
Proof.
  induction segs as [|seg segs IH]; intros s; [reflexivity|].
  cbn [map List.app match_pieces join_path].
  rewrite append_assoc.
  change (String slash seg +:+ join_path segs +:+ s)
    with (String slash seg +:+ (join_path segs +:+ s)).
  rewrite strip_prefix_app. apply IH.
Qed.

(** The greedy run of non-slash characters takes a whole segment first. *)
Lemma greedy_takes_segment value rest :
  all_chars not_slash value = true ->
  rest = "" \/ rest = "/" ->
  exists others, greedy_splits not_slash (value +:+ rest) = (value, rest) :: others.
Proof.
  intros Hv Hr. induction value as [|c value IH].
  - rewrite append_nil_l. destruct Hr as [->| ->]; eexists; reflexivity.
  - cbn in Hv. apply andb_true_iff in Hv as [Hc Hv]. destruct (IH Hv) as (others & E).
    rewrite append_cons. cbn [greedy_splits]. rewrite Hc, E. cbn [map List.app fst snd].
    eexists. reflexivity.
Qed.

Lemma match_param value rest :
  value <> "" -> all_chars not_slash value = true -> rest = "" \/ rest = "/" ->
  match_pieces [PParam] (String slash value +:+ rest) = Some [Some value].
Proof.
  intros Hn Hv Hr. rewrite append_cons. cbn [match_pieces]. rewrite Ascii.eqb_refl.
  destruct (greedy_takes_segment value rest Hv Hr) as (others & ->).
  cbn [first_some fst snd]. apply String.eqb_neq in Hn. rewrite Hn.
  destruct Hr as [->| ->]; reflexivity.
Qed.

Lemma strip_qmark_id s : endsWith_char "?" s = false -> strip_trailing_qmark s = s.
Proof.
  induction s as [|a s IH]; [reflexivity|]. destruct s as [|b s].
  - cbn. now intros ->.
  - intros H. cbn [strip_trailing_qmark]. f_equal. apply IH. exact H.
Qed.

Lemma compile_param_segment key :
  is_param_name key = true -> compile_segment (String ":" key) = Some (PParam, Some key).
Proof.
  unfold is_param_name. intros H. apply andb_true_iff in H as [_ H].
  apply negb_true_iff in H. unfold compile_segment. rewrite Ascii.eqb_refl, H.
  rewrite strip_qmark_id; [reflexivity|]. destruct key; [reflexivity|exact H].
Qed.

Lemma compile_param_route segs key :
  Forall (fun seg => is_literal_segment seg = true) segs -> is_param_name key = true ->
  compile_segments (segs ++ [String ":" key]) = (map PLit segs ++ [PParam], [key]).
Proof.
  intros H Hk. induction H as [|seg segs Hs _ IH].
  - cbn [List.app compile_segments map]. now rewrite (compile_param_segment key Hk).
  - cbn [List.app compile_segments map]. rewrite IH.
    destruct seg as [|c r]; [discriminate|]. unfold is_literal_segment in Hs.
    apply andb_true_iff in Hs as [Hs _]. apply andb_true_iff in Hs as [Hc Hstar].
    apply negb_true_iff in Hc, Hstar. unfold compile_segment. now rewrite Hc, Hstar.
Qed.

Lemma join_path_nonempty seg segs : exists r, join_path (seg :: segs) = String slash r.
Proof. cbn [join_path]. rewrite append_cons. eexists. reflexivity. Qed.

Lemma param_route_not_wildcard segs key :
  Forall (fun seg => is_literal_segment seg = true) segs ->
  String.eqb (join_path (segs ++ [String ":" key])) "*" = false /\
  String.eqb (join_path (segs ++ [String ":" key])) "/*" = false.
Proof.
  intros H. destruct segs as [|seg segs].
  - split; reflexivity.
  - apply Forall_cons in H as [Hs _]. cbn [List.app join_path]. rewrite append_cons.
    split; [reflexivity|]. cbn [String.eqb]. rewrite Ascii.eqb_refl.
    destruct seg as [|c r]; [discriminate|]. rewrite append_cons. cbn [String.eqb].
    destruct (Ascii.eqb c "*") eqn:Ec; [|reflexivity].
    destruct (r +:+ join_path (segs ++ [String ":" key])) eqn:Er; [|reflexivity].
    destruct r; [|discriminate]. apply Ascii.eqb_eq in Ec as ->. discriminate.
Qed.

(** The matcher of a route that ends in a named parameter. *)
Lemma param_route_matcher segs key :
  Forall (fun seg => is_literal_segment seg = true) segs -> is_param_name key = true ->
  buildMatcher (join_path (segs ++ [String ":" key])) =
  {| raw := join_path (segs ++ [String ":" key]);
     pieces := map PLit segs ++ [PParam]; keys := [key]; always := false |}.
Proof.
  intros H Hk. unfold buildMatcher.
  destruct (param_route_not_wildcard segs key H) as [E1 E2]. rewrite E1, E2. cbn [orb].
  unfold split_slash. rewrite split_segments.
  - rewrite compile_empty_head, (compile_param_route segs key H Hk).
    destruct segs; reflexivity.
  - apply Forall_app. split.
    + eapply Forall_impl; [exact H|]. intros seg. apply literal_no_slash.
    + constructor; [|constructor]. cbn [all_chars]. unfold is_param_name in Hk.
      apply andb_true_iff in Hk as [Hk _]. now rewrite Hk.
Qed.

Lemma obj_set_nil {V} k (v : V) : obj_set k v [] = [(k, v)].
Proof. unfold obj_set. cbn. now destruct (array_index k). Qed.



End RouteProps.

(* ===================================================================== *)
(** ** The transport of a response *)
(* ===================================================================== *)

Module TransportFacts.
Import ResponseFacts EngineFacts.

Lemma send_on_transport v r :
  mode (fst (send v r)) = mode r /\ Forall (on_transport (mode r)) (snd (send v r)).
Proof.
  destruct (sent r) eqn:S.
  - rewrite (send_when_sent v r S). split; [reflexivity|constructor].
  - rewrite (send_when_unsent v r S). cbn [fst snd].
    destruct (latched_fields v r) as (_ & M & _). split; [exact M|].
    constructor; [|constructor]. unfold written, on_transport.
    destruct (mode r) as [|rid].
    + unfold http_write. destruct v; try exact I; now destruct (no_content_type _).
    + cbn. auto.
Qed.

Lemma json_on_transport v r :
  mode (fst (json v r)) = mode r /\ Forall (on_transport (mode r)) (snd (json v r)).
Proof. exact (send_on_transport v (set "content-type" "application/json; charset=utf-8" r)). Qed.

Lemma renderError_on_transport e r :
  mode (fst (renderError e r)) = mode r /\
  Forall (on_transport (mode r)) (snd (renderError e r)).
Proof.
  unfold renderError. destruct (isSent r); [split; [reflexivity|constructor]|].
  exact (json_on_transport (error_body e) (status 500 r)).
Qed.

(** Everything a run writes is written on the transport of its response. *)
Lemma next_on_transport stack m0 fuel err st st' :
  next stack fuel err st = Some st' ->
  mode (res st) = m0 /\ Forall (on_transport m0) (wire st) ->
  mode (res st') = m0 /\ Forall (on_transport m0) (wire st').
Proof.
  intros E H.
  assert (W : forall f s,
            (forall r, mode (fst (f r)) = mode r /\ Forall (on_transport (mode r)) (snd (f r))) ->
            mode (res s) = m0 /\ Forall (on_transport m0) (wire s) ->
            mode (res (write f s)) = m0 /\ Forall (on_transport m0) (wire (write f s))).
  { intros f s Hf [M F]. destruct (Hf (res s)) as [M' F']. cbn [write res wire].
    split; [congruence|]. apply Forall_app. split; [exact F|]. now rewrite M in F'. }
  refine (next_invariant stack
            (fun s => mode (res s) = m0 /\ Forall (on_transport m0) (wire s))
            _ _ _ _ _ _ _ _ _ _ fuel err st st' E H).
  - intros e s _ P. unfold exhausted. destruct (truthy e).
    + apply (W (renderError e)); [apply renderError_on_transport|exact P].
    + destruct (negb _); [|exact P].
      apply (W respond_not_found); [|exact P].
      intros r. exact (json_on_transport not_found_body (status 404 r)).
  - intros e s l _ _ P. exact P.
  - intros e s l _ _ P. exact P.
  - intros code s P. exact P.
  - intros f v s P. exact P.
  - intros ck s P. exact P.
  - intros v s P. apply (W (send v)); [apply send_on_transport|exact P].
  - intros v s P. apply (W (json v)); [apply json_on_transport|exact P].
  - intros ps s P. exact P.
  - intros f e s s' P _ IH. apply IH. exact P.
Qed.

(** A settled run wrote at most one item, on the transport of its
    response. *)
Lemma runPipeline_on_transport app req m c o st :
  runPipeline app req (create m c o) = Settled st ->
  (length (wire st) <= 1)%nat /\ Forall (on_transport m) (wire st).
Proof.
  intros R. split.
  - pose proof (runPipeline_inv app req m c o) as H. rewrite R in H.
    destruct H as (stack & ps & _ & W & _). unfold wire_ok in W. rewrite W.
    destruct (sent (res st)); lia.
  - unfold runPipeline in R. destruct (composeStack app req) as [|stack ps]; [discriminate|].
    destruct (next stack (length stack) VUndefined
                (initial_state (with_params ps req) (create m c o))) as [s|] eqn:E;
      [|discriminate].
    injection R as ->. apply (next_on_transport stack m _ _ _ _ E).
    split; [reflexivity|constructor].
Qed.

End TransportFacts.

(* ===================================================================== *)
(** ** Statements about the HTTP path of the server *)
(* ===================================================================== *)

Module HttpProps.
Import ObjFacts ResponseFacts EngineFacts HeaderProps TransportFacts.

Lemma read_events_limit limit ending : forall chunks total collected,
  (total <= limit)%Z ->
  read_events limit total collected chunks ending =
  if (total + stream_length chunks <=? limit)%Z then
    {| read_result := match ending with
                      | StreamEnds => ReadResolves (collected ++ concat chunks)
                      | StreamFails message => ReadRejects message
                      end;
       request_destroyed := false |}
  else {| read_result := ReadRejects "Payload too large"; request_destroyed := true |}.
Proof.
  unfold stream_length.
  induction chunks as [|chunk chunks IH]; intros total collected Ht;
    cbn [read_events concat].
  - cbn [length]. rewrite Z.add_0_r, app_nil_r.
    destruct (total <=? limit)%Z eqn:E; [reflexivity|]. apply Z.leb_gt in E. lia.
  - rewrite length_app, Nat2Z.inj_add.
    destruct (total + Z.of_nat (length chunk) >? limit)%Z eqn:G.
    + rewrite Z.gtb_ltb in G. apply Z.ltb_lt in G.
      destruct (_ <=? _)%Z eqn:L; [|reflexivity]. apply Z.leb_le in L. lia.
    + rewrite Z.gtb_ltb in G. apply Z.ltb_ge in G.
      rewrite IH by lia. now rewrite Z.add_assoc, app_assoc.
Qed.

(** X10. The body limit is exact and counts the whole stream: a stream that ends
    is read as the concatenation of its chunks when its total length is at
    most the limit, and is refused otherwise, however the octets are split
    into chunks; below the limit a failing stream fails the read with its
    own error. *)
Theorem body_limit_is_exact (chunks : list (list Byte.byte)) (ending : StreamEnding)
    (limit : Z) :
  (0 <= limit)%Z ->
  readBody chunks ending limit =
  if (stream_length chunks <=? limit)%Z then
    match ending with
    | StreamEnds => ReadResolves (concat chunks)
    | StreamFails message => ReadRejects message
    end
  else ReadRejects "Payload too large".
Proof.
  intros H. unfold readBody. rewrite read_events_limit by exact H.
  cbn [Z.add]. now destruct (_ <=? _)%Z.
Qed.

Lemma body_limit_is_exact_witness :
  readBody [[Byte.x61; Byte.x62]; [Byte.x63]] StreamEnds 3 =
    ReadResolves [Byte.x61; Byte.x62; Byte.x63] /\
  readBody [[Byte.x61; Byte.x62]; [Byte.x63]] StreamEnds 2 =
    ReadRejects "Payload too large".
Proof.
  split.
  - apply (body_limit_is_exact [[Byte.x61; Byte.x62]; [Byte.x63]] StreamEnds 3). lia.
  - apply (body_limit_is_exact [[Byte.x61; Byte.x62]; [Byte.x63]] StreamEnds 2). lia.
Defined.



(** X12. A request whose method reads [OPTIONS] and whose body could be read is
    answered 204 with an empty body and the CORS headers of the
    configuration, whatever the path and whatever middleware and routes are
    registered: the pipeline is not run. *)
Theorem preflight_is_answered_204 (parsers : BodyParsers) (app : SockressApp)
    (nanoid : string) (inc : IncomingHttp) (parsedBody : WireBody) :
  http_body parsers (bodyLimit (config app)) inc = ParsedValue parsedBody ->
  toUpperCase (nullish (hi_method inc) "GET") = "OPTIONS" ->
  exists x,
    handleHttp parsers app nanoid inc = [x] /\
    emitted_status x = 204%Z /\ emitted_payload x = VUndefined /\
    carries_cors (opt_cors (config app))
                 (pickOrigin (hi_origin inc) (origin (opt_cors (config app)))) x.
Proof.
  intros Hb Hm. unfold handleHttp. rewrite Hb. cbn [http_request req_method].
  rewrite Hm. cbn [String.eqb Ascii.eqb Bool.eqb].
  set (r := status 204 (create ModeHttp (opt_cors (config app))
                          (pickOrigin (hi_origin inc) (origin (opt_cors (config app)))))).
  pose proof (send_carries_cors VUndefined r (List.NoDup_nil _)) as C.
  rewrite (send_when_unsent VUndefined r eq_refl) in C |- *. cbn [snd] in C |- *.
  eexists. split; [reflexivity|]. split; [reflexivity|]. split; [reflexivity|].
  apply Forall_cons in C as [C _]. exact C.
Qed.

Lemma preflight_is_answered_204_witness :
  exists x,
    handleHttp json_parsers api_app "r1" options_anywhere = [x] /\
    emitted_status x = 204%Z /\ emitted_payload x = VUndefined.
Proof.
  destruct (preflight_is_answered_204 json_parsers api_app "r1" options_anywhere
              (BodyValue VUndefined)) as (x & E & S & P & _); [reflexivity|reflexivity|].
  exists x. auto.
Defined.

(** X13. An HTTP request is answered at most once, and only ever on the raw HTTP
    response: by the pipeline, or by the raw 500 when reading the body,
    parsing it or composing the stack fails. *)
Theorem http_request_is_answered_at_most_once (parsers : BodyParsers) (app : SockressApp)
    (nanoid : string) (inc : IncomingHttp) :
  (length (handleHttp parsers app nanoid inc) <= 1)%nat /\
  Forall (fun x => emitted_message x = None) (handleHttp parsers app nanoid inc).
Proof.
  unfold handleHttp. destruct (http_body _ _ _) as [message|parsedBody].
  - split; [cbn; lia|repeat constructor].
  - destruct (String.eqb _ "OPTIONS").
    + set (r := status 204 _). rewrite (send_when_unsent VUndefined r eq_refl). cbn [snd].
      split; [cbn; lia|]. repeat constructor.
    + match goal with |- context [runPipeline ?a ?q (create ?m ?c ?o)] =>
        pose proof (runPipeline_on_transport a q m c o) as H;
        pose proof (runPipeline_inv a q m c o) as V;
        destruct (runPipeline a q (create m c o)) as [message|st|]
      end.
      * split; [cbn; lia|repeat constructor].
      * destruct (H st eq_refl) as [L F]. split; [exact L|].
        eapply Forall_impl; [exact F|]. intros [code hs b|msg]; [reflexivity|intros []].
      * destruct V.
Qed.

(** X14. A route whose method fits and whose matcher throws on the path (a
    malformed escape in a captured segment) rejects the whole request before
    any layer is called, wherever it stands among the routes and whatever
    else matches. *)
Theorem malformed_escape_rejects_request (app : SockressApp) (req : SockressRequest)
    (res : SockressResponse) (route : RouteLayer) :
  In route (routes app) ->
  rt_method route = req_method req \/ rt_method route = "ALL" ->
  match_path (rt_matcher route) (req_path req) = MatchThrows ->
  runPipeline app req res = Rejected "URI malformed".
Proof.
  intros Hin Hm Ht. unfold runPipeline, composeStack.
  enough (E : forall stack ps,
             compose_routes app (req_method req) (req_path req) (routes app) stack ps
             = ComposeThrows) by now rewrite E.
  revert Hin. generalize (routes app) as rs.
  induction rs as [|r rs IH]; intros Hin stack ps; [destruct Hin|].
  cbn [compose_routes]. destruct Hin as [->|Hin].
  - assert (G : negb (String.eqb (rt_method route) (req_method req)) &&
                negb (String.eqb (rt_method route) "ALL") = false).
    { destruct Hm as [-> | ->].
      - now rewrite String.eqb_refl.
      - rewrite String.eqb_refl. cbn. apply andb_false_r. }
    now rewrite G, Ht.
  - destruct (negb _ && negb _); [now apply IH|].
    destruct (match_path (rt_matcher r) (req_path req)); [now apply IH|now apply IH|reflexivity].
Qed.

Lemma malformed_escape_rejects_request_witness :
  runPipeline api_app (get_request "/api/users/%zz") (create ModeHttp default_cors "*") =
    Rejected "URI malformed".
Proof.
  apply (malformed_escape_rejects_request api_app (get_request "/api/users/%zz")
           (create ModeHttp default_cors "*")
           {| rt_method := "GET"; rt_matcher := buildMatcher "/api/users/:id";
              rt_handlers := [respond_ok] |}).
  - left. reflexivity.
  - left. reflexivity.
  - reflexivity.
Defined.

End HttpProps.

(* ===================================================================== *)
(** ** Further statements about the server *)
(* ===================================================================== *)

Module ServerMoreProps.
Import ObjFacts ResponseFacts EngineFacts TransportFacts ServerProps MatcherProps.

Lemma startsWith_app p rest : startsWith (p +:+ rest) p = true.
Proof.
  induction p as [|a p IH]; [now destruct rest|]. rewrite append_cons. cbn.
  now rewrite Ascii.eqb_refl.
Qed.

Lemma startsWith_append_l p a b : startsWith (p +:+ a) (p +:+ b) = startsWith a b.
Proof.
  induction p as [|x p IH]; [reflexivity|]. rewrite !append_cons. cbn.
  now rewrite Ascii.eqb_refl.
Qed.

(** X15. A middleware prefix applies to whole segments: to the prefix itself and
    to every path that continues it after a slash, and to no path that
    continues it with another character. A prefix written without its
    leading slash stands for the one with it. *)
Theorem prefix_matches_whole_segments (base rest : string) :
  base <> "" -> base <> "/" -> startsWith base "/" = true ->
  matchesPrefix base base = true /\
  matchesPrefix base (base +:+ String slash rest) = true /\
  (forall c, c <> slash -> matchesPrefix base (base +:+ String c rest) = false) /\
  (forall relative path, relative <> "" -> startsWith relative "/" = false ->
     matchesPrefix relative path = matchesPrefix (String slash relative) path).
Proof.
  intros H0 H1 Hs. apply String.eqb_neq in H0, H1.
  unfold matchesPrefix. rewrite H0, H1, Hs. cbn [orb].
  split; [now rewrite String.eqb_refl|]. split; [|split].
  - change (String slash rest) with ("/" +:+ rest).
    rewrite <- append_assoc, startsWith_app. apply orb_true_r.
  - intros c Hc.
    rewrite <- (append_nil_r base) at 2. rewrite eqb_append_l. cbn [String.eqb orb].
    rewrite startsWith_append_l. cbn [startsWith]. apply Ascii.eqb_neq in Hc.
    rewrite Ascii.eqb_sym in Hc. unfold slash in Hc. now rewrite Hc.
  - intros relative path Hr Hl. destruct relative as [|a r]; [contradiction|].
    assert (E1 : String.eqb (String a r) "/" = false).
    { apply String.eqb_neq. intros [= -> ->]. discriminate. }
    assert (E3 : String.eqb (String slash (String a r)) "/" = false).
    { apply String.eqb_neq. discriminate. }
    rewrite E1, E3, Hl.
    change (startsWith (String slash (String a r)) "/") with true.
    reflexivity.
Qed.

Lemma prefix_matches_whole_segments_witness :
  matchesPrefix "/api" "/api/users" = true /\ matchesPrefix "/api" "/apiary" = false.
Proof.
  destruct (prefix_matches_whole_segments "/api" "users") as (_ & A & _);
    [discriminate|discriminate|reflexivity|].
  destruct (prefix_matches_whole_segments "/api" "ry") as (_ & _ & B & _);
    [discriminate|discriminate|reflexivity|].
  split; [exact A|]. apply (B "a"%char). discriminate.
Defined.

(** X16. Over an allow-list the origin written in the CORS header is always one
    of the list: the origin of the request when it is listed, the first of
    the list otherwise. A single configured origin is written as it is. *)
Theorem picked_origin_is_allow_listed (requestOrigin : option string)
    (first : string) (others : list string) :
  In (pickOrigin requestOrigin (OriginMany (first :: others))) (first :: others) /\
  (forall o, requestOrigin = Some o -> o <> "" -> In o (first :: others) ->
             pickOrigin requestOrigin (OriginMany (first :: others)) = o) /\
  (forall o, requestOrigin = Some o -> ~ In o (first :: others) ->
             pickOrigin requestOrigin (OriginMany (first :: others)) = first) /\
  (forall a, pickOrigin requestOrigin (OriginOne a) = a).
Proof.
  split; [|split; [|split]].
  - unfold pickOrigin. destruct requestOrigin as [o|]; [|now left].
    destruct (negb _ && includes _ o) eqn:E; [|now left].
    apply andb_true_iff in E as [_ E]. now apply includes_In.
  - intros o -> Hn Hin. unfold pickOrigin. apply String.eqb_neq in Hn. rewrite Hn.
    apply includes_In in Hin. now rewrite Hin.
  - intros o -> Hn. unfold pickOrigin.
    destruct (includes (first :: others) o) eqn:E.
    + apply includes_In in E. contradiction.
    + now rewrite andb_false_r.
  - reflexivity.
Qed.

Lemma picked_origin_is_allow_listed_witness :
  pickOrigin (Some "https://b.example") (OriginMany ["https://a.example"; "https://b.example"])
    = "https://b.example" /\
  pickOrigin (Some "https://evil.example")
             (OriginMany ["https://a.example"; "https://b.example"])
    = "https://a.example".
Proof.
  destruct (picked_origin_is_allow_listed (Some "https://b.example")
              "https://a.example" ["https://b.example"]) as (_ & A & _).
  destruct (picked_origin_is_allow_listed (Some "https://evil.example")
              "https://a.example" ["https://b.example"]) as (_ & _ & B & _).
  split.
  - apply (A "https://b.example"); [reflexivity|discriminate|]. right. now left.
  - apply (B "https://evil.example"); [reflexivity|]. intros [H|[H|[]]]; discriminate.
Defined.

(** An envelope of another type than [request] is refused. *)
Lemma on_message_unsupported (app : SockressApp) (originHeader : option string)
    (nanoid : string) (payload : IncomingSocketMessage) :
  in_type payload <> Some "request" ->
  on_message app originHeader nanoid (FrameEnvelope payload) =
    [EmitSocket (error_envelope "Unsupported message type")].
Proof.
  intros T. unfold on_message. destruct (in_type payload) as [t|]; [|reflexivity].
  assert (T' : t <> "request") by congruence. clear T.
  repeat match goal with
         | |- context [match ?s with EmptyString => _ | String _ _ => _ end] => destruct s
         | |- context [match ?a with Ascii _ _ _ _ _ _ _ _ => _ end] => destruct a
         | |- context [if ?b then _ else _] => destruct b
         end; try reflexivity.
  now destruct T'.
Qed.

(** What the [message] listener sends in answer to a frame: one [error]
    envelope, or what a settled run of the pipeline wrote on a response
    created for the socket under the id of the request. *)
Lemma on_message_cases (app : SockressApp) (originHeader : option string)
    (nanoid : string) (frame : SocketFrame) :
  (exists message,
     on_message app originHeader nanoid frame = [EmitSocket (error_envelope message)]) \/
  (exists payload st,
     frame = FrameEnvelope payload /\
     runPipeline app (socket_request payload nanoid)
       (create (ModeSocket (nullish (in_id payload) nanoid)) (opt_cors (config app))
               (pickOrigin originHeader (origin (opt_cors (config app))))) = Settled st /\
     on_message app originHeader nanoid frame = wire st).
Proof.
  destruct frame as [message|payload]; [left; now exists message|].
  destruct (decide (in_type payload = Some "request")) as [T|T].
  - unfold on_message. rewrite T.
    change (req_id (socket_request payload nanoid)) with (nullish (in_id payload) nanoid).
    match goal with |- context [runPipeline ?a ?q (create ?m ?c ?o)] =>
      pose proof (runPipeline_inv a q m c o) as V;
      destruct (runPipeline a q (create m c o)) as [message|st|] eqn:R
    end.
    + left. now exists message.
    + right. exists payload, st. split; [reflexivity|]. split; [exact R|reflexivity].
    + destruct V.
  - left. eexists. now apply on_message_unsupported.
Qed.

(** X17. A frame received on a socket is answered with at most one message: an
    [error] envelope without an id, or the [response] envelope of the
    request, tagged with the id of the envelope or, for want of one, with
    the generated id. *)
Theorem socket_frame_is_answered_at_most_once (app : SockressApp)
    (originHeader : option string) (nanoid : string) (frame : SocketFrame) :
  (length (on_message app originHeader nanoid frame) <= 1)%nat /\
  Forall (fun x => exists m, x = EmitSocket m /\
            ((msg_type m = MsgError /\ msg_id m = None) \/
             (msg_type m = MsgResponse /\
              exists payload, frame = FrameEnvelope payload /\
                              msg_id m = Some (nullish (in_id payload) nanoid))))
         (on_message app originHeader nanoid frame).
Proof.
  destruct (on_message_cases app originHeader nanoid frame)
    as [(message & ->)|(payload & st & -> & R & ->)].
  - split; [cbn; lia|]. constructor; [|constructor].
    eexists. split; [reflexivity|]. left. split; reflexivity.
  - destruct (runPipeline_on_transport _ _ _ _ _ _ R) as [L F]. split; [exact L|].
    eapply Forall_impl; [exact F|]. intros [code hs b|msg]; [intros []|].
    intros [Ht Hi]. eexists. split; [reflexivity|]. right. split; [exact Ht|].
    exists payload. split; [reflexivity|exact Hi].
Qed.

Lemma lower_ascii_same (a b : ascii) :
  Ascii.eqb (lower_ascii a) (lower_ascii b) = same_letter a b.
Proof.
  assert (E : forall x y, Ascii.eqb x y = (nat_of_ascii x =? nat_of_ascii y)%nat).
  { intros x y. destruct (Ascii.eqb_spec x y) as [->|N].
    - now rewrite Nat.eqb_refl.
    - symmetry. apply Nat.eqb_neq. intros H. apply N.
      now rewrite <- (ascii_nat_embedding x), <- (ascii_nat_embedding y), H. }
  pose proof (nat_ascii_bounded a) as Ba. pose proof (nat_ascii_bounded b) as Bb.
  unfold same_letter, lower_ascii, is_upper. cbv zeta.
  repeat match goal with
         | |- context [(?x <=? ?y)%nat] => destruct (Nat.leb_spec x y)
         end; cbn [andb orb]; rewrite !E, ?nat_ascii_embedding by lia;
  repeat match goal with
         | |- context [(?x =? ?y)%nat] => destruct (Nat.eqb_spec x y)
         end; cbn [andb orb]; try reflexivity; lia.
Qed.

Lemma toLowerCase_same (s : string) :
  forall t, String.eqb (toLowerCase s) (toLowerCase t) = same_name s t.
Proof.
  induction s as [|a s IH]; intros [|b t]; try reflexivity.
  cbn [toLowerCase same_name String.eqb]. rewrite <- IH, <- lower_ascii_same.
  now destruct (Ascii.eqb _ _).
Qed.

Lemma normalizeHeaders_get field (headers : JsObj (option FieldValue)) :
  forall normalized,
    obj_get (toLowerCase field)
      (fold_left (fun normalized kv =>
                    match snd kv with
                    | None => normalized
                    | Some v => obj_set (toLowerCase (fst kv)) v normalized
                    end) headers normalized) =
    match last_header field headers with
    | Some v => Some v
    | None => obj_get (toLowerCase field) normalized
    end.
Proof.
  induction headers as [|[k v] headers IH]; intros normalized; [reflexivity|].
  cbn [fold_left last_header fst snd]. rewrite IH.
  destruct (last_header field headers) as [later|]; [reflexivity|].
  rewrite <- toLowerCase_same, (String.eqb_sym (toLowerCase k)).
  destruct v as [v|]; [|now destruct (String.eqb _ _)].
  rewrite obj_get_set. now destruct (String.eqb _ _).
Qed.

(** X18. A header of a socket request is read whatever the case of its name,
    in the envelope or in the lookup. For names of code units below 128,
    none of which is [constructor] or [__proto__] once in small letters (the
    two lower-case names a plain object inherits): [req.get] returns the
    last defined value the envelope holds under a name that differs from the
    one asked for at most in the case of its letters, the first entry when
    that value is an array, and it returns the same for every spelling of
    the name that differs in case only. *)
Theorem header_lookup_ignores_case (headers : JsObj (option FieldValue)) (field : string) :
  Forall (fun kv => is_ascii (fst kv) = true /\
                    plain_key (toLowerCase (fst kv)) = true) headers ->
  is_ascii field = true -> plain_key (toLowerCase field) = true ->
  request_get (normalizeHeaders headers) field =
    match last_header field headers with
    | Some (FieldStr v) => Some v
    | Some (FieldArr (v :: _)) => Some v
    | _ => None
    end /\
  (forall spelling,
      same_name field spelling = true ->
      request_get (normalizeHeaders headers) spelling =
      request_get (normalizeHeaders headers) field).
Proof.
  intros _ _ _. split.
  - unfold request_get, normalizeHeaders. rewrite normalizeHeaders_get.
    now destruct (last_header field headers).
  - intros spelling S. rewrite <- toLowerCase_same in S.
    apply String.eqb_eq in S. unfold request_get. now rewrite S.
Qed.

Lemma header_lookup_ignores_case_witness :
  request_get (normalizeHeaders [("Content-Type", Some (FieldStr "text/plain"));
                                 ("X-Tag", None);
                                 ("content-type", Some (FieldArr ["a/b"; "c"]))])
              "CONTENT-TYPE" = Some "a/b" /\
  request_get (normalizeHeaders [("Content-Type", Some (FieldStr "text/plain"));
                                 ("X-Tag", None);
                                 ("content-type", Some (FieldArr ["a/b"; "c"]))])
              "Content-type" = Some "a/b".
Proof.
  destruct (header_lookup_ignores_case
              [("Content-Type", Some (FieldStr "text/plain"));
               ("X-Tag", None);
               ("content-type", Some (FieldArr ["a/b"; "c"]))] "CONTENT-TYPE")
    as [G S].
  - repeat constructor.
  - reflexivity.
  - reflexivity.
  - split; [exact G|]. rewrite (S "Content-type" eq_refl). exact G.
Defined.

(** X19. A sanitized file name has as many code units as the name, holds only
    letters, digits, dots, hyphens and underscores, hence neither a slash
    nor a backslash, and is left as it is by a second pass; a name that
    holds only such characters is not changed. *)
Theorem sanitized_filename_is_plain (name : list N) :
  length (sanitizeFilename name) = length name /\
  Forall (fun u => filename_unit u = true) (sanitizeFilename name) /\
  ~ In 47%N (sanitizeFilename name) /\ ~ In 92%N (sanitizeFilename name) /\
  sanitizeFilename (sanitizeFilename name) = sanitizeFilename name /\
  (Forall (fun u => filename_unit u = true) name -> sanitizeFilename name = name).
Proof.
  assert (F : Forall (fun u => filename_unit u = true) (sanitizeFilename name)).
  { unfold sanitizeFilename. induction name as [|u name IH]; [constructor|].
    cbn [map]. constructor; [|exact IH]. now destruct (filename_unit u) eqn:E. }
  assert (K : forall l, Forall (fun u => filename_unit u = true) l -> sanitizeFilename l = l).
  { unfold sanitizeFilename. induction 1 as [|u l Hu _ IH]; [reflexivity|].
    cbn [map]. now rewrite Hu, IH. }
  split; [apply length_map|]. split; [exact F|]. split; [|split; [|split]].
  - intros H. rewrite Forall_forall in F. apply list_elem_of_In, F in H. discriminate.
  - intros H. rewrite Forall_forall in F. apply list_elem_of_In, F in H. discriminate.
  - exact (K _ F).
  - exact (K name).
Qed.

Lemma sanitized_filename_is_plain_witness :
  sanitizeFilename [97; 46; 112; 110; 103]%N = [97; 46; 112; 110; 103]%N /\
  ~ In 47%N (sanitizeFilename [46; 46; 47; 120]%N).
Proof.
  split.
  - apply (sanitized_filename_is_plain [97; 46; 112; 110; 103]%N).
    repeat constructor.
  - apply (sanitized_filename_is_plain [46; 46; 47; 120]%N).
Defined.

Lemma heartbeat_terminated evs : forall s,
  terminated s = true -> terminated (fold_left heartbeat_step evs s) = true.
Proof.
  induction evs as [|ev evs IH]; intros s Hs; [exact Hs|].
  cbn [fold_left]. apply IH. destruct ev; cbn [heartbeat_step].
  - unfold heartbeat_socket. now rewrite Hs.
  - exact Hs.
Qed.

Lemma heartbeat_run evs : forall s,
  terminated s = false ->
  terminated (fold_left heartbeat_step evs s) =
  negb (responsive (match isAlive s with Some false => false | _ => true end) evs).
Proof.
  induction evs as [|ev evs IH]; intros s Hs; [exact Hs|].
  cbn [fold_left]. destruct ev; cbn [heartbeat_step responsive].
  - unfold heartbeat_socket. rewrite Hs. destruct (isAlive s) as [[|]|].
    + rewrite IH by reflexivity. reflexivity.
    + cbn [andb negb]. now apply heartbeat_terminated.
    + rewrite IH by reflexivity. reflexivity.
  - rewrite IH by exact Hs. reflexivity.
Qed.

(** X20. The heartbeat terminates a socket exactly when some tick of the
    interval finds the ping of the previous tick unanswered: a socket that
    answers every ping before the next tick is never terminated, and one
    that stops answering is terminated at the second tick after its last
    pong. *)
Theorem heartbeat_terminates_silent_sockets (evs : list HeartbeatEvent) :
  terminated (fold_left heartbeat_step evs accept_socket) = negb (responsive true evs) /\
  (forall clients, heartbeat clients = map (fun s => heartbeat_step s Tick) clients) /\
  (forall s, terminated s = false ->
             terminated (fold_left heartbeat_step [Tick; Tick] s) = true).
Proof.
  split; [exact (heartbeat_run evs accept_socket eq_refl)|]. split; [reflexivity|].
  intros s Hs. rewrite (heartbeat_run [Tick; Tick] s Hs). cbn.
  now destruct (isAlive s) as [[|]|].
Qed.

Lemma heartbeat_terminates_silent_sockets_witness :
  terminated (fold_left heartbeat_step [Tick; Pong; Tick; Pong] accept_socket) = false /\
  terminated (fold_left heartbeat_step [Tick; Tick] (on_pong accept_socket)) = true.
Proof.
  split.
  - apply (heartbeat_terminates_silent_sockets [Tick; Pong; Tick; Pong]).
  - apply (heartbeat_terminates_silent_sockets []). reflexivity.
Defined.

End ServerMoreProps.

(* ===================================================================== *)
(** ** Further statements about the client *)
(* ===================================================================== *)

Module SessionProps.
Import ObjFacts ClientProps FormProps TransportFacts ServerMoreProps.

(** *** Settling a pending request *)

(** X21. A pending request is settled once, by whichever comes first of its
    response and its timeout: the response resolves it with the response of
    the envelope and clears its timer, a timeout rejects it, and after
    either the other one, or a second response, changes nothing. Other
    pending requests are left as they are. *)
Theorem pending_request_settles_once (c : SockressClient) (id : string)
    (payload : InboundEnvelope) :
  is_Some (pending c !! id) ->
  ie_type payload = Some "response" -> ie_id payload = Some id ->
  let answered := handleSocketMessage payload c in
  let timed_out := on_timeout id c in
  settled answered = settled c ++ [(id, Resolved (createClientResponse payload))] /\
  on_timeout id answered = answered /\
  handleSocketMessage payload answered = answered /\
  settled timed_out = settled c ++ [(id, RejectedWith "Socket request timed out")] /\
  handleSocketMessage payload timed_out = timed_out /\
  (forall other, other <> id -> pending answered !! other = pending c !! other).
Proof.
  intros [p Hp] Ht Hi answered timed_out.
  assert (R : forall s, handleSocketMessage payload s =
                match pending s !! id with
                | Some _ => settle id (Resolved (createClientResponse payload))
                                   (clearPending id s)
                | None => s
                end).
  { intros s. unfold handleSocketMessage. rewrite Ht, Hi.
    change (includes push_types (nullish (Some "response") "")) with false.
    rewrite andb_false_r. cbn [pending_get]. now destruct (pending s !! id). }
  assert (A : answered = settle id (Resolved (createClientResponse payload))
                                (clearPending id c)).
  { subst answered. now rewrite R, Hp. }
  assert (T : timed_out = settle id (RejectedWith "Socket request timed out")
                                 (clearPending id c)).
  { subst timed_out. unfold on_timeout. now rewrite Hp. }
  assert (D : forall s, pending (settle id s (clearPending id c)) !! id = None).
  { intros s. cbn. apply pending_lookup_delete_eq. }
  split; [now rewrite A|]. split; [|split; [|split; [|split]]].
  - rewrite A. unfold on_timeout. now rewrite D.
  - rewrite R, A. now rewrite D.
  - now rewrite T.
  - rewrite R, T. now rewrite D.
  - intros other Ho. rewrite A. cbn. apply pending_lookup_delete_ne. congruence.
Qed.

Lemma pending_request_settles_once_witness :
  settled (handleSocketMessage
             {| ie_type := Some "response"; ie_id := Some "r1"; ie_status := 200;
                ie_headers := None; ie_body := VStr "pong"; ie_message := "" |}
             waiting_client) =
    [("r1", Resolved {| rsp_status := 200; rsp_ok := true; rsp_headers := [];
                        rsp_body := VStr "pong" |})].
Proof.
  apply (pending_request_settles_once waiting_client "r1"
           {| ie_type := Some "response"; ie_id := Some "r1"; ie_status := 200;
              ie_headers := None; ie_body := VStr "pong"; ie_message := "" |});
    [|reflexivity|reflexivity].
  exists {| pr_timeout := 15000 |}. reflexivity.
Defined.

(** *** Closing *)

Lemma closed_on_event ev s :
  socketEnabled s = false -> pending s = ∅ ->
  socketEnabled (on_event ev s) = false /\ pending (on_event ev s) = ∅ /\
  reconnects (on_event ev s) = reconnects s /\ settled (on_event ev s) = settled s.
Proof.
  intros E P. destruct ev; cbn [on_event].
  - unfold handleOpen, flushQueue. cbn. destruct (ws s) as [sock|]; [|auto].
    destruct (Z.eqb _ _); auto.
  - unfold handleError. cbn. rewrite P. cbn. rewrite app_nil_r. auto.
  - unfold handleClose, scheduleReconnect. cbn. rewrite E. cbn.
    rewrite P. cbn. rewrite app_nil_r. auto.
Qed.

Lemma closed_after_events evs : forall s,
  socketEnabled s = false -> pending s = ∅ ->
  socketEnabled (after_events evs s) = false /\ pending (after_events evs s) = ∅ /\
  reconnects (after_events evs s) = reconnects s /\
  settled (after_events evs s) = settled s.
Proof.
  unfold after_events. induction evs as [|ev evs IH]; intros s E P; [auto|].
  cbn [fold_left]. destruct (closed_on_event ev s E P) as (E' & P' & R' & S').
  destruct (IH _ E' P') as (A & B & C & D). rewrite <- R', <- S'. auto.
Qed.

(** X22. Closing is final: every pending request is rejected with [Client
    closed], a second [close] does nothing, and whatever events the old
    socket still delivers, no reconnect is scheduled, no request is pending
    or settled any more, and every later request goes to HTTP without
    touching the socket. *)
Theorem closed_client_stays_closed (c : SockressClient) (evs : list SocketEvent) :
  closeRequested c = false ->
  (forall id p, pending c !! id = Some p ->
                In (id, RejectedWith "Client closed") (settled (close c))) /\
  close (close c) = close c /\
  socketEnabled (after_events evs (close c)) = false /\
  pending (after_events evs (close c)) = ∅ /\
  reconnects (after_events evs (close c)) = reconnects c /\
  settled (after_events evs (close c)) = settled (close c) /\
  (forall o nanoid,
     request o nanoid (after_events evs (close c)) =
       (after_events evs (close c),
        CallHttp (transport_input (after_events evs (close c)) o))).
Proof.
  intros H.
  assert (E : socketEnabled (close c) = false) by (unfold close; now rewrite H).
  assert (P : pending (close c) = ∅) by (unfold close; now rewrite H).
  assert (R : reconnects (close c) = reconnects c) by (unfold close; now rewrite H).
  destruct (closed_after_events evs (close c) E P) as (E' & P' & R' & S').
  split; [|split; [|split; [|split; [|split; [|split]]]]].
  - intros id p Hp. unfold close. rewrite H. now apply (rejected_all _ _ id p).
  - unfold close at 1. replace (closeRequested (close c)) with true; [reflexivity|].
    unfold close. now rewrite H.
  - exact E'.
  - exact P'.
  - now rewrite R'.
  - exact S'.
  - intros o nanoid. unfold request. now rewrite E', andb_false_r.
Qed.

Lemma closed_client_stays_closed_witness :
  In ("r1", RejectedWith "Client closed") (settled (close waiting_client)) /\
  reconnects (after_events [OnClose; OnError] (close waiting_client)) = [] /\
  snd (request get_ping "id2" (after_events [OnClose] (close waiting_client))) =
    CallHttp (transport_input (after_events [OnClose] (close waiting_client)) get_ping).
Proof.
  split; [|split].
  - destruct (closed_client_stays_closed waiting_client [] eq_refl) as (A & _).
    apply (A "r1" {| pr_timeout := 15000 |}). reflexivity.
  - apply (closed_client_stays_closed waiting_client [OnClose; OnError] eq_refl).
  - destruct (closed_client_stays_closed waiting_client [OnClose] eq_refl)
      as (_ & _ & _ & _ & _ & _ & A).
    now rewrite A.
Defined.

(** *** Reconnecting *)

Lemma handleClose_backoff c made :
  wsFactory (options c) = Some made -> socketEnabled c = true ->
  options (handleClose c) = options c /\ socketEnabled (handleClose c) = true /\
  reconnectAttempts (handleClose c) = (reconnectAttempts c + 1)%Z /\
  reconnects (handleClose c) =
    reconnects c ++ [Z.min (reconnectInterval (options c) * (reconnectAttempts c + 1))
                           (maxReconnectInterval (options c))].
Proof.
  intros F E. unfold handleClose, scheduleReconnect. cbn. rewrite E, F. cbn. auto.
Qed.

Lemma closes_backoff n : forall c made,
  wsFactory (options c) = Some made -> socketEnabled c = true ->
  reconnects (after_events (repeat OnClose n) c) =
    reconnects c ++
    map (fun i => Z.min (reconnectInterval (options c) * (reconnectAttempts c + Z.of_nat i))
                        (maxReconnectInterval (options c)))
        (seq 1 n).
Proof.
  unfold after_events. induction n as [|n IH]; intros c made F E.
  - cbn. now rewrite app_nil_r.
  - cbn [repeat fold_left on_event].
    destruct (handleClose_backoff c made F E) as (O & E' & A & R).
    rewrite (IH (handleClose c) made); [|now rewrite O|exact E'].
    rewrite R, O, A, <- app_assoc. f_equal. cbn [seq map List.app].
    replace (reconnectAttempts c + Z.of_nat 1)%Z with (reconnectAttempts c + 1)%Z by lia.
    f_equal. rewrite <- (seq_shift n 1), map_map. apply map_ext. intros i.
    do 2 f_equal. lia.
Qed.

(** X23. Reconnects back off linearly up to the ceiling: the timers set by a run
    of close events wait for the base interval times the number of the
    attempt, counted from the attempts made so far, and never longer than the
    maximum interval; once the socket has opened the count starts again, so
    the next close waits for one base interval. *)
Theorem reconnect_backoff_is_linear_and_capped (c : SockressClient) (made : FactoryResult)
    (n : nat) :
  wsFactory (options c) = Some made -> socketEnabled c = true ->
  reconnects (after_events (repeat OnClose n) c) =
    reconnects c ++
    map (fun i => Z.min (reconnectInterval (options c) * (reconnectAttempts c + Z.of_nat i))
                        (maxReconnectInterval (options c)))
        (seq 1 n) /\
  (forall d, In d (map (fun i => Z.min (reconnectInterval (options c) *
                                        (reconnectAttempts c + Z.of_nat i))
                                       (maxReconnectInterval (options c)))
                       (seq 1 n)) ->
             (d <= maxReconnectInterval (options c))%Z) /\
  reconnects (handleClose (handleOpen c)) =
    reconnects c ++ [Z.min (reconnectInterval (options c)) (maxReconnectInterval (options c))].
Proof.
  intros F E. split; [exact (closes_backoff n c made F E)|]. split.
  - intros d Hd. apply in_map_iff in Hd as (i & <- & _). apply Z.le_min_r.
  - assert (O : options (handleOpen c) = options c /\ socketEnabled (handleOpen c) = true /\
                reconnectAttempts (handleOpen c) = 0%Z /\
                reconnects (handleOpen c) = reconnects c).
    { unfold handleOpen, flushQueue. cbn. destruct (ws c) as [sock|]; [|auto].
      destruct (Z.eqb _ _); auto. }
    destruct O as (O & E' & A & R).
    destruct (handleClose_backoff (handleOpen c) made) as (_ & _ & _ & R');
      [now rewrite O|exact E'|].
    rewrite R', O, A, R. do 3 f_equal. lia.
Qed.

Lemma reconnect_backoff_is_linear_and_capped_witness :
  reconnects (after_events (repeat OnClose 3) waiting_client) = [3000; 4000; 5000]%Z.
Proof.
  apply (reconnect_backoff_is_linear_and_capped waiting_client (FactorySocket 1) 3);
    reflexivity.
Defined.

(** *** Queueing *)

Lemma sendViaSocket_queues input t nanoid c rs :
  wsFactory (options c) = Some (FactorySocket rs) -> rs <> 1%Z ->
  (forall sock, ws c = Some sock -> readyState sock <> 1%Z) ->
  options (fst (sendViaSocket input t nanoid c)) = options c /\
  ws (fst (sendViaSocket input t nanoid c)) = Some {| readyState := rs; frames := [] |} /\
  queue (fst (sendViaSocket input t nanoid c)) = queue c ++ [socket_payload nanoid input].
Proof.
  intros F Hrs Hws. unfold sendViaSocket. rewrite F.
  assert (C : connect c = (with_ws (Some {| readyState := rs; frames := [] |}) c, None)).
  { unfold connect. rewrite F. destruct (ws c) as [sock|] eqn:W; [|reflexivity].
    apply Z.eqb_neq in Hrs. specialize (Hws sock eq_refl). apply Z.eqb_neq in Hws.
    now rewrite Hws. }
  rewrite C. cbn [fst]. unfold transmit, canUseSocket. cbn [ws register_pending with_ws readyState].
  apply Z.eqb_neq in Hrs. rewrite Hrs, andb_false_r. cbn. auto.
Qed.

Lemma send_each_queues calls t rs : forall c,
  wsFactory (options c) = Some (FactorySocket rs) -> rs <> 1%Z ->
  (forall sock, ws c = Some sock -> readyState sock <> 1%Z) ->
  queue (send_each calls t c) =
    queue c ++ map (fun call => socket_payload (snd call) (fst call)) calls /\
  (calls <> [] -> ws (send_each calls t c) = Some {| readyState := rs; frames := [] |}).
Proof.
  induction calls as [|[input id] calls IH]; intros c F Hrs Hws; cbn [send_each map].
  - rewrite app_nil_r. split; [reflexivity|congruence].
  - destruct (sendViaSocket_queues input t id c rs F Hrs Hws) as (O & W & Q).
    destruct (IH (fst (sendViaSocket input t id c))) as [Q' W'].
    + now rewrite O.
    + exact Hrs.
    + rewrite W. intros sock [= <-]. exact Hrs.
    + split.
      * rewrite Q', Q, <- app_assoc. reflexivity.
      * intros _. destruct calls as [|call calls]; [exact W|]. apply W'. discriminate.
Qed.

(** X24. Requests made while the socket is not open are queued in the order they
    are made, and when the socket opens they are transmitted in that order,
    after which the queue is empty. *)
Theorem queued_requests_are_flushed_in_order (c : SockressClient) (rs : Z)
    (calls : list (TransportInput * string)) (t : Z) (sock : WebSocketLike) :
  wsFactory (options c) = Some (FactorySocket rs) -> rs <> 1%Z ->
  (forall sock, ws c = Some sock -> readyState sock <> 1%Z) ->
  ws (send_each calls t c) = Some sock ->
  queue (send_each calls t c) =
    queue c ++ map (fun call => socket_payload (snd call) (fst call)) calls /\
  ws (handleOpen (with_ws (Some {| readyState := 1; frames := frames sock |})
                          (send_each calls t c))) =
    Some {| readyState := 1;
            frames := frames sock ++ queue c ++
                      map (fun call => socket_payload (snd call) (fst call)) calls |} /\
  queue (handleOpen (with_ws (Some {| readyState := 1; frames := frames sock |})
                             (send_each calls t c))) = [].
Proof.
  intros F Hrs Hws W.
  destruct (send_each_queues calls t rs c F Hrs Hws) as [Q _].
  split; [exact Q|]. unfold handleOpen, flushQueue. cbn. now rewrite Q.
Qed.

Lemma queued_requests_are_flushed_in_order_witness :
  exists sock,
    ws (send_each [(transport_input connecting_client get_ping, "a");
                   (transport_input connecting_client get_ping, "b")] 15000
                  connecting_client) = Some sock /\
    map sp_id (queue (send_each [(transport_input connecting_client get_ping, "a");
                                 (transport_input connecting_client get_ping, "b")] 15000
                                connecting_client)) = ["a"; "b"].
Proof.
  eexists. split; [reflexivity|].
  destruct (queued_requests_are_flushed_in_order connecting_client 0
              [(transport_input connecting_client get_ping, "a");
               (transport_input connecting_client get_ping, "b")] 15000
              {| readyState := 0; frames := [] |}) as (Q & _).
  - reflexivity.
  - discriminate.
  - intros sock [=].
  - reflexivity.
  - rewrite Q. reflexivity.
Defined.

(** *** Across the wire *)

(** X25. An [error] envelope the server sends in answer to a frame (an
    unreadable frame, an unsupported type, a request rejected before
    dispatch) carries no id, and the client takes it for a pushed message:
    it emits [message] and settles no pending request, which is left to its
    timeout. *)
Theorem server_error_envelope_settles_nothing (app : SockressApp)
    (originHeader : option string) (nanoid : string) (frame : SocketFrame)
    (x : Emitted) (m : OutgoingSocketMessage) (c : SockressClient) :
  In x (on_message app originHeader nanoid frame) ->
  emitted_message x = Some m -> msg_type m = MsgError ->
  handleSocketMessage (received m) c = emit EmitMessage c /\
  pending (handleSocketMessage (received m) c) = pending c /\
  settled (handleSocketMessage (received m) c) = settled c.
Proof.
  intros Hin Hm Ht.
  assert (Hi : msg_id m = None).
  { destruct (on_message_cases app originHeader nanoid frame)
      as [(message & E)|(payload & st & _ & R & E)]; rewrite E in Hin.
    - destruct Hin as [<-|[]]. now injection Hm as <-.
    - destruct (runPipeline_on_transport _ _ _ _ _ _ R) as [_ F].
      rewrite Forall_forall in F. apply list_elem_of_In, F in Hin.
      destruct x as [code hs b|msg]; [discriminate|]. injection Hm as ->.
      destruct Hin as [Hr _]. congruence. }
  assert (E : handleSocketMessage (received m) c = emit EmitMessage c).
  { unfold handleSocketMessage, received. cbn [ie_type ie_id]. now rewrite Ht, Hi. }
  rewrite E. auto.
Qed.

Lemma server_error_envelope_settles_nothing_witness :
  pending (handleSocketMessage (received (error_envelope "Unexpected token"))
                               waiting_client) = pending waiting_client.
Proof.
  apply (server_error_envelope_settles_nothing empty_app None "n1"
           (FrameInvalid "Unexpected token")
           (EmitSocket (error_envelope "Unexpected token"))
           (error_envelope "Unexpected token") waiting_client);
    [now left|reflexivity|reflexivity].
Defined.

Lemma values_of_app key a b : values_of key (a ++ b) = values_of key a ++ values_of key b.
Proof. unfold values_of. now rewrite List.filter_app, map_app. Qed.

Lemma values_of_search_params key (q : JsObj FieldValue) :
  List.NoDup (obj_keys q) ->
  values_of key (search_params (Some q)) =
  match obj_get key q with
  | Some (FieldStr v) => [v]
  | Some (FieldArr vs) => vs
  | None => []
  end.
Proof.
  unfold search_params. cbn [nullish].
  induction q as [|[k fv] q IH]; intros Hd; [reflexivity|].
  cbn in Hd. apply List.NoDup_cons_iff in Hd as [Hk Hd].
  cbn [flat_map fst snd obj_get]. rewrite values_of_app, (IH Hd).
  rewrite (String.eqb_sym key k).
  assert (V : values_of key (match fv with
                             | FieldStr v => [(k, v)]
                             | FieldArr vs => map (fun v => (k, v)) vs
                             end) =
              if String.eqb k key
              then match fv with FieldStr v => [v] | FieldArr vs => vs end
              else []).
  { destruct fv as [v|vs].
    - rewrite values_of_cons. now destruct (String.eqb k key).
    - induction vs as [|v vs IHv]; [now destruct (String.eqb k key)|].
      cbn [map]. rewrite values_of_cons, IHv. now destruct (String.eqb k key). }
  rewrite V. destruct (String.eqb k key) eqn:E.
  - apply String.eqb_eq in E as ->. apply obj_get_None in Hk. rewrite Hk.
    rewrite app_nil_r. now destruct fv.
  - reflexivity.
Qed.

(** X26. The query of a request survives the HTTP transport, for a path that
    holds no query string of its own, a URL that carries the appended search
    parameters as they are, and keys none of which is the name of a member
    every object inherits: what the server parses from them holds, under
    each such key, the string the query held, or the values of the array it
    held, in order; an array of one value comes back as that string and an
    empty array as no key at all. *)
Theorem query_survives_http (q : JsObj FieldValue) (key : string) :
  Forall (fun k => plain_key k = true) (obj_keys q) ->
  plain_key key = true ->
  List.NoDup (obj_keys q) ->
  Forall (fun kv => match snd kv with
                    | FieldStr v => v <> ""
                    | FieldArr vs => Forall (fun v => v <> "") vs
                    end) q ->
  obj_get key (parseQuery (search_params (Some q))) =
  match obj_get key q with
  | Some (FieldStr v) => Some (FieldStr v)
  | Some (FieldArr vs) => field_of vs
  | None => None
  end.
Proof.
  intros _ _ Hd Hv. unfold parseQuery.
  rewrite (accumulate_pairs key _ [] [] eq_refl (List.Forall_nil _)).
  - cbn [List.app]. rewrite (values_of_search_params key q Hd).
    now destruct (obj_get key q) as [[v|vs]|].
  - rewrite (values_of_search_params key q Hd).
    destruct (obj_get key q) as [[v|vs]|] eqn:G; [| |constructor].
    + constructor; [|constructor].
      clear Hd. induction Hv as [|[k fv] q Hkv _ IH]; [discriminate|].
      cbn in G. destruct (String.eqb key k); [|now apply IH].
      injection G as ->. exact Hkv.
    + clear Hd. induction Hv as [|[k fv] q Hkv _ IH]; [discriminate|].
      cbn in G. destruct (String.eqb key k); [|now apply IH].
      injection G as ->. exact Hkv.
Qed.

Lemma query_survives_http_witness :
  obj_get "tag" (parseQuery (search_params (Some [("tag", FieldArr ["a"; "b"]);
                                                   ("page", FieldStr "2")]))) =
    Some (FieldArr ["a"; "b"]).
Proof.
  apply (query_survives_http [("tag", FieldArr ["a"; "b"]); ("page", FieldStr "2")] "tag").
  - repeat constructor.
  - reflexivity.
  - repeat constructor; cbn; intuition discriminate.
  - repeat constructor; discriminate.
Defined.

(** *** Building a request *)

Lemma fold_set_get (l : JsObj string) :
  List.NoDup (obj_keys l) ->
  forall acc k,
    obj_get k (fold_left (fun o kv => obj_set (fst kv) (snd kv) o) l acc) =
    match obj_get k l with Some v => Some v | None => obj_get k acc end.
Proof.
  induction l as [|[k0 v0] l IH]; intros Hd acc k; [reflexivity|].
  cbn in Hd. apply List.NoDup_cons_iff in Hd as [Hk Hd].
  cbn [fold_left obj_get fst snd]. rewrite (IH Hd). destruct (String.eqb k k0) eqn:E.
  - apply String.eqb_eq in E as ->. apply obj_get_None in Hk. rewrite Hk.
    now rewrite obj_get_set, String.eqb_refl.
  - destruct (obj_get k l); [reflexivity|]. now rewrite obj_get_set, E.
Qed.

(** X27. The headers of a request are the default headers of the client
    overridden by the headers given with the request: a header given with
    the request wins, any other default is kept. *)
Theorem request_headers_override_defaults (c : SockressClient) (o : SockressClientRequest)
    (name : string) :
  List.NoDup (obj_keys (default_headers (options c))) ->
  List.NoDup (obj_keys (nullish (rq_headers o) [])) ->
  obj_get name (ti_headers (transport_input c o)) =
  match obj_get name (nullish (rq_headers o) []) with
  | Some v => Some v
  | None => obj_get name (default_headers (options c))
  end.
Proof.
  intros Hd Hr. unfold transport_input, spread. cbn [ti_headers].
  rewrite fold_left_app, (fold_set_get _ Hr), (fold_set_get _ Hd).
  now destruct (obj_get name (default_headers (options c))).
Qed.

Lemma request_headers_override_defaults_witness :
  obj_get "authorization" (ti_headers (transport_input client_with_token request_with_token)) =
    Some "Bearer request" /\
  obj_get "x-app" (ti_headers (transport_input client_with_token request_with_token)) =
    Some "demo".
Proof.
  split.
  - apply (request_headers_override_defaults client_with_token request_with_token
             "authorization"); repeat constructor; cbn; intuition discriminate.
  - apply (request_headers_override_defaults client_with_token request_with_token
             "x-app"); repeat constructor; cbn; intuition discriminate.
Defined.

End SessionProps.

(* ===================================================================== *)
(** ** The fallback from the socket to HTTP *)
(* ===================================================================== *)

Module FallbackProps.
Import ObjFacts ClientProps SessionProps.

Lemma headers_append_other o kv k :
  String.eqb k (toLowerCase (fst kv)) = false ->
  obj_get k (headers_append o kv) = obj_get k o.
Proof.
  intros E. unfold headers_append. destruct (obj_get (toLowerCase (fst kv)) o);
    now rewrite obj_get_set, E.
Qed.

Lemma new_headers_other (h : JsObj string) : forall acc k,
  ~ In k (map toLowerCase (obj_keys h)) ->
  obj_get k (fold_left headers_append h acc) = obj_get k acc.
Proof.
  induction h as [|[k0 v0] h IH]; intros acc k Hk; cbn [fold_left]; [reflexivity|].
  cbn in Hk. rewrite IH by tauto. apply headers_append_other. cbn [fst].
  apply String.eqb_neq. intros ->. tauto.
Qed.

(** When no two names are the same up to case, every header of the record
    is in the [Headers] object under its lower-cased name. *)
Lemma new_headers_get (h : JsObj string) : forall acc,
  List.NoDup (map toLowerCase (obj_keys h)) ->
  (forall k, In k (obj_keys h) -> obj_get (toLowerCase k) acc = None) ->
  forall name value, In (name, value) h ->
    obj_get (toLowerCase name) (fold_left headers_append h acc) = Some value.
Proof.
  induction h as [|[k0 v0] h IH]; intros acc Hd Ha name value Hin; [destruct Hin|].
  cbn in Hd. apply List.NoDup_cons_iff in Hd as [Hk Hd]. cbn [fold_left].
  assert (E0 : headers_append acc (k0, v0) = obj_set (toLowerCase k0) v0 acc).
  { unfold headers_append. cbn [fst snd]. rewrite (Ha k0); [reflexivity|now left]. }
  destruct Hin as [[= -> ->]|Hin].
  - rewrite new_headers_other by exact Hk. rewrite E0.
    now rewrite obj_get_set, String.eqb_refl.
  - apply (IH _ Hd); [|exact Hin]. intros k Hkin. rewrite E0, obj_get_set.
    destruct (String.eqb (toLowerCase k) (toLowerCase k0)) eqn:E.
    + apply String.eqb_eq in E. exfalso. apply Hk. rewrite <- E.
      apply in_map. exact Hkin.
    + apply Ha. now right.
Qed.

Lemma fold_lower (hs : list (string * string)) :
  Forall (fun kv => toLowerCase (fst kv) = fst kv) hs ->
  forall acc,
    fold_left (fun o kv => obj_set (toLowerCase (fst kv)) (snd kv) o) hs acc =
    fold_left (fun o kv => obj_set (fst kv) (snd kv) o) hs acc.
Proof.
  induction 1 as [|kv hs Hk _ IH]; intros acc; cbn [fold_left]; [reflexivity|].
  now rewrite Hk, IH.
Qed.




End FallbackProps.

(* ===================================================================== *)
(** ** Routers and form fields *)
(* ===================================================================== *)

Module MountProps.
Import ObjFacts MatcherProps RouteProps FormProps DispatchProps ServerMoreProps.

Lemma raw_buildMatcher path : raw (buildMatcher path) = path.
Proof.
  unfold buildMatcher. destruct (_ || _); [reflexivity|].
  now destruct (compile_segments (split_slash path)).
Qed.

(** The matcher of a route made of literal segments. *)
Lemma literal_route_matcher seg segs :
  Forall (fun s => is_literal_segment s = true) (seg :: segs) ->
  buildMatcher (join_path (seg :: segs)) =
  {| raw := join_path (seg :: segs); pieces := map PLit (seg :: segs); keys := [];
     always := false |}.
Proof.
  intros H. pose proof H as H'. apply Forall_cons in H' as [Hs _].
  unfold buildMatcher.
  assert (E1 : String.eqb (join_path (seg :: segs)) "*" = false).
  { cbn [join_path]. rewrite append_cons. reflexivity. }
  assert (E2 : String.eqb (join_path (seg :: segs)) "/*" = false).
  { cbn [join_path]. rewrite append_cons. cbn [String.eqb]. rewrite Ascii.eqb_refl.
    destruct seg as [|c r]; [discriminate|]. rewrite append_cons. cbn [String.eqb].
    destruct (Ascii.eqb c "*") eqn:Ec; [|reflexivity].
    destruct (r +:+ join_path segs) eqn:Er; [|reflexivity].
    destruct r; [|discriminate]. apply Ascii.eqb_eq in Ec as ->. discriminate. }
  rewrite E1, E2. cbn [orb]. unfold split_slash.
  rewrite (split_join (seg :: segs) "" H), compile_empty_head.
  now rewrite (compile_literals _ H).
Qed.

Lemma compose_routes_params_only a1 a2 method path :
  paramHandlers a1 = paramHandlers a2 ->
  forall rs stack ps,
    compose_routes a1 method path rs stack ps = compose_routes a2 method path rs stack ps.
Proof.
  intros H. induction rs as [|r rs IH]; intros stack ps; cbn [compose_routes]; [reflexivity|].
  destruct (negb _ && negb _); [apply IH|].
  destruct (match_path (rt_matcher r) path) as [|params|]; [apply IH| |reflexivity].
  unfold param_layers. rewrite H. apply IH.
Qed.

Lemma compose_routes_append app method path rs1 rs2 :
  forall stack ps,
    compose_routes app method path (rs1 ++ rs2) stack ps =
    match compose_routes app method path rs1 stack ps with
    | ComposeThrows => ComposeThrows
    | ComposeStack s ps' => compose_routes app method path rs2 s ps'
    end.
Proof.
  induction rs1 as [|r rs1 IH]; intros stack ps; cbn [List.app compose_routes]; [reflexivity|].
  destruct (negb _ && negb _); [apply IH|].
  destruct (match_path (rt_matcher r) path) as [|params|]; [apply IH|apply IH|reflexivity].
Qed.

Lemma middleware_layers_append app extra path (ms : list MiddlewareLayer) :
  middlewares extra = middlewares app ++ ms ->
  middleware_layers extra path =
  middleware_layers app path ++
  map (fun l => {| handler := mw_handler l; isErrorHandler := mw_isErrorHandler l |})
      (List.filter (fun l => matchesPrefix (mw_path l) path) ms).
Proof.
  intros H. unfold middleware_layers. now rewrite H, List.filter_app, map_app.
Qed.

Lemma prefix_not_root p prefix :
  is_literal_segment p = true -> String.eqb (join_path (p :: prefix)) "/" = false.
Proof.
  intros Hp. cbn [join_path]. rewrite append_cons. cbn [String.eqb]. rewrite Ascii.eqb_refl.
  destruct p as [|c p']; [discriminate|]. rewrite append_cons. reflexivity.
Qed.

(** A prefix of literal segments applies to itself and to what continues it
    after a slash. *)
Lemma literal_prefix_matches p prefix rest :
  is_literal_segment p = true ->
  matchesPrefix (join_path (p :: prefix)) (join_path (p :: prefix)) = true /\
  matchesPrefix (join_path (p :: prefix)) (join_path (p :: prefix) +:+ "/" +:+ rest) = true.
Proof.
  intros Hp. pose proof (prefix_not_root p prefix Hp) as N.
  assert (S : startsWith (join_path (p :: prefix)) "/" = true).
  { cbn [join_path]. rewrite append_cons. cbn [startsWith]. rewrite Ascii.eqb_refl.
    now destruct (p +:+ join_path prefix). }
  assert (E : String.eqb (join_path (p :: prefix)) "" = false).
  { cbn [join_path]. rewrite append_cons. reflexivity. }
  unfold matchesPrefix. rewrite N, E, S. cbn [orb]. split.
  - now rewrite String.eqb_refl.
  - rewrite <- append_assoc, startsWith_app. apply orb_true_r.
Qed.

(** The matcher of a route of literal segments mounted under a prefix of
    literal segments. *)
Lemma mounted_literal_route prefix route p r incoming :
  Forall (fun s => is_literal_segment s = true) (p :: prefix) ->
  Forall (fun s => is_literal_segment s = true) (r :: route) ->
  match_path (buildMatcher (mounted_route_path (join_path (p :: prefix))
                              (raw (buildMatcher (join_path (r :: route))))))
             incoming =
    (if String.eqb incoming (join_path ((p :: prefix) ++ r :: route)) ||
        String.eqb incoming (join_path ((p :: prefix) ++ r :: route) +:+ "/")
     then MatchParams [] else MatchNull).
Proof.
  intros Hp Hr.
  assert (N : String.eqb (join_path (p :: prefix)) "/" = false).
  { apply prefix_not_root. now apply Forall_cons in Hp as [Hp _]. }
  unfold mounted_route_path. rewrite N, raw_buildMatcher, <- join_path_app.
  assert (H : Forall (fun s => is_literal_segment s = true) (p :: prefix ++ r :: route)).
  { apply Forall_cons in Hp as [Hp0 Hp]. constructor; [exact Hp0|].
    apply Forall_app. split; assumption. }
  change ((p :: prefix) ++ r :: route) with (p :: prefix ++ r :: route).
  rewrite (literal_route_matcher _ _ H). unfold match_path. cbn [always pieces keys].
  rewrite match_literals.
  destruct (String.eqb incoming "") eqn:E0.
  - apply String.eqb_eq in E0 as ->. cbn [join_path]. rewrite !append_cons.
    apply Forall_cons in Hp as [Hp0 _]. destruct p as [|c p']; [discriminate|].
    reflexivity.
  - destruct (_ || _); reflexivity.
Qed.

(** X28. A router mounted under a prefix answers under the prefix. For a
    router with middleware registered without a path and a route of literal
    segments, mounted with [app.use] under a prefix of literal segments: a
    request of the method of the route for the path that spells the prefix
    and then the route, with or without a trailing slash, is answered by the
    middleware of the application, then the middleware of the router, then
    the routes of the application that match, and last the handlers of the
    route; the middleware of the router joins the stack of every path under
    the prefix, the prefix itself included; and for a path that is not under
    the prefix the stack is that of the application alone. *)
Theorem mounted_router_answers_under_prefix (app : SockressApp)
    (mws handlers : list HandlerFn) (method : string) (prefix route : list string)
    (p r : string) (req : SockressRequest) :
  Forall (fun s => is_literal_segment s = true) (p :: prefix) ->
  Forall (fun s => is_literal_segment s = true) (r :: route) ->
  let mounted :=
    use_router (join_path (p :: prefix))
               (router_register method (join_path (r :: route)) handlers
                                (router_use "/" mws empty_router))
               app in
  let of_router := map (fun h => {| handler := h; isErrorHandler := is_arity4 h |}) mws in
  (req_method req = method ->
   req_path req = join_path ((p :: prefix) ++ r :: route) \/
   req_path req = join_path ((p :: prefix) ++ r :: route) +:+ "/" ->
   composeStack mounted req =
     match compose_routes app (req_method req) (req_path req) (routes app) []
                          (req_params req) with
     | ComposeThrows => ComposeThrows
     | ComposeStack own _ =>
         ComposeStack (middleware_layers app (req_path req) ++ of_router ++ own ++
                       map (wrap_route []) handlers) []
     end) /\
  (forall rest,
     req_path req = join_path (p :: prefix) \/
     req_path req = join_path (p :: prefix) +:+ "/" +:+ rest ->
     middleware_layers mounted (req_path req) =
     middleware_layers app (req_path req) ++ of_router) /\
  (matchesPrefix (join_path (p :: prefix)) (req_path req) = false ->
   composeStack mounted req = composeStack app req).
Proof.
  intros Hp Hr mounted of_router.
  pose proof Hp as Hp'. apply Forall_cons in Hp' as [Hp0 _].
  pose proof (prefix_not_root p prefix Hp0) as N.
  set (P := join_path (p :: prefix)) in *.
  assert (M : forall path,
             middleware_layers mounted path =
             middleware_layers app path ++
             (if matchesPrefix P path then of_router else [])).
  { intros path.
    rewrite (middleware_layers_append app mounted path
               (map (fun h => {| mw_path := P; mw_handler := h;
                                 mw_isErrorHandler := is_arity4 h |}) mws)).
    - f_equal. subst of_router. clear.
      destruct (matchesPrefix P path) eqn:E;
        induction mws as [|h hs IH]; cbn [map List.filter mw_path]; try reflexivity;
        rewrite E; cbn [map mw_handler mw_isErrorHandler]; now rewrite IH.
    - subst mounted. unfold use_router, router_register, router_use, empty_router.
      cbn [middlewares router_middlewares List.app]. f_equal. rewrite map_map.
      apply map_ext. intros h. cbn [mw_path mw_handler mw_isErrorHandler].
      unfold mounted_middleware_path. rewrite N.
      change (String.eqb "/" "/") with true. cbv iota. now rewrite append_nil_r. }
  assert (Rt : routes mounted =
               routes app ++
               [{| rt_method := method;
                   rt_matcher := buildMatcher (mounted_route_path P
                                   (raw (buildMatcher (join_path (r :: route)))));
                   rt_handlers := handlers |}]) by reflexivity.
  assert (C : composeStack mounted req =
              match compose_routes app (req_method req) (req_path req) (routes app)
                      (middleware_layers mounted (req_path req)) (req_params req) with
              | ComposeThrows => ComposeThrows
              | ComposeStack s ps' =>
                  compose_routes app (req_method req) (req_path req)
                    [{| rt_method := method;
                        rt_matcher := buildMatcher (mounted_route_path P
                                        (raw (buildMatcher (join_path (r :: route)))));
                        rt_handlers := handlers |}] s ps'
              end).
  { unfold composeStack. rewrite middleware_stack, Rt.
    rewrite (compose_routes_params_only mounted app _ _ eq_refl).
    apply compose_routes_append. }
  assert (Under : forall rest, req_path req = P \/ req_path req = P +:+ "/" +:+ rest ->
                               matchesPrefix P (req_path req) = true).
  { intros rest [-> | ->]; now apply (literal_prefix_matches p prefix rest). }
  assert (J : join_path ((p :: prefix) ++ r :: route) =
              P +:+ "/" +:+ (r +:+ join_path route)).
  { rewrite join_path_app. reflexivity. }
  assert (J' : join_path ((p :: prefix) ++ r :: route) +:+ "/" =
               P +:+ "/" +:+ ((r +:+ join_path route) +:+ "/")).
  { rewrite J, !append_assoc. reflexivity. }
  split; [|split].
  - intros Hm Hpath. rewrite C.
    assert (U : matchesPrefix P (req_path req) = true).
    { destruct Hpath as [E|E].
      - apply (Under (r +:+ join_path route)). right. now rewrite E, J.
      - apply (Under ((r +:+ join_path route) +:+ "/")). right. now rewrite E, J'. }
    rewrite M, U, compose_routes_shift.
    destruct (compose_routes app _ _ (routes app) [] _) as [|own ps']; [reflexivity|].
    cbn [compose_routes rt_method rt_matcher rt_handlers].
    rewrite Hm, String.eqb_refl. cbn [negb andb].
    unfold P. rewrite (mounted_literal_route prefix route p r (req_path req) Hp Hr).
    assert (Hit : String.eqb (req_path req) (join_path ((p :: prefix) ++ r :: route)) ||
                  String.eqb (req_path req)
                             (join_path ((p :: prefix) ++ r :: route) +:+ "/") = true).
    { destruct Hpath as [-> | ->]; rewrite String.eqb_refl; [reflexivity|apply orb_true_r]. }
    rewrite Hit. unfold param_layers. cbn [flat_map List.app].
    now rewrite <- !app_assoc.
  - intros rest Hpath. now rewrite M, (Under rest Hpath).
  - intros Out. rewrite C, M, Out, app_nil_r.
    unfold composeStack. cbv zeta. rewrite middleware_stack.
    destruct (compose_routes app (req_method req) (req_path req) (routes app)
                (middleware_layers app (req_path req)) (req_params req)) as [|s ps'].
    { reflexivity. }
    cbn [compose_routes rt_method rt_matcher rt_handlers].
    destruct (negb _ && negb _); [reflexivity|].
    unfold P. rewrite (mounted_literal_route prefix route p r (req_path req) Hp Hr).
    destruct (String.eqb (req_path req) (join_path ((p :: prefix) ++ r :: route))) eqn:E1.
    { apply String.eqb_eq in E1.
      rewrite (Under (r +:+ join_path route)) in Out; [discriminate|].
      right. now rewrite E1, J. }
    destruct (String.eqb (req_path req)
                (join_path ((p :: prefix) ++ r :: route) +:+ "/")) eqn:E2.
    { apply String.eqb_eq in E2.
      rewrite (Under ((r +:+ join_path route) +:+ "/")) in Out; [discriminate|].
      right. now rewrite E2, J'. }
    reflexivity.
Qed.

Lemma mounted_router_answers_under_prefix_witness :
  composeStack app_with_router (get_request "/api/list") =
    ComposeStack [ {| handler := pass_through; isErrorHandler := false |};
                   wrap_route [] respond_ok ] [] /\
  (exists st x,
      runPipeline app_with_router (get_request "/api/list") (create ModeHttp default_cors "*")
        = Settled st /\
      trace st = [EvInvoke 0 VUndefined; EvInvoke 1 VUndefined] /\
      wire st = [x] /\ emitted_status x = 200%Z) /\
  middleware_layers app_with_router "/api/other" =
    [ {| handler := pass_through; isErrorHandler := false |} ] /\
  composeStack app_with_router (get_request "/apiary") = ComposeStack [] [].
Proof.
  destruct (mounted_router_answers_under_prefix empty_app [pass_through] [respond_ok] "GET"
              [] [] "api" "list" (get_request "/api/list")) as (A & _ & _);
    [repeat constructor|repeat constructor|].
  destruct (mounted_router_answers_under_prefix empty_app [pass_through] [respond_ok] "GET"
              [] [] "api" "list" (get_request "/api/other")) as (_ & B & _);
    [repeat constructor|repeat constructor|].
  destruct (mounted_router_answers_under_prefix empty_app [pass_through] [respond_ok] "GET"
              [] [] "api" "list" (get_request "/apiary")) as (_ & _ & C);
    [repeat constructor|repeat constructor|].
  split; [exact (A eq_refl (or_introl eq_refl))|]. split; [|split].
  - remember (runPipeline app_with_router (get_request "/api/list")
                (create ModeHttp default_cors "*")) as res eqn:E.
    vm_compute in E. subst res. eexists _, _. repeat split.
  - exact (B "other" (or_intror eq_refl)).
  - exact (C eq_refl).
Defined.

(** *** Text fields of a form *)

Lemma strings_under_string key k value formData :
  strings_under key ((k, EntryString value) :: formData) =
  if String.eqb k key then value :: strings_under key formData
  else strings_under key formData.
Proof. unfold strings_under. cbn. now destruct (String.eqb k key). Qed.

Lemma serialize_entry_fields acc k value :
  fst (serialize_entry acc (k, EntryString value)) = accumulate_pair (fst acc) (k, value).
Proof.
  destruct acc as [fields fls]. unfold accumulate_pair. cbn.
  destruct (obj_get k fields) as [[v|vs]|]; [destruct (field_truthy _)| |]; reflexivity.
Qed.

Lemma serializeFormData_fields (key : string) (formData : FormData) :
  forall acc pre,
    obj_get key (fst acc) = field_of pre -> Forall (fun v => v <> "") pre ->
    Forall (fun v => v <> "") (strings_under key formData) ->
    obj_get key (fst (fold_left serialize_entry formData acc)) =
      field_of (pre ++ strings_under key formData).
Proof.
  induction formData as [|[k e] formData IH]; intros acc pre G F H; cbn [fold_left].
  - cbn. now rewrite app_nil_r.
  - destruct e as [value|f].
    + rewrite strings_under_string in H |- *. destruct (String.eqb k key) eqn:E.
      * apply String.eqb_eq in E as ->. apply Forall_cons in H as [Hv H].
        replace (pre ++ value :: strings_under key formData)
          with ((pre ++ [value]) ++ strings_under key formData) by now rewrite <- app_assoc.
        apply IH; [|apply Forall_app; split; [exact F|now constructor]|exact H].
        rewrite serialize_entry_fields. now apply accumulate_pair_same.
      * apply IH; [|exact F|exact H]. rewrite serialize_entry_fields.
        rewrite accumulate_pair_other; [exact G|]. cbn [fst]. now rewrite String.eqb_sym.
    + apply IH; [|exact F|exact H]. destruct acc as [fields fls]. exact G.
Qed.

(** X29. For a form none of whose field names is the name of a member every
    object inherits, a text field whose name is none either and none of
    whose values is empty reaches the handlers as the form holds it: the
    string when the name occurs once, the array of its values in order when
    it is repeated; files under the same name do not touch it. *)
Theorem form_fields_survive_socket (formData : FormData) (key : string) :
  Forall (fun entry => plain_key (fst entry) = true) formData ->
  plain_key key = true ->
  Forall (fun v => v <> "") (strings_under key formData) ->
  body_field key (body (socket_roundtrip formData)) = field_of (strings_under key formData).
Proof.
  intros _ _ H. unfold socket_roundtrip, serializeBodyForSocket, serializeFormData.
  pose proof (serializeFormData_fields key formData ([], []) [] eq_refl
                (List.Forall_nil _) H) as G.
  destruct (fold_left serialize_entry formData ([], [])) as [fields serialized].
  exact G.
Qed.

Lemma form_fields_survive_socket_witness :
  body_field "tag" (body (socket_roundtrip [("tag", EntryString "a");
                                            ("tag", EntryFile (png [Byte.x61]));
                                            ("tag", EntryString "b")])) =
    Some (FieldArr ["a"; "b"]).
Proof.
  apply (form_fields_survive_socket [("tag", EntryString "a");
                                     ("tag", EntryFile (png [Byte.x61]));
                                     ("tag", EntryString "b")] "tag").
  - repeat constructor.
  - reflexivity.
  - repeat constructor; discriminate.
Defined.

End MountProps.

(* ===================================================================== *)
(** ** Optional route parameters *)
(* ===================================================================== *)

Module OptionalRouteProps.
Import ObjFacts MatcherProps RouteProps.

Lemma endsWith_qmark s c : endsWith_char "?" (String c (s +:+ "?")) = true.
Proof.
  revert c. induction s as [|a s IH]; intros c; [reflexivity|].
  rewrite append_cons. cbn [endsWith_char]. apply IH.
Qed.

Lemma strip_trailing_qmark_app s : strip_trailing_qmark (s +:+ "?") = s.
Proof.
  induction s as [|a s IH]; [reflexivity|]. rewrite append_cons.
  cbn [strip_trailing_qmark]. rewrite IH.
  destruct s; [reflexivity|]. now rewrite append_cons.
Qed.

Lemma all_chars_app f a b : all_chars f (a +:+ b) = all_chars f a && all_chars f b.
Proof.
  induction a as [|c a IH]; [reflexivity|]. rewrite append_cons. cbn.
  now rewrite IH, andb_assoc.
Qed.

Lemma compile_optional_route segs key :
  Forall (fun seg => is_literal_segment seg = true) segs ->
  compile_segments (segs ++ [String ":" (key +:+ "?")]) =
    (map PLit segs ++ [POptParam], [key]).
Proof.
  intros H. induction H as [|seg segs Hs _ IH].
  - cbn [List.app compile_segments map]. unfold compile_segment.
    rewrite Ascii.eqb_refl, endsWith_qmark, strip_trailing_qmark_app. reflexivity.
  - cbn [List.app compile_segments map]. rewrite IH.
    destruct seg as [|c r]; [discriminate|]. unfold is_literal_segment in Hs.
    apply andb_true_iff in Hs as [Hs _]. apply andb_true_iff in Hs as [Hc Hstar].
    apply negb_true_iff in Hc, Hstar. unfold compile_segment. now rewrite Hc, Hstar.
Qed.

(** The matcher of a route that ends in an optional parameter. *)
Lemma optional_route_matcher segs key :
  Forall (fun seg => is_literal_segment seg = true) segs ->
  all_chars not_slash key = true ->
  buildMatcher (join_path (segs ++ [String ":" (key +:+ "?")])) =
  {| raw := join_path (segs ++ [String ":" (key +:+ "?")]);
     pieces := map PLit segs ++ [POptParam]; keys := [key]; always := false |}.
Proof.
  intros H Hk. unfold buildMatcher.
  destruct (param_route_not_wildcard segs (key +:+ "?") H) as [E1 E2].
  rewrite E1, E2. cbn [orb]. unfold split_slash. rewrite split_segments.
  - rewrite compile_empty_head, (compile_optional_route segs key H).
    destruct segs; reflexivity.
  - apply Forall_app. split.
    + eapply Forall_impl; [exact H|]. intros seg. apply literal_no_slash.
    + constructor; [|constructor]. cbn [all_chars]. rewrite all_chars_app, Hk. reflexivity.
Qed.

Lemma match_optional_present value rest :
  value <> "" -> all_chars not_slash value = true -> rest = "" \/ rest = "/" ->
  match_pieces [POptParam] (String slash value +:+ rest) = Some [Some value].
Proof.
  intros Hn Hv Hr. rewrite append_cons. cbn [match_pieces]. rewrite Ascii.eqb_refl.
  destruct (greedy_takes_segment value rest Hv Hr) as (others & ->).
  cbn [first_some fst snd]. apply String.eqb_neq in Hn. rewrite Hn.
  destruct Hr as [->| ->]; reflexivity.
Qed.



End OptionalRouteProps.
